(** * FoamGrid: topology, index sets, grid factory and intersection iterators

    A shallow embedding of the combinatorial core of dune-foamgrid:

    - [foamgridfactory.hh]: [GridFactory<FoamGrid>] ([insertVertex],
      [insertElement], [createGrid]);
    - [foamgridindexsets.hh]: [FoamGridLevelIndexSet], [FoamGridLeafIndexSet];
    - [foamgridintersectioniterators.hh]: [FoamGridLevelIntersectionIterator],
      [FoamGridLeafIntersectionIterator] and [FoamGridHierarchicIterator].

    Entities live in [std::list]s, one triple of lists per refinement level
    ([entityImps_]); a pointer to an entity is modelled by the level of the
    list and the position of the node in it.  Both are stable, since the
    lists only grow at their end.  Positions in a list are naturals.  The id
    counters and the boundary id counter are [unsigned int]s: they are kept
    as naturals below 2^32, with the wrap-around of [++] written out. *)

From stdpp Require Import prelude gmap.

(** ** Outcomes of a call *)

Inductive Exception := InvalidStateException | GridError | NotImplemented.

(** A call returns normally, raises through [DUNE_THROW], trips an [assert],
    or has no defined behaviour (null or dangling pointer, index out of range,
    singular iterator).  [OutOfFuel] is no behaviour of the program: a
    recursion of the model was given too small a bound. *)
Inductive outcome (A : Type) : Type :=
  | Done (a : A)
  | Throw (e : Exception)
  | AssertFail
  | Undefined
  | OutOfFuel.
Arguments Done {A} a.
Arguments Throw {A} e.
Arguments AssertFail {A}.
Arguments Undefined {A}.
Arguments OutOfFuel {A}.

#[global] Instance outcome_ret : MRet outcome := @Done.
#[global] Instance outcome_bind : MBind outcome := λ A B f m,
  match m with
  | Done a => f a
  | Throw e => Throw e
  | AssertFail => AssertFail
  | Undefined => Undefined
  | OutOfFuel => OutOfFuel
  end.

(** Dereferencing: [None] stands for a pointer or an index that denotes
    nothing. *)
Definition deref {A} (o : option A) : outcome A :=
  match o with Some a => Done a | None => Undefined end.

(** [assert(b)]: checked unless the build defines [NDEBUG]. *)
Definition assert (ndebug b : bool) : outcome unit :=
  if ndebug || b then Done () else AssertFail.

(** ** Entities *)

(** A pointer into [entityImps_]: (level, position in that level's list). *)
Abbreviation Ptr := (nat * nat)%type.

(** [FoamGridVertex]: the position in space plays no role in the topology. *)
Record FoamGridVertex := mkVertex {
  v_level_ : nat;
  v_id_ : nat;
  v_levelIndex_ : option nat;   (* [None]: never written *)
  v_leafIndex_ : option nat;
  v_son_ : option Ptr
}.

(** [FoamGridEntityImp<1,dimworld>] *)
Record FoamGridEdge := mkEdge {
  e_level_ : nat;
  e_id_ : nat;
  e_levelIndex_ : option nat;
  e_leafIndex_ : option nat;
  e_vertex_ : Ptr * Ptr;
  e_elements_ : list Ptr;
  e_sons_ : option Ptr * option Ptr;
  e_nSons_ : nat;
  e_father_ : option Ptr;
  e_boundaryId_ : option nat
}.

(** [FoamGridEntityImp<2,dimworld>], alias [FoamGridElement] *)
Record FoamGridElement := mkElement {
  level_ : nat;
  id_ : nat;
  levelIndex_ : option nat;
  leafIndex_ : option nat;
  vertex_ : list Ptr;
  edges_ : list (option Ptr);
  sons_ : list Ptr;
  father_ : option Ptr
}.

(** One entry of [entityImps_]:
    [tuple<list<FoamGridVertex>, list<FoamGridEdge>, list<FoamGridElement>>]. *)
Record LevelEntities := mkLevel {
  vertices : list FoamGridVertex;
  edges : list FoamGridEdge;
  elements : list FoamGridElement
}.

Abbreviation EntityImps := (list LevelEntities).

Definition getVertex (g : EntityImps) (p : Ptr) : option FoamGridVertex :=
  lev ← g !! p.1; vertices lev !! p.2.
Definition getEdge (g : EntityImps) (p : Ptr) : option FoamGridEdge :=
  lev ← g !! p.1; edges lev !! p.2.
Definition getElement (g : EntityImps) (p : Ptr) : option FoamGridElement :=
  lev ← g !! p.1; elements lev !! p.2.

(** [bool isLeaf() const { return sons_[0]==nullptr; }] *)
Definition edge_isLeaf (e : FoamGridEdge) : bool :=
  match (e_sons_ e).1 with None => true | Some _ => false end.

(** Modelled from the spec: [FoamGridVertex::isLeaf] (the vertex class is
    not among the sources): an entity is a leaf iff it has no children; a
    vertex has the single successor [son_]. *)
Definition vertex_isLeaf (v : FoamGridVertex) : bool :=
  match v_son_ v with None => true | Some _ => false end.

(** Modelled from the spec: [FoamGridElement::isLeaf] and [nSons] (the
    element class is not among the sources): a leaf has no children, and
    [nSons] counts the entries of [sons_]. *)
Definition element_isLeaf (e : FoamGridElement) : bool :=
  match sons_ e with [] => true | _ => false end.
Definition nSons (e : FoamGridElement) : nat := length (sons_ e).

(** Modelled from the spec: [FoamGridElement::corners]: elements are
    triangles, with three vertices and three edges. *)
Definition corners : nat := 3.

(** ** Level intersection iterator *)

(** The fields of [FoamGridLevelIntersection] that the iterator drives.  The
    vector iterator [neighbor_] is [elements_.begin() + neighborIndex_]
    whenever the iterator reads it, so the index stands for both. *)
Record FoamGridLevelIntersection := mkLevelIntersection {
  center_ : Ptr;
  edgeIndex_ : nat;
  neighborIndex_ : nat
}.

(** [center_->edges_[edgeIndex]->elements_] *)
Definition edgeElements (g : EntityImps) (center : Ptr) (edgeIndex : nat)
  : outcome (list Ptr) :=
  c ← deref (getElement g center);
  slot ← deref (edges_ c !! edgeIndex);
  pe ← deref slot;
  ed ← deref (getEdge g pe);
  Done (e_elements_ ed).

(** [center_->level()] *)
Definition centerLevel (g : EntityImps) (center : Ptr) : outcome nat :=
  c ← deref (getElement g center); Done (level_ c).

(** The inner [while]: from position [k], with [rest] the part of the
    incidence list from [neighbor_] on, skip entries that are the center or
    lie on another level; returns the position where it stops. *)
Fixpoint scanNeighbors (g : EntityImps) (center : Ptr) (clevel : nat)
    (rest : list Ptr) (k : nat) : outcome nat :=
  match rest with
  | [] => Done k
  | n :: rest' =>
      if decide (center = n) then scanNeighbors g center clevel rest' (S k)
      else
        nb ← deref (getElement g n);
        if decide (clevel ≠ level_ nb)
        then scanNeighbors g center clevel rest' (S k)
        else Done k
  end.

(** The outer [while] of the constructor; [remaining] is
    [corners - edgeIndex], the number of edge slots left. *)
Fixpoint levelCtorSearch (g : EntityImps) (center : Ptr)
    (remaining edgeIndex : nat) : outcome FoamGridLevelIntersection :=
  match remaining with
  | 0 => Done (mkLevelIntersection center edgeIndex 0)
  | S remaining' =>
      els ← edgeElements g center edgeIndex;
      clevel ← centerLevel g center;
      k ← scanNeighbors g center clevel els 0;
      if decide (k = length els) then
        if decide (length els = 1)
        then Done (mkLevelIntersection center edgeIndex (length els))
        else levelCtorSearch g center remaining' (S edgeIndex)
      else Done (mkLevelIntersection center edgeIndex k)
  end.

(** [FoamGridLevelIntersectionIterator(center, edge)] *)
Definition FoamGridLevelIntersectionIterator (g : EntityImps) (center : Ptr)
    (edge : nat) : outcome FoamGridLevelIntersection :=
  if decide (edge = corners) then Done (mkLevelIntersection center edge 0)
  else
    els ← edgeElements g center edge;
    if decide (length els = 1)
    then Done (mkLevelIntersection center edge (length els))
    else levelCtorSearch g center (corners - edge) edge.

(** [FoamGridLevelIntersectionIterator(center)], the one-after-last
    iterator.  (The intersection's constructor, which is not among the
    sources, leaves [neighborIndex_] at 0 for it, as the other end states
    have it.) *)
Definition FoamGridLevelIntersectionIterator_end (center : Ptr) : FoamGridLevelIntersection :=
  mkLevelIntersection center corners 0.

(** The outer [while] of [increment]: the scan resumes at [neighbor_]. *)
Fixpoint levelIncrSearch (g : EntityImps) (center : Ptr)
    (remaining edgeIndex neighborIndex : nat) : outcome FoamGridLevelIntersection :=
  match remaining with
  | 0 => Done (mkLevelIntersection center edgeIndex 0)
  | S remaining' =>
      els ← edgeElements g center edgeIndex;
      clevel ← centerLevel g center;
      k ← scanNeighbors g center clevel (drop neighborIndex els) neighborIndex;
      if decide (k = length els) then
        if decide (length els = 1)
        then Done (mkLevelIntersection center edgeIndex (length els))
        else
          levelIncrSearch g center remaining' (S edgeIndex)
            (if decide (S edgeIndex < corners) then 0 else k)
      else Done (mkLevelIntersection center edgeIndex k)
  end.

(** [FoamGridLevelIntersectionIterator::increment] *)
Definition FoamGridLevelIntersectionIterator_increment (g : EntityImps)
    (it : FoamGridLevelIntersection) : outcome FoamGridLevelIntersection :=
  if decide (edgeIndex_ it = corners)
  then Done (mkLevelIntersection (center_ it) (edgeIndex_ it) 0)
  else
    els ← edgeElements g (center_ it) (edgeIndex_ it);
    let '(e, k) :=
      if decide (length els = 1) then
        (S (edgeIndex_ it),
         if decide (S (edgeIndex_ it) < corners) then 0 else neighborIndex_ it)
      else (edgeIndex_ it, neighborIndex_ it) in
    levelIncrSearch g (center_ it) (corners - e) e k.

(** ** Leaf index set: sizes *)

(** [GeometryType]: how it was built, and its dimension. *)
Inductive BasicType := simplex | cube | none.
Record GeometryType := mkGeometryType {
  basicType : BasicType;
  gt_dim : Z       (* [unsigned int dim()] *)
}.

(** Grid dimension *)
Definition dim : Z := 2.

Record FoamGridLeafIndexSet := mkLeafIndexSet {
  size_ : list Z;                        (* [int size_[dim+1]] *)
  leaf_myTypes_ : list (list GeometryType)
}.

(** [int size (GeometryType type) const] *)
Definition FoamGridLeafIndexSet_size_type (s : FoamGridLeafIndexSet)
    (type : GeometryType) : Z :=
  if decide (gt_dim type < 0 ∨ gt_dim type > dim)%Z then 0%Z
  else size_ s !!! Z.to_nat (gt_dim type).

(** [int size (int codim) const] *)
Definition FoamGridLeafIndexSet_size (s : FoamGridLeafIndexSet) (codim : Z) : Z :=
  if decide (codim < 0 ∨ codim > dim)%Z then 0%Z
  else size_ s !!! Z.to_nat (dim - codim).

(** ** What the level scan is to find *)

(** A neighbor of the center [E] on [E]'s own level: not [E] itself, and an
    element of level [clevel]. *)
Definition sameLevelNeighbor (g : EntityImps) (E : Ptr) (clevel : nat)
    (n : Ptr) : Prop :=
  n ≠ E ∧ level_ <$> getElement g n = Some clevel.

(** Position [k] holds the first such neighbor of the list. *)
Definition firstSameLevelNeighbor (g : EntityImps) (E : Ptr) (clevel : nat)
    (els : list Ptr) (k : nat) : Prop :=
  (∃ n, els !! k = Some n ∧ sameLevelNeighbor g E clevel n)
  ∧ ∀ j m, j < k → els !! j = Some m → ¬ sameLevelNeighbor g E clevel m.

Definition noSameLevelNeighbor (g : EntityImps) (E : Ptr) (clevel : nat)
    (els : list Ptr) : Prop :=
  ∀ m, m ∈ els → ¬ sameLevelNeighbor g E clevel m.

(** The state the level scan reaches from the top of edge slot [e], in the
    words of the specification: the first same-level neighbor of the slot;
    or a boundary intersection (the position past the single entry, which
    denotes no neighbor); or, for a list of several entries none of which
    qualifies, whatever the scan reaches from slot [e+1]; and the end state
    at [corners]. *)
Inductive LevelScan (g : EntityImps) (E : Ptr) (clevel : nat)
  : nat → FoamGridLevelIntersection → Prop :=
  | LevelScan_end :
      LevelScan g E clevel corners (mkLevelIntersection E corners 0)
  | LevelScan_neighbor e els k :
      e < corners →
      edgeElements g E e = Done els →
      firstSameLevelNeighbor g E clevel els k →
      LevelScan g E clevel e (mkLevelIntersection E e k)
  | LevelScan_boundary e els :
      e < corners →
      edgeElements g E e = Done els →
      noSameLevelNeighbor g E clevel els →
      length els = 1 →
      LevelScan g E clevel e (mkLevelIntersection E e 1)
  | LevelScan_skip e els st :
      e < corners →
      edgeElements g E e = Done els →
      noSameLevelNeighbor g E clevel els →
      1 < length els →
      LevelScan g E clevel (S e) st →
      LevelScan g E clevel e st.

(** The center's edge slots from [e] on are in order: each holds an edge of
    the grid, whose incidence list names the center (the edge belongs to
    it) and elements of the grid only. *)
Definition slotsResolve (g : EntityImps) (E : Ptr) (e : nat) : Prop :=
  ∀ e', e ≤ e' < corners →
    ∃ els, edgeElements g E e' = Done els ∧ E ∈ els
           ∧ ∀ n, n ∈ els → is_Some (getElement g n).

(** ** Leaf intersection iterator *)

(** [std::map<int, ElementVector>::const_iterator]: default-constructed
    (singular), at a key, or past the last key.  The keys of [leafEdges_]
    are the edge slots 0, 1, 2, so the map is the list of its vectors. *)
Inductive MapIter := MapSingular | MapAt (key : nat) | MapEnd.

#[global] Instance MapIter_eq_dec : EqDecision MapIter.
Proof. solve_decision. Defined.

(** An [ElementVector::const_iterator]: the vector [leafEdges_[key]] it
    points into, and the position in it. *)
Abbreviation VecIter := (nat * nat)%type.

Record FoamGridLeafIntersectionIterator := mkLeafIt {
  li_center_ : Ptr;                    (* [intersection_.center_] *)
  li_edgeIndex_ : nat;                 (* [intersection_.edgeIndex_] *)
  li_neighbor_ : option VecIter;       (* [None]: not set by the iterator *)
  li_neighborEnd_ : option VecIter;
  leafEdges_ : list (list Ptr);
  topLevelEdgeIter_ : MapIter;
  leafEdgeIter_ : option VecIter
}.

(** [traverseAndPushLeafEdges(edge, leafEdges)]; [depth] bounds the
    recursion into [sons_]. *)
Fixpoint traverseAndPushLeafEdges (g : EntityImps) (depth : nat) (edge : Ptr)
    (leafEdges : list Ptr) : outcome (list Ptr) :=
  match depth with
  | 0 => OutOfFuel
  | S depth' =>
      ed ← deref (getEdge g edge);
      if edge_isLeaf ed then Done (leafEdges ++ e_elements_ ed)
      else
        s0 ← deref (e_sons_ ed).1;
        leafEdges' ← traverseAndPushLeafEdges g depth' s0 leafEdges;
        s1 ← deref (e_sons_ ed).2;
        traverseAndPushLeafEdges g depth' s1 leafEdges'
  end.

(** [traverseAndPushLeafEdges(center->edges_[i], leafEdges_[i])], on the
    fresh vector [leafEdges_[i]] *)
Definition collectLeafEdges (g : EntityImps) (depth : nat)
    (c : FoamGridElement) (i : nat) : outcome (list Ptr) :=
  slot ← deref (edges_ c !! i);
  pe ← deref slot;
  traverseAndPushLeafEdges g depth pe [].

(** [*it] and [++it] on a vector iterator of [leafEdges_] *)
Definition vecDeref (leafEdges : list (list Ptr)) (it : VecIter) : option Ptr :=
  v ← leafEdges !! it.1; v !! it.2.
Definition vecBegin (key : nat) : VecIter := (key, 0).
Definition vecEnd (leafEdges : list (list Ptr)) (key : nat) : outcome VecIter :=
  v ← deref (leafEdges !! key); Done (key, length v).
Definition vecNext (leafEdges : list (list Ptr)) (it : VecIter)
  : outcome VecIter :=
  v ← deref (leafEdges !! it.1);
  if decide (it.2 < length v) then Done (it.1, S it.2) else Undefined.

(** [if (neighbor_ != neighborEnd_ && *neighbor_ == center) ++neighbor_] *)
Definition skipCenterAtFront (leafEdges : list (list Ptr)) (center : Ptr)
    (nb nbEnd : VecIter) : outcome VecIter :=
  if decide (nb ≠ nbEnd) then
    n ← deref (vecDeref leafEdges nb);
    if decide (n = center) then vecNext leafEdges nb else Done nb
  else Done nb.

(** [FoamGridLeafIntersectionIterator(center, edge)] *)
Definition FoamGridLeafIntersectionIterator_ctor (g : EntityImps) (depth : nat)
    (center : Ptr) (edge : nat) : outcome FoamGridLeafIntersectionIterator :=
  if decide (edge = corners)
  then Done (mkLeafIt center edge None None [] MapSingular None)
  else
    c ← deref (getElement g center);
    l0 ← collectLeafEdges g depth c 0;
    l1 ← collectLeafEdges g depth c 1;
    l2 ← collectLeafEdges g depth c 2;
    let leafEdges := [l0; l1; l2] in
    nbEnd ← vecEnd leafEdges edge;
    els ← edgeElements g center edge;
    if decide (length els = 1)
    then Done (mkLeafIt center edge (Some (vecBegin edge)) (Some nbEnd)
                 leafEdges MapSingular None)
    else
      nb ← skipCenterAtFront leafEdges center (vecBegin edge) nbEnd;
      Done (mkLeafIt center edge (Some nb) (Some nbEnd) leafEdges
              (MapAt edge) (Some (vecBegin edge))).

(** [FoamGridLeafIntersectionIterator(center)], the one-after-last
    iterator *)
Definition FoamGridLeafIntersectionIterator_end (center : Ptr)
  : FoamGridLeafIntersectionIterator :=
  mkLeafIt center corners None None [] MapEnd None.

(** [++topLevelEdgeIter_] *)
Definition mapNext (leafEdges : list (list Ptr)) (it : MapIter)
  : outcome MapIter :=
  match it with
  | MapAt k =>
      if decide (k < length leafEdges)
      then Done (if decide (S k < length leafEdges) then MapAt (S k) else MapEnd)
      else Undefined
  | _ => Undefined
  end.

(** [FoamGridLeafIntersectionIterator::increment] *)
Definition FoamGridLeafIntersectionIterator_increment (it : FoamGridLeafIntersectionIterator)
  : outcome FoamGridLeafIntersectionIterator :=
  match topLevelEdgeIter_ it with
  | MapSingular => Undefined
  | MapEnd => Throw InvalidStateException
  | MapAt top =>
      nb0 ← deref (li_neighbor_ it);
      nb ← vecNext (leafEdges_ it) nb0;
      topEnd ← vecEnd (leafEdges_ it) top;
      if decide (nb = topEnd) then
        le0 ← deref (leafEdgeIter_ it);
        le ← vecNext (leafEdges_ it) le0;
        let reset (top' : nat) (le' : VecIter) :=
          nbEnd' ← vecEnd (leafEdges_ it) top';
          nb' ← skipCenterAtFront (leafEdges_ it) (li_center_ it)
                  (vecBegin top') nbEnd';
          Done (mkLeafIt (li_center_ it) (li_edgeIndex_ it) (Some nb')
                  (Some nbEnd') (leafEdges_ it) (MapAt top') (Some le')) in
        if decide (le = topEnd) then
          top' ← mapNext (leafEdges_ it) (MapAt top);
          match top' with
          | MapAt k => reset k (vecBegin k)
          | _ =>
              Done (mkLeafIt (li_center_ it) (li_edgeIndex_ it) (Some nb)
                      (li_neighborEnd_ it) (leafEdges_ it) top' (Some le))
          end
        else reset top le
      else
        Done (mkLeafIt (li_center_ it) (li_edgeIndex_ it) (Some nb)
                (li_neighborEnd_ it) (leafEdges_ it) (MapAt top)
                (leafEdgeIter_ it))
  end.

(** The element [*neighbor_] the iterator refers to, when [neighbor_]
    points at one. *)
Definition leafNeighbor (it : FoamGridLeafIntersectionIterator) : option Ptr :=
  nb ← li_neighbor_ it; vecDeref (leafEdges_ it) nb.

(** ** Hierarchic iterator *)

Record FoamGridHierarchicIterator := mkHierarchicIt {
  maxlevel_ : Z;                 (* [int maxlevel_] *)
  elemStack : list Ptr;          (* top of the stack first *)
  target_ : option Ptr           (* [virtualEntity_]'s target *)
}.

(** [for (i=0; i<nSons(); i++) elemStack.push(sons_[i])] *)
Definition pushSons (sons : list Ptr) (stack : list Ptr) : list Ptr :=
  foldl (λ st s, s :: st) stack sons.

(** The sons an element contributes to the stack: none when it lies on
    [maxlevel] or deeper, or is a leaf. *)
Definition loadSons (maxlevel : Z) (el : FoamGridElement)
    (stack : list Ptr) : list Ptr :=
  if decide (Z.of_nat (level_ el) < maxlevel)%Z then
    if negb (element_isLeaf el) then pushSons (sons_ el) stack else stack
  else stack.

(** [FoamGridHierarchicIterator::increment] *)
Definition FoamGridHierarchicIterator_increment (g : EntityImps)
    (it : FoamGridHierarchicIterator) : outcome FoamGridHierarchicIterator :=
  match elemStack it with
  | [] => Done it
  | old_target :: stack =>
      el ← deref (getElement g old_target);
      let stack' := loadSons (maxlevel_ it) el stack in
      Done (mkHierarchicIt (maxlevel_ it) stack' (head stack'))
  end.



(** The iterator with the element [E] alone on its stack, as its target *)
Definition stackedAt (E : Ptr) (maxlevel : Z) : FoamGridHierarchicIterator :=
  mkHierarchicIt maxlevel [E] (Some E).

(** The traversal a caller performs: visit the target, increment, until
    the target is null.  Returns the elements visited, in order, and the
    iterator it ends with. *)
Fixpoint hierarchicTraverse (g : EntityImps) (fuel : nat)
    (it : FoamGridHierarchicIterator) : outcome (list Ptr * FoamGridHierarchicIterator) :=
  match target_ it with
  | None => Done ([], it)
  | Some t =>
      match fuel with
      | 0 => OutOfFuel
      | S fuel' =>
          it' ← FoamGridHierarchicIterator_increment g it;
          '(visited, itEnd) ← hierarchicTraverse g fuel' it';
          Done (t :: visited, itEnd)
      end
  end.

(** The refinement tree below an element, as a value: the element's pointer
    and level, and the trees of its sons. *)
Inductive ElemTree := ENode (p : Ptr) (lvl : nat) (sons : list ElemTree).

Definition rootOf (t : ElemTree) : Ptr := match t with ENode p _ _ => p end.
Definition levelOf (t : ElemTree) : nat := match t with ENode _ l _ => l end.
Definition sonsOf (t : ElemTree) : list ElemTree :=
  match t with ENode _ _ ts => ts end.

(** The tree is the one the grid holds below its root: every node is an
    element of the grid with that level and those sons. *)
Fixpoint represents (g : EntityImps) (t : ElemTree) : Prop :=
  match t with
  | ENode p lvl ts =>
      (∃ el, getElement g p = Some el ∧ level_ el = lvl
             ∧ sons_ el = map rootOf ts)
      ∧ (fix all (ts : list ElemTree) : Prop :=
           match ts with
           | [] => True
           | t' :: ts' => represents g t' ∧ all ts'
           end) ts
  end.

(** A son lies one level below its father. *)
Fixpoint levelsNested (t : ElemTree) : Prop :=
  match t with
  | ENode _ lvl ts =>
      (fix all (ts : list ElemTree) : Prop :=
         match ts with
         | [] => True
         | t' :: ts' => levelOf t' = S lvl ∧ levelsNested t' ∧ all ts'
         end) ts
  end.

(** All the nodes of a tree, the root first; and its strict descendants. *)
Fixpoint nodes (t : ElemTree) : list (Ptr * nat) :=
  match t with
  | ENode p lvl ts =>
      (p, lvl) :: (fix all (ts : list ElemTree) : list (Ptr * nat) :=
                     match ts with
                     | [] => []
                     | t' :: ts' => nodes t' ++ all ts'
                     end) ts
  end.
Definition descendants (t : ElemTree) : list (Ptr * nat) :=
  concat (map nodes (sonsOf t)).

(** The strict descendants of level at most [L], as pointers. *)
Definition descendantsUpTo (L : Z) (t : ElemTree) : list Ptr :=
  map fst (filter (λ n, (Z.of_nat n.2 ≤ L)%Z) (descendants t)).

(** Depth-first pre-order below a node, down to level [L]: a node is
    visited before its descendants, and the subtree of a son is finished
    before the next son is entered; the sons are entered last one first. *)
Fixpoint preorderBelow (L : Z) (t : ElemTree) : list Ptr :=
  match t with
  | ENode _ lvl ts =>
      if decide (Z.of_nat lvl < L)%Z then
        (fix all (ts : list ElemTree) : list Ptr :=
           match ts with
           | [] => []
           | t' :: ts' => all ts' ++ rootOf t' :: preorderBelow L t'
           end) ts
      else []
  end.

(** ** Writing through pointers *)

Definition setVertices (vs : list FoamGridVertex) (lev : LevelEntities)
  : LevelEntities := mkLevel vs (edges lev) (elements lev).
Definition setEdges (es : list FoamGridEdge) (lev : LevelEntities)
  : LevelEntities := mkLevel (vertices lev) es (elements lev).
Definition setElements (els : list FoamGridElement) (lev : LevelEntities)
  : LevelEntities := mkLevel (vertices lev) (edges lev) els.

Definition updVertex (f : FoamGridVertex → FoamGridVertex) (p : Ptr)
    (g : EntityImps) : EntityImps :=
  alter (λ lev, setVertices (alter f p.2 (vertices lev)) lev) p.1 g.
Definition updEdge (f : FoamGridEdge → FoamGridEdge) (p : Ptr)
    (g : EntityImps) : EntityImps :=
  alter (λ lev, setEdges (alter f p.2 (edges lev)) lev) p.1 g.
Definition updElement (f : FoamGridElement → FoamGridElement) (p : Ptr)
    (g : EntityImps) : EntityImps :=
  alter (λ lev, setElements (alter f p.2 (elements lev)) lev) p.1 g.

Definition vertex_setLevelIndex (i : option nat) (v : FoamGridVertex) :=
  mkVertex (v_level_ v) (v_id_ v) i (v_leafIndex_ v) (v_son_ v).
Definition vertex_setLeafIndex (i : option nat) (v : FoamGridVertex) :=
  mkVertex (v_level_ v) (v_id_ v) (v_levelIndex_ v) i (v_son_ v).
Definition edge_setLeafIndex (i : option nat) (e : FoamGridEdge) :=
  mkEdge (e_level_ e) (e_id_ e) (e_levelIndex_ e) i (e_vertex_ e)
    (e_elements_ e) (e_sons_ e) (e_nSons_ e) (e_father_ e) (e_boundaryId_ e).
Definition edge_setBoundaryId (i : option nat) (e : FoamGridEdge) :=
  mkEdge (e_level_ e) (e_id_ e) (e_levelIndex_ e) (e_leafIndex_ e)
    (e_vertex_ e) (e_elements_ e) (e_sons_ e) (e_nSons_ e) (e_father_ e) i.
Definition edge_pushElement (el : Ptr) (e : FoamGridEdge) :=
  mkEdge (e_level_ e) (e_id_ e) (e_levelIndex_ e) (e_leafIndex_ e)
    (e_vertex_ e) (e_elements_ e ++ [el]) (e_sons_ e) (e_nSons_ e)
    (e_father_ e) (e_boundaryId_ e).
Definition element_setLevelIndex (i : option nat) (e : FoamGridElement) :=
  mkElement (level_ e) (id_ e) i (leafIndex_ e) (vertex_ e) (edges_ e)
    (sons_ e) (father_ e).
Definition element_setLeafIndex (i : option nat) (e : FoamGridElement) :=
  mkElement (level_ e) (id_ e) (levelIndex_ e) i (vertex_ e) (edges_ e)
    (sons_ e) (father_ e).
Definition element_setEdge (i : nat) (pe : Ptr) (e : FoamGridElement) :=
  mkElement (level_ e) (id_ e) (levelIndex_ e) (leafIndex_ e) (vertex_ e)
    (<[i := Some pe]> (edges_ e)) (sons_ e) (father_ e).

(** ** Level index set *)

(** [GeometryType(dim)] *)
Definition GeometryType_dim (d : Z) : GeometryType := mkGeometryType none d.

Record FoamGridLevelIndexSet := mkLevelIndexSet {
  lis_level_ : nat;
  numElements_ : nat;
  numEdges_ : nat;
  numVertices_ : nat;
  lis_myTypes_ : list (list GeometryType)   (* [myTypes_[3]] *)
}.

(** The loop [for (eIt ...) eIt->levelIndex_ = numElements_++] *)
Fixpoint numberElements (els : list FoamGridElement) (num : nat)
  : list FoamGridElement * nat :=
  match els with
  | [] => ([], num)
  | e :: rest =>
      let '(rest', num') := numberElements rest (S num) in
      (element_setLevelIndex (Some num) e :: rest', num')
  end.

(** The loop [for (vIt ...) vIt->levelIndex_ = numVertices_++] *)
Fixpoint numberVertices (vs : list FoamGridVertex) (num : nat)
  : list FoamGridVertex * nat :=
  match vs with
  | [] => ([], num)
  | v :: rest =>
      let '(rest', num') := numberVertices rest (S num) in
      (vertex_setLevelIndex (Some num) v :: rest', num')
  end.

(** [FoamGridLevelIndexSet::update(grid, level)] *)
Definition FoamGridLevelIndexSet_update (self : FoamGridLevelIndexSet)
    (grid : EntityImps) (level : nat)
  : outcome (EntityImps * FoamGridLevelIndexSet) :=
  lev ← deref (grid !! level);
  let '(els, numElements) := numberElements (elements lev) 0 in
  let '(vs, numVertices) := numberVertices (vertices lev) 0 in
  let types0 := if decide (0 < numElements) then [GeometryType_dim 1] else [] in
  let types1 := if decide (0 < numVertices) then [GeometryType_dim 0] else [] in
  Done (<[level := mkLevel vs (edges lev) els]> grid,
        mkLevelIndexSet level numElements (numEdges_ self) numVertices
          (<[1 := types1]> (<[0 := types0]> (lis_myTypes_ self)))).

(** ** Leaf index set *)

(** Modelled from the spec: the leaf iterator of codimension 0 (not among
    the sources) visits the leaf elements in traversal order: level by
    level, each level's list from its front. *)
Fixpoint leafNumberElements (els : list FoamGridElement) (num : nat)
  : list FoamGridElement * nat :=
  match els with
  | [] => ([], num)
  | e :: rest =>
      if element_isLeaf e then
        let '(rest', num') := leafNumberElements rest (S num) in
        (element_setLeafIndex (Some num) e :: rest', num')
      else
        let '(rest', num') := leafNumberElements rest num in
        (e :: rest', num')
  end.
Fixpoint leafNumberElementLevels (levs : EntityImps) (num : nat)
  : EntityImps * nat :=
  match levs with
  | [] => ([], num)
  | lev :: rest =>
      let '(els, num1) := leafNumberElements (elements lev) num in
      let '(rest', num2) := leafNumberElementLevels rest num1 in
      (setElements els lev :: rest', num2)
  end.

(** The edges of one level: [assert(target->isLeaf());
    target->leafIndex_ = size_[1]++] *)
Fixpoint leafNumberEdges (ndebug : bool) (es : list FoamGridEdge) (num : nat)
  : outcome (list FoamGridEdge * nat) :=
  match es with
  | [] => Done ([], num)
  | e :: rest =>
      _ ← assert ndebug (edge_isLeaf e);
      '(rest', num') ← leafNumberEdges ndebug rest (S num);
      Done (edge_setLeafIndex (Some num) e :: rest', num')
  end.

(** [for (int i=grid_->maxLevel(); i>=0; i--)] over the edges; [count] is
    [i+1].  Modelled from the spec: [maxLevel()] (not among the sources) is
    the deepest level present, [entityImps_.size()-1]. *)
Fixpoint leafNumberEdgeLevels (ndebug : bool) (count : nat) (g : EntityImps)
    (num : nat) : outcome (EntityImps * nat) :=
  match count with
  | 0 => Done (g, num)
  | S i =>
      lev ← deref (g !! i);
      '(es, num') ← leafNumberEdges ndebug (edges lev) num;
      leafNumberEdgeLevels ndebug i (<[i := setEdges es lev]> g) num'
  end.

(** The vertices of level [i] from position [j] on, [todo] of them: a leaf
    takes the next index, another vertex the index of its [son_]. *)
Fixpoint leafNumberVertices (g : EntityImps) (i todo j num : nat)
  : outcome (EntityImps * nat) :=
  match todo with
  | 0 => Done (g, num)
  | S todo' =>
      target ← deref (getVertex g (i, j));
      if vertex_isLeaf target then
        leafNumberVertices
          (updVertex (vertex_setLeafIndex (Some num)) (i, j) g)
          i todo' (S j) (S num)
      else
        ps ← deref (v_son_ target);
        son ← deref (getVertex g ps);
        leafNumberVertices
          (updVertex (vertex_setLeafIndex (v_leafIndex_ son)) (i, j) g)
          i todo' (S j) num
  end.

(** [for (int i=grid_->maxLevel(); i>=0; i--)] over the vertices *)
Fixpoint leafNumberVertexLevels (count : nat) (g : EntityImps) (num : nat)
  : outcome (EntityImps * nat) :=
  match count with
  | 0 => Done (g, num)
  | S i =>
      lev ← deref (g !! i);
      '(g', num') ← leafNumberVertices g i (length (vertices lev)) 0 num;
      leafNumberVertexLevels i g' num'
  end.

(** [GeometryType(GeometryType::simplex, dim-i)] when entities of
    codimension [i] exist *)
Definition leafTypes (count : nat) (d : Z) : list GeometryType :=
  if decide (0 < count) then [mkGeometryType simplex d] else [].

(** [FoamGridLeafIndexSet::update(grid)] *)
Definition FoamGridLeafIndexSet_update (ndebug : bool) (self : FoamGridLeafIndexSet)
    (grid : EntityImps) : outcome (EntityImps * FoamGridLeafIndexSet) :=
  let '(g1, numElements) := leafNumberElementLevels grid 0 in
  '(g2, numEdges) ← leafNumberEdgeLevels ndebug (length g1) g1 0;
  '(g3, numVertices) ← leafNumberVertexLevels (length g2) g2 0;
  Done (g3,
        mkLeafIndexSet
          [Z.of_nat numVertices; Z.of_nat numEdges; Z.of_nat numElements]
          [leafTypes numElements 2; leafTypes numEdges 1;
           leafTypes numVertices 0]).

(** ** The grid and its factory *)

Record FoamGrid := mkFoamGrid {
  entityImps_ : EntityImps;
  freeIdCounter_ : list nat;        (* one id counter per entity dimension *)
  levelIndexSets_ : list FoamGridLevelIndexSet;
  leafIndexSet_ : FoamGridLeafIndexSet
}.

Definition emptyLevel : LevelEntities := mkLevel [] [] [].

(** Modelled from the spec: [FoamGrid]'s constructor (the grid class is not
    among the sources): a grid without entities, its id counters at 0. *)
Definition FoamGrid_new : FoamGrid :=
  mkFoamGrid [] [0; 0; 0] [] (mkLeafIndexSet [0; 0; 0]%Z [[]; []; []]).

(** Modelled from the spec: a level index set as [FoamGrid::setIndices]
    creates it before its first update. *)
Definition LevelIndexSet_new : FoamGridLevelIndexSet :=
  mkLevelIndexSet 0 0 0 0 [[]; []; []].

(** The level index sets of the levels [i], [i+1], ... updated in turn;
    [sets] are the sets of these levels, a missing one is created. *)
Fixpoint updateLevelIndexSets (imps : EntityImps)
    (sets : list FoamGridLevelIndexSet) (i count : nat)
  : outcome (EntityImps * list FoamGridLevelIndexSet) :=
  match count with
  | 0 => Done (imps, [])
  | S count' =>
      '(imps1, set1) ←
        FoamGridLevelIndexSet_update (default LevelIndexSet_new (head sets)) imps i;
      '(imps2, sets2) ← updateLevelIndexSets imps1 (tail sets) (S i) count';
      Done (imps2, set1 :: sets2)
  end.

(** Modelled from the spec: [FoamGrid::setIndices] (not among the sources)
    runs the index passes: the level index set of every level, then the
    leaf index set. *)
Definition setIndices (ndebug : bool) (grid : FoamGrid) : outcome FoamGrid :=
  '(imps1, sets) ←
    updateLevelIndexSets (entityImps_ grid) (levelIndexSets_ grid) 0
      (length (entityImps_ grid));
  '(imps2, leafSet) ← FoamGridLeafIndexSet_update ndebug (leafIndexSet_ grid) imps1;
  Done (mkFoamGrid imps2 (freeIdCounter_ grid) sets leafSet).

Record GridFactory := mkGridFactory {
  grid_ : option FoamGrid;          (* [None]: [NULL] *)
  factoryOwnsGrid_ : bool;
  vertexIndex_ : nat;
  vertexArray_ : list Ptr
}.

(** [entityImps_.resize(1)] *)
Definition resize1 (imps : EntityImps) : EntityImps :=
  match imps with [] => [emptyLevel] | lev :: _ => [lev] end.

(** [GridFactory()] *)
Definition GridFactory_new : GridFactory :=
  mkGridFactory
    (Some (mkFoamGrid (resize1 (entityImps_ FoamGrid_new))
             (freeIdCounter_ FoamGrid_new) (levelIndexSets_ FoamGrid_new)
             (leafIndexSet_ FoamGrid_new)))
    true 0 [].

(** The value of the natural [n] as an [unsigned int]: [n] modulo 2^32 *)
Definition wrapUnsigned (n : nat) : nat := Z.to_nat (Z.of_nat n mod 2 ^ 32).
Arguments wrapUnsigned : simpl never.

(** [freeIdCounter_[i]++] on the [unsigned int] counters: the value drawn,
    and the counters after *)
Definition drawId (counters : list nat) (i : nat) : nat * list nat :=
  (counters !!! i, <[i := wrapUnsigned (S (counters !!! i))]> counters).

(** [insertVertex(pos)] *)
Definition insertVertex (f : GridFactory) : outcome GridFactory :=
  grid ← deref (grid_ f);
  lev0 ← deref (entityImps_ grid !! 0);
  let '(id, counters) := drawId (freeIdCounter_ grid) 0 in
  let lev0' := setVertices (vertices lev0 ++ [mkVertex 0 id None None None])
                 lev0 in
  Done (mkGridFactory
          (Some (mkFoamGrid (<[0 := lev0']> (entityImps_ grid)) counters
                   (levelIndexSets_ grid) (leafIndexSet_ grid)))
          (factoryOwnsGrid_ f) (vertexIndex_ f)
          (vertexArray_ f ++ [(0, length (vertices lev0))])).

(** [GeometryType::isTriangle] *)
Definition isTriangle (type : GeometryType) : bool :=
  match basicType type with
  | simplex => bool_decide (gt_dim type = 2%Z)
  | _ => false
  end.

(** [insertElement(type, vertices)] *)
Definition insertElement (ndebug : bool) (f : GridFactory)
    (type : GeometryType) (vertices : list nat) : outcome GridFactory :=
  _ ← assert ndebug (isTriangle type);
  grid ← deref (grid_ f);
  let '(id, counters) := drawId (freeIdCounter_ grid) 2 in
  i0 ← deref (vertices !! 0); v0 ← deref (vertexArray_ f !! i0);
  i1 ← deref (vertices !! 1); v1 ← deref (vertexArray_ f !! i1);
  i2 ← deref (vertices !! 2); v2 ← deref (vertexArray_ f !! i2);
  let newElement :=
    mkElement 0 id None None [v0; v1; v2] [None; None; None] [] None in
  lev0 ← deref (entityImps_ grid !! 0);
  let lev0' := setElements (elements lev0 ++ [newElement]) lev0 in
  Done (mkGridFactory
          (Some (mkFoamGrid (<[0 := lev0']> (entityImps_ grid)) counters
                   (levelIndexSets_ grid) (leafIndexSet_ grid)))
          (factoryOwnsGrid_ f) (vertexIndex_ f) (vertexArray_ f)).

(** [refElement.subEntity(i, 1, k, 2)] for the triangle: corner [k] of edge
    [i], in the numbering of the generic reference elements (edge 0 joins
    the corners 0 and 1, edge 1 the corners 0 and 2, edge 2 the corners 1
    and 2). *)
Definition subEntity_edge (i k : nat) : nat :=
  match i, k with
  | 0, 0 => 0 | 0, _ => 1
  | 1, 0 => 0 | 1, _ => 2
  | _, 0 => 1 | _, _ => 2
  end.

(** The state of the edge loop of [createGrid]: the entities, the id
    counters, and [edgeMap]. *)
Record EdgeBuild := mkEdgeBuild {
  eb_imps : EntityImps;
  eb_counters : list nat;
  edgeMap : gmap (Ptr * Ptr) Ptr
}.

(** The body of the loop over the edges [i] of the element at position
    [ei] *)
Definition createEdge (ei i : nat) (st : EdgeBuild) : outcome EdgeBuild :=
  let element : Ptr := (0, ei) in
  el ← deref (getElement (eb_imps st) element);
  v0 ← deref (vertex_ el !! subEntity_edge i 0);
  v1 ← deref (vertex_ el !! subEntity_edge i 1);
  let found :=
    match edgeMap st !! (v0, v1) with
    | Some e => Some e
    | None => edgeMap st !! (v1, v0)
    end in
  '(existingEdge, st1) ←
    match found with
    | Some e => Done (e, st)
    | None =>
        lev0 ← deref (eb_imps st !! 0);
        let '(id, counters) := drawId (eb_counters st) 1 in
        let newEdge :=
          mkEdge 0 id None None (v0, v1) [] (None, None) 0 None None in
        let p : Ptr := (0, length (edges lev0)) in
        Done (p, mkEdgeBuild
                   (<[0 := setEdges (edges lev0 ++ [newEdge]) lev0]>
                      (eb_imps st))
                   counters (<[(v0, v1) := p]> (edgeMap st)))
    end;
  (* make element know about the edge *)
  let imps1 := updElement (element_setEdge i existingEdge) element
                 (eb_imps st1) in
  (* make edge know about the element *)
  _ ← deref (getEdge imps1 existingEdge);
  Done (mkEdgeBuild (updEdge (edge_pushElement element) existingEdge imps1)
          (eb_counters st1) (edgeMap st1)).

(** [for] loops over a range of positions *)
Fixpoint forRange {St : Type} (body : nat → St → outcome St)
    (first count : nat) (s : St) : outcome St :=
  match count with
  | 0 => Done s
  | S count' => s' ← body first s; forRange body (S first) count' s'
  end.

(** The loop over the elements of level 0, each with its three edges *)
Definition createEdges (st : EdgeBuild) : outcome EdgeBuild :=
  lev0 ← deref (eb_imps st !! 0);
  forRange (λ ei, forRange (createEdge ei) 0 3) 0 (length (elements lev0)) st.

(** The loop [it->boundaryId_ = boundaryIdCounter++], with
    [unsigned int boundaryIdCounter] *)
Fixpoint setBoundaryIds (es : list FoamGridEdge) (boundaryIdCounter : nat)
  : list FoamGridEdge :=
  match es with
  | [] => []
  | e :: rest =>
      edge_setBoundaryId (Some boundaryIdCounter) e
        :: setBoundaryIds rest (wrapUnsigned (S boundaryIdCounter))
  end.

(** [createGrid()]: the grid handed over, and the factory after the call *)
Definition createGrid (ndebug : bool) (f : GridFactory)
  : outcome (option FoamGrid * GridFactory) :=
  match grid_ f with
  | None => Done (None, f)
  | Some grid =>
      st ← createEdges
             (mkEdgeBuild (entityImps_ grid) (freeIdCounter_ grid) ∅);
      grid1 ← setIndices ndebug
                (mkFoamGrid (eb_imps st) (eb_counters st)
                   (levelIndexSets_ grid) (leafIndexSet_ grid));
      lev0 ← deref (entityImps_ grid1 !! 0);
      let imps := <[0 := setEdges (setBoundaryIds (edges lev0) 0) lev0]>
                    (entityImps_ grid1) in
      Done (Some (mkFoamGrid imps (freeIdCounter_ grid1)
                    (levelIndexSets_ grid1) (leafIndexSet_ grid1)),
            mkGridFactory None (factoryOwnsGrid_ f) (vertexIndex_ f)
              (vertexArray_ f))
  end.

(** The calls a client makes on a factory before [createGrid] *)
Inductive FactoryCall :=
  | InsertVertex
  | InsertElement (type : GeometryType) (vertices : list nat).

Definition runCall (ndebug : bool) (c : FactoryCall) (f : GridFactory)
  : outcome GridFactory :=
  match c with
  | InsertVertex => insertVertex f
  | InsertElement type vertices => insertElement ndebug f type vertices
  end.

Fixpoint runCalls (ndebug : bool) (cs : list FactoryCall) (f : GridFactory)
  : outcome GridFactory :=
  match cs with
  | [] => Done f
  | c :: rest => f' ← runCall ndebug c f; runCalls ndebug rest f'
  end.

(** ** A coarse mesh: the unit square, cut along a diagonal *)

Definition triangle : GeometryType := mkGeometryType simplex 2.

(** Four vertices, and the triangles (0,1,2) and (1,3,2), which share the
    edge between the vertices 1 and 2. *)
Definition squareCalls : list FactoryCall :=
  [InsertVertex; InsertVertex; InsertVertex; InsertVertex;
   InsertElement triangle [0; 1; 2]; InsertElement triangle [1; 3; 2]].

(** Three vertices, and two triangles that share the vertices 0 and 1, the
    first of which names the vertex 0 twice. *)
Definition degenerateCalls : list FactoryCall :=
  [InsertVertex; InsertVertex; InsertVertex;
   InsertElement triangle [0; 0; 1]; InsertElement triangle [1; 0; 2]].

Definition squareFactory : GridFactory :=
  Eval vm_compute in
    match runCalls false squareCalls GridFactory_new with
    | Done f => f
    | _ => GridFactory_new
    end.

Definition squareGrid : FoamGrid :=
  Eval vm_compute in
    match createGrid false squareFactory with
    | Done (Some grid, _) => grid
    | _ => FoamGrid_new
    end.

Definition square : EntityImps := Eval vm_compute in entityImps_ squareGrid.

(** The two triangles of the square, and the slot of the shared edge in
    each. *)
Definition T0 : Ptr := (0, 0).
Definition T1 : Ptr := (0, 1).
Definition sharedSlot0 : nat := 2.
Definition sharedSlot1 : nat := 1.

(** ** What a client reads off the leaf intersection iterator *)

(** The neighbors read while the iterator stays on the top-level edge [e]:
    dereference, increment, until [topLevelEdgeIter_] leaves [e]. *)
Fixpoint leafEnumerate (fuel e : nat) (it : FoamGridLeafIntersectionIterator)
  : outcome (list (option Ptr)) :=
  match fuel with
  | 0 => OutOfFuel
  | S fuel' =>
      if decide (topLevelEdgeIter_ it = MapAt e) then
        it' ← FoamGridLeafIntersectionIterator_increment it;
        rest ← leafEnumerate fuel' e it';
        Done (leafNeighbor it :: rest)
      else Done []
  end.

(** The leaf descendant edges of an edge, in the words of the
    specification: an edge without children contributes itself, an edge
    with children the leaf descendants of its first son, then those of its
    second. *)
Inductive leafDescendantEdges (g : EntityImps) : Ptr → list Ptr → Prop :=
  | leafDescendantEdges_leaf p ed :
      getEdge g p = Some ed → edge_isLeaf ed = true →
      leafDescendantEdges g p [p]
  | leafDescendantEdges_sons p ed s0 s1 l0 l1 :
      getEdge g p = Some ed → e_sons_ ed = (Some s0, Some s1) →
      leafDescendantEdges g s0 l0 → leafDescendantEdges g s1 l1 →
      leafDescendantEdges g p (l0 ++ l1).

(** The incidence list of an edge *)
Definition incidentElements (g : EntityImps) (p : Ptr) : list Ptr :=
  match getEdge g p with Some ed => e_elements_ ed | None => [] end.

(** The leaf neighbors of [E] across the edge [p], in the words of the
    specification: the incidence lists of the leaf descendant edges [leaves]
    of [p], one after the other, without [E]. *)
Definition leafNeighborsSpec (g : EntityImps) (E : Ptr) (leaves : list Ptr)
  : list Ptr :=
  filter (λ n, n ≠ E) (concat (map (incidentElements g) leaves)).

(** ** Coarse meshes, as the factory's client describes them *)

(** The corner indices of the triangles inserted, in order *)
Fixpoint trianglesOf (cs : list FactoryCall) : list (list nat) :=
  match cs with
  | [] => []
  | InsertVertex :: rest => trianglesOf rest
  | InsertElement _ vertices :: rest => take 3 vertices :: trianglesOf rest
  end.

Fixpoint countVertices (cs : list FactoryCall) : nat :=
  match cs with
  | [] => 0
  | InsertVertex :: rest => S (countVertices rest)
  | InsertElement _ _ :: rest => countVertices rest
  end.

(** Every element inserted is a triangle whose three corners are vertices
    inserted before it; [nv] vertices exist at the start. *)
Fixpoint callsWellFormed (nv : nat) (cs : list FactoryCall) : Prop :=
  match cs with
  | [] => True
  | InsertVertex :: rest => callsWellFormed (S nv) rest
  | InsertElement type vertices :: rest =>
      isTriangle type = true
      ∧ (∃ a b c, take 3 vertices = [a; b; c] ∧ a < nv ∧ b < nv ∧ c < nv)
      ∧ callsWellFormed nv rest
  end.

(** The number of triangles that contain both vertices [a] and [b] *)
Definition trianglesSharing (tris : list (list nat)) (a b : nat) : nat :=
  length (filter (λ t, a ∈ t ∧ b ∈ t) tris).

(** The entities the factory holds after these calls *)
Definition coarseVertex (i : nat) : FoamGridVertex :=
  mkVertex 0 (wrapUnsigned i) None None None.
Definition coarseElement (k : nat) (t : list nat) : FoamGridElement :=
  mkElement 0 (wrapUnsigned k) None None (map (λ i, (0, i)) t)
    [None; None; None] [] None.
Definition coarseFactory (nv : nat) (tris : list (list nat)) : GridFactory :=
  mkGridFactory
    (Some (mkFoamGrid
             [mkLevel (map coarseVertex (seq 0 nv)) [] (imap coarseElement tris)]
             [wrapUnsigned nv; 0; wrapUnsigned (length tris)] []
             (mkLeafIndexSet [0; 0; 0]%Z [[]; []; []])))
    true 0 (map (λ i, (0, i)) (seq 0 nv)).

(** Two pairs of vertices name the same unordered pair. *)
Definition samePair (x y : Ptr * Ptr) : Prop := x = y ∨ x = (y.2, y.1).

#[global] Instance samePair_dec x y : Decision (samePair x y).
Proof. unfold samePair. apply _. Defined.

(** How often the unordered pair [key] occurs among [occ] *)
Definition countPair (occ : list (Ptr * Ptr)) (key : Ptr * Ptr) : nat :=
  length (filter (λ o, samePair o key) occ).

(** The vertex pairs of the three edges of an element with the corners
    [xs] *)
Definition edgePairs (xs : list Ptr) : list (Ptr * Ptr) :=
  omap (λ i, v0 ← xs !! subEntity_edge i 0;
             v1 ← xs !! subEntity_edge i 1; Some (v0, v1)) [0; 1; 2].


(** The invariant of the edge loop.  [lev0] is level 0 as the loop found
    it, [occ] the vertex pairs of the element edges handled so far. *)
Definition EdgeInv (lev0 : LevelEntities) (occ : list (Ptr * Ptr))
    (st : EdgeBuild) : Prop :=
  ∃ lev, eb_imps st = [lev]
    ∧ vertices lev = vertices lev0
    ∧ map vertex_ (elements lev) = map vertex_ (elements lev0)
    ∧ (∀ key p, edgeMap st !! key = Some p →
         ∃ k ed, p = (0, k) ∧ edges lev !! k = Some ed ∧ e_vertex_ ed = key)
    ∧ (∀ k ed, edges lev !! k = Some ed →
         edgeMap st !! e_vertex_ ed = Some (0, k))
    ∧ (∀ k k' ed ed', k ≠ k' →
         edges lev !! k = Some ed → edges lev !! k' = Some ed' →
         ¬ samePair (e_vertex_ ed) (e_vertex_ ed'))
    ∧ (∀ k ed, edges lev !! k = Some ed →
         1 ≤ length (e_elements_ ed)
         ∧ length (e_elements_ ed) = countPair occ (e_vertex_ ed)
         ∧ edge_isLeaf ed = true)
    ∧ (∀ o, o ∈ occ →
         ∃ k ed, edges lev !! k = Some ed ∧ samePair o (e_vertex_ ed)).

(** All the vertex pairs of the element edges of a level, element by
    element *)
Definition allEdgePairs (els : list FoamGridElement) : list (Ptr * Ptr) :=
  concat (map (λ el, edgePairs (vertex_ el)) els).

(** Every element has its three corners. *)
Definition threeCorners (els : list FoamGridElement) : Prop :=
  ∀ el, el ∈ els → ∃ x0 x1 x2, vertex_ el = [x0; x1; x2].


(** ** Well-formed vertex hierarchies *)

(** The successor [son_] of a vertex lies on a deeper level. *)
Definition vertexSonsDeeper (g : EntityImps) : Prop :=
  ∀ p v q, getVertex g p = Some v → v_son_ v = Some q → p.1 < q.1.

(** The grid without the leaf indices of its vertices *)
Definition eraseVertexLeafIndex (g : EntityImps) : EntityImps :=
  map (λ lev, setVertices (map (vertex_setLeafIndex None) (vertices lev)) lev) g.

(** Two grids that differ in leaf indices of vertices only, and not in
    those of the levels deeper than [i] nor, on level [i], in those of the
    positions before [j]. *)
Definition agreeFrom (i j : nat) (g1 g2 : EntityImps) : Prop :=
  eraseVertexLeafIndex g1 = eraseVertexLeafIndex g2
  ∧ ∀ l k, i < l ∨ (l = i ∧ k < j) → getVertex g1 (l, k) = getVertex g2 (l, k).

(** Two grids that differ in leaf indices of vertices only, and not in
    those of the levels from [count] on. *)
Definition agreeLevels (count : nat) (g1 g2 : EntityImps) : Prop :=
  eraseVertexLeafIndex g1 = eraseVertexLeafIndex g2
  ∧ ∀ l k, count ≤ l → getVertex g1 (l, k) = getVertex g2 (l, k).

(** Two outcomes of the vertex pass that are both failures, or both
    returns related by [R]. *)
Definition bothDone {A} (R : A → A → Prop) (o1 o2 : outcome A) : Prop :=
  match o1, o2 with
  | Done a1, Done a2 => R a1 a2
  | Done _, _ | _, Done _ => False
  | _, _ => True
  end.

(** The unit square with one vertex carried to a second level: vertex 0 has
    its successor on level 1, which holds nothing else. *)
Definition squareWithRefinedVertex : EntityImps :=
  Eval vm_compute in
    updVertex (λ v, mkVertex (v_level_ v) (v_id_ v) (v_levelIndex_ v)
                      (v_leafIndex_ v) (Some (1, 0))) (0, 0) square
    ++ [mkLevel [mkVertex 1 4 None None None] [] []].

(** ** The order in which the leaf pass visits the edges *)

(** Level [count-1] first, then the levels below it down to level 0; each
    level's list from its front. *)
Fixpoint edgeVisitOrder (count : nat) (g : EntityImps) : list Ptr :=
  match count with
  | 0 => []
  | S i =>
      match g !! i with
      | Some lev => map (λ j, (i, j)) (seq 0 (length (edges lev)))
      | None => []
      end ++ edgeVisitOrder i g
  end.

(** Every edge of the levels below [count] is a leaf. *)
Definition edgesAreLeaves (count : nat) (g : EntityImps) : Prop :=
  ∀ l lev, l < count → g !! l = Some lev →
    Forall (λ e, edge_isLeaf e = true) (edges lev).


(** The sons of the vertices, level by level *)
Definition vertexSons (g : EntityImps) : list (list (option Ptr)) :=
  map (λ lev, map v_son_ (vertices lev)) g.


(** The number of nodes of a tree *)
Fixpoint treeSize (t : ElemTree) : nat :=
  match t with
  | ENode _ _ ts =>
      S ((fix all (ts : list ElemTree) : nat :=
            match ts with
            | [] => 0
            | t' :: ts' => treeSize t' + all ts'
            end) ts)
  end.

(** What the iterator visits from a stack of subtrees, the top first: each
    root, followed by what lies below it. *)
Definition visitStack (L : Z) (stack : list ElemTree) : list Ptr :=
  concat (map (λ t, rootOf t :: preorderBelow L t) stack).

(** A refined element: the triangle of level 0 has four sons on level 1,
    the last of which has four sons on level 2. *)
Definition refinedElementGrid : EntityImps :=
  [mkLevel [] [] [mkElement 0 0 None None [] [] [(1, 0); (1, 1); (1, 2); (1, 3)]
                    None];
   mkLevel [] []
     [mkElement 1 1 None None [] [] [] (Some (0, 0));
      mkElement 1 2 None None [] [] [] (Some (0, 0));
      mkElement 1 3 None None [] [] [] (Some (0, 0));
      mkElement 1 4 None None [] [] [(2, 0); (2, 1); (2, 2); (2, 3)]
        (Some (0, 0))];
   mkLevel [] []
     [mkElement 2 5 None None [] [] [] (Some (1, 3));
      mkElement 2 6 None None [] [] [] (Some (1, 3));
      mkElement 2 7 None None [] [] [] (Some (1, 3));
      mkElement 2 8 None None [] [] [] (Some (1, 3))]].

Definition refinedElementTree : ElemTree :=
  ENode (0, 0) 0
    [ENode (1, 0) 1 []; ENode (1, 1) 1 []; ENode (1, 2) 1 [];
     ENode (1, 3) 1
       [ENode (2, 0) 2 []; ENode (2, 1) 2 []; ENode (2, 2) 2 [];
        ENode (2, 3) 2 []]].

(** ** A client's loop over the level intersections *)

(** [FoamGridLevelIntersectionIterator::equals] *)
Definition FoamGridLevelIntersectionIterator_equals
    (a b : FoamGridLevelIntersection) : bool :=
  bool_decide (center_ a = center_ b)
  && bool_decide (edgeIndex_ a = edgeIndex_ b)
  && bool_decide (neighborIndex_ a = neighborIndex_ b).

(** [for (; it != endIt; ++it)]: the iterators the body of the loop sees,
    in order.  [fuel] bounds the number of passes. *)
Fixpoint levelIntersections (g : EntityImps) (fuel : nat)
    (endIt it : FoamGridLevelIntersection)
  : outcome (list FoamGridLevelIntersection) :=
  if FoamGridLevelIntersectionIterator_equals it endIt then Done []
  else
    match fuel with
    | 0 => OutOfFuel
    | S fuel' =>
        it' ← FoamGridLevelIntersectionIterator_increment g it;
        rest ← levelIntersections g fuel' endIt it';
        Done (it :: rest)
    end.

(** The edge slot holds an edge with a single incident element. *)
Definition boundarySlot (g : EntityImps) (E : Ptr) (e : nat) : bool :=
  match edgeElements g E e with
  | Done els => bool_decide (length els = 1)
  | _ => false
  end.

(** The mesh of [make2DHybridTestGrid] in [foamgrid-test.cc]: sixteen
    vertices and the two triangles (9, 10, 11) and (15, 13, 14), which have
    no vertex in common. *)
Definition testCalls : list FactoryCall :=
  replicate 16 InsertVertex
  ++ [InsertElement triangle [9; 10; 11]; InsertElement triangle [15; 13; 14]].

Definition testGrid : EntityImps :=
  Eval vm_compute in
    match (f ← runCalls false testCalls GridFactory_new;
           createGrid false f) with
    | Done (Some grid, _) => entityImps_ grid
    | _ => []
    end.

(** ** The leaf intersection iterator on one top-level edge *)

(** Where
    [if (neighbor_ != neighborEnd_ && *neighbor_ == center) ++neighbor_]
    leaves [neighbor_], started at the begin of the vector [L]: past the
    first entry when that is the center. *)
Definition frontSkip (center : Ptr) (L : list Ptr) : nat :=
  if decide (head L = Some center) then 1 else 0.

(** The iterator on top-level edge [e], whose vector has [len] entries, in
    round [r] (the position of [leafEdgeIter_]), with [neighbor_] at
    position [j] *)
Definition roundState (center : Ptr) (edgeIndex e : nat)
    (leafEdges : list (list Ptr)) (len r j : nat)
  : FoamGridLeafIntersectionIterator :=
  mkLeafIt center edgeIndex (Some (e, j)) (Some (e, len)) leafEdges
    (MapAt e) (Some (e, r)).

(** ** Reading the index sets *)

(** [a[i]] on an array or vector with an [int] index: no bounds are
    checked. *)
Definition at_ {A} (a : list A) (i : Z) : outcome A :=
  if decide (0 ≤ i)%Z then deref (a !! Z.to_nat i) else Undefined.


(** [FoamGridLeafIndexSet::geomTypes(codim)] *)
Definition FoamGridLeafIndexSet_geomTypes (s : FoamGridLeafIndexSet)
    (codim : Z) : outcome (list GeometryType) :=
  at_ (leaf_myTypes_ s) codim.

(** ** The leaf indices of the vertices *)

Definition isLeafVertex (g : EntityImps) (p : Ptr) : bool :=
  match getVertex g p with
  | Some v => vertex_isLeaf v
  | None => false
  end.

(** The positions [j], ..., [j + todo - 1] of level [i] *)
Definition levelPositions (i j todo : nat) : list Ptr :=
  map (λ k, (i, k)) (seq j todo).

(** The order in which the leaf pass visits the vertices: level [count-1]
    first, then the levels below it down to level 0; each level's list from
    its front. *)
Fixpoint vertexVisitOrder (count : nat) (g : EntityImps) : list Ptr :=
  match count with
  | 0 => []
  | S i =>
      match g !! i with
      | Some lev => levelPositions i 0 (length (vertices lev))
      | None => []
      end ++ vertexVisitOrder i g
  end.


(** The successor [son_] of a vertex is a vertex of the grid. *)
Definition vertexSonsResolve (g : EntityImps) : Prop :=
  ∀ p v q, getVertex g p = Some v → v_son_ v = Some q →
    is_Some (getVertex g q).

(** ** The links between elements and edges that [createGrid] sets *)

(** The slot [b] of the element at position [a] has been handled when the
    edge loop is about to handle slot [i] of the element at position
    [ei]. *)
Definition handled (ei i a b : nat) : Prop :=
  b < 3 ∧ (a < ei ∨ (a = ei ∧ b < i)).

(** An edge as the edge loop creates it, at position [k] of the list *)
Definition freshEdge (k : nat) (ed : FoamGridEdge) : Prop :=
  e_level_ ed = 0 ∧ e_id_ ed = wrapUnsigned k ∧ e_levelIndex_ ed = None
  ∧ e_leafIndex_ ed = None ∧ e_sons_ ed = (None, None) ∧ e_nSons_ ed = 0
  ∧ e_father_ ed = None ∧ e_boundaryId_ ed = None.

(** The slot [b] of the element [el] at position [a] holds an edge of
    [es] that joins the two corners of the slot and lists the element. *)
Definition slotLinked (es : list FoamGridEdge) (a : nat)
    (el : FoamGridElement) (b : nat) : Prop :=
  ∃ pe ed v0 v1,
    edges_ el !! b = Some (Some (0, pe)) ∧ es !! pe = Some ed
    ∧ (0, a) ∈ e_elements_ ed
    ∧ vertex_ el !! subEntity_edge b 0 = Some v0
    ∧ vertex_ el !! subEntity_edge b 1 = Some v1
    ∧ samePair (v0, v1) (e_vertex_ ed).

(** The second invariant of the edge loop, on the links.  [lev0] is level
    0 as the loop found it, [counters0] the id counters then. *)
Definition LinkInv (lev0 : LevelEntities) (counters0 : list nat)
    (ei i : nat) (st : EdgeBuild) : Prop :=
  ∃ lev, eb_imps st = [lev]
    (* the elements keep all but their edge slots, of which there are 3 *)
    ∧ (∀ a, (λ e, (level_ e, id_ e, levelIndex_ e, leafIndex_ e, vertex_ e,
                   sons_ e, father_ e, length (edges_ e)))
              <$> elements lev !! a
            = (λ e, (level_ e, id_ e, levelIndex_ e, leafIndex_ e, vertex_ e,
                     sons_ e, father_ e, 3)) <$> elements lev0 !! a)
    (* a handled slot is linked *)
    ∧ (∀ a b, handled ei i a b →
         ∃ el, elements lev !! a = Some el ∧ slotLinked (edges lev) a el b)
    (* an entry of an incidence list stems from a handled slot *)
    ∧ (∀ pe ed x, edges lev !! pe = Some ed → x ∈ e_elements_ ed →
         ∃ a b el, x = (0, a) ∧ handled ei i a b
                   ∧ elements lev !! a = Some el
                   ∧ edges_ el !! b = Some (Some (0, pe)))
    (* the edges are as created, their ids their positions as
       [unsigned int]s *)
    ∧ (∀ k ed, edges lev !! k = Some ed → freshEdge k ed)
    ∧ eb_counters st = <[1 := wrapUnsigned (length (edges lev))]> counters0
    (* at most one edge was created per slot handled *)
    ∧ length (edges lev) ≤ 3 * ei + i.

(** ** Indices and ids of sub-entities *)

(** An [int] argument passed for an [unsigned int] parameter *)
Definition toUnsigned (z : Z) : Z := (z mod 2 ^ 32)%Z.

(** [subLevelIndex(i, codim)], [subLeafIndex(i, codim)] and
    [subId(i, codim)] of [FoamGridEntity<0,dim,GridImp>] are the same
    [switch] over three fields of the entities:

    [assert(0<=codim && codim<=dim);
     switch (codim) {
       case 0: return target_->F;
       case 1: return target_->edges_[i]->F;
       case 2: return target_->vertex_[i]->F; }
     DUNE_THROW(GridError, ...)]

    [codim] is the [unsigned int] parameter, [i] the [int] one; a field
    that was never written has no value to return. *)
Definition Entity0_subField {A} (ofElement : FoamGridElement → option A)
    (ofEdge : FoamGridEdge → option A) (ofVertex : FoamGridVertex → option A)
    (ndebug : bool) (g : EntityImps) (target : Ptr) (i codim : Z)
  : outcome A :=
  _ ← assert ndebug (bool_decide (0 ≤ codim ∧ codim ≤ dim)%Z);
  match codim with
  | 0%Z => el ← deref (getElement g target); deref (ofElement el)
  | 1%Z =>
      el ← deref (getElement g target);
      slot ← at_ (edges_ el) i;
      pe ← deref slot;
      ed ← deref (getEdge g pe);
      deref (ofEdge ed)
  | 2%Z =>
      el ← deref (getElement g target);
      pv ← at_ (vertex_ el) i;
      v ← deref (getVertex g pv);
      deref (ofVertex v)
  | _ => Throw GridError
  end.

Definition Entity0_subLevelIndex :=
  Entity0_subField levelIndex_ e_levelIndex_ v_levelIndex_.
Definition Entity0_subLeafIndex :=
  Entity0_subField leafIndex_ e_leafIndex_ v_leafIndex_.
Definition Entity0_subId :=
  Entity0_subField (λ e, Some (id_ e)) (λ e, Some (e_id_ e))
    (λ v, Some (v_id_ v)).

(** [FoamGridLevelIndexSet::subIndex(e, i, codim)] and
    [FoamGridLeafIndexSet::subIndex(e, i, codim)], with [int codim] *)
Definition FoamGridLevelIndexSet_subIndex (ndebug : bool) (g : EntityImps)
    (e : Ptr) (i codim : Z) : outcome nat :=
  Entity0_subLevelIndex ndebug g e i (toUnsigned codim).
Definition FoamGridLeafIndexSet_subIndex (ndebug : bool) (g : EntityImps)
    (e : Ptr) (i codim : Z) : outcome nat :=
  Entity0_subLeafIndex ndebug g e i (toUnsigned codim).

(** [subLevelIndex(i, codim)] and [subLeafIndex(i, codim)] of the edge
    [FoamGridEntityImp<1,dimworld>]:

    [assert(1<=codim && codim<=2);
     switch (codim) {
       case 1: return this->F;
       case 2: return vertex_[i]->F; }
     DUNE_THROW(GridError, ...)] *)
Definition Edge_subField {A} (ofEdge : FoamGridEdge → option A)
    (ofVertex : FoamGridVertex → option A)
    (ndebug : bool) (g : EntityImps) (this : Ptr) (i codim : Z)
  : outcome A :=
  _ ← assert ndebug (bool_decide (1 ≤ codim ∧ codim ≤ 2)%Z);
  match codim with
  | 1%Z => ed ← deref (getEdge g this); deref (ofEdge ed)
  | 2%Z =>
      ed ← deref (getEdge g this);
      pv ← at_ [(e_vertex_ ed).1; (e_vertex_ ed).2] i;
      v ← deref (getVertex g pv);
      deref (ofVertex v)
  | _ => Throw GridError
  end.

Definition Edge_subLevelIndex := Edge_subField e_levelIndex_ v_levelIndex_.
Definition Edge_subLeafIndex := Edge_subField e_leafIndex_ v_leafIndex_.

(** [n] times [++it] on a leaf intersection iterator *)
Fixpoint leafIncrements (n : nat) (it : FoamGridLeafIntersectionIterator)
  : outcome FoamGridLeafIntersectionIterator :=
  match n with
  | 0 => Done it
  | S n' =>
      it' ← FoamGridLeafIntersectionIterator_increment it;
      leafIncrements n' it'
  end.


(* ################################################################# *)
(** * Properties *)

(** ** The outcome monad *)

Lemma bind_Done {A B} (m : outcome A) (f : A → outcome B) (b : B) :
  m ≫= f = Done b → ∃ a, m = Done a ∧ f a = Done b.
Proof. destruct m; simpl; intros H; try discriminate. eauto. Qed.

Lemma deref_Done {A} (o : option A) (a : A) : deref o = Done a ↔ o = Some a.
Proof. destruct o; simpl; split; congruence. Qed.

(** ** Level intersection iterator *)

Section level_scan.
Context (g : EntityImps) (E : Ptr) (c : FoamGridElement).
Hypothesis HE : getElement g E = Some c.

Lemma centerLevel_center : centerLevel g E = Done (level_ c).
Proof. unfold centerLevel. by rewrite HE. Qed.

Lemma sameLevelNeighbor_dec n nb :
  getElement g n = Some nb →
  sameLevelNeighbor g E (level_ c) n ↔ E ≠ n ∧ level_ c = level_ nb.
Proof.
  intros Hn. unfold sameLevelNeighbor. rewrite Hn. simpl.
  split; intros [? ?]; split; congruence.
Qed.

(** The inner loop stops at the first same-level neighbor after the
    entries [pre] it has passed, or at the end of the list. *)
Lemma scanNeighbors_spec rest : ∀ pre,
  (∀ n, n ∈ rest → is_Some (getElement g n)) →
  noSameLevelNeighbor g E (level_ c) pre →
  ∃ k, scanNeighbors g E (level_ c) rest (length pre) = Done k
       ∧ ((k = length (pre ++ rest)
           ∧ noSameLevelNeighbor g E (level_ c) (pre ++ rest))
          ∨ (k < length (pre ++ rest)
             ∧ firstSameLevelNeighbor g E (level_ c) (pre ++ rest) k)).
Proof.
  induction rest as [|n rest IH]; intros pre Hres Hpre.
  - exists (length pre). rewrite app_nil_r. simpl. auto.
  - destruct (Hres n) as [nb Hnb]; [set_solver|].
    assert (Hstep : ¬ sameLevelNeighbor g E (level_ c) n →
      ∃ k, scanNeighbors g E (level_ c) rest (S (length pre)) = Done k
       ∧ ((k = length (pre ++ n :: rest)
           ∧ noSameLevelNeighbor g E (level_ c) (pre ++ n :: rest))
          ∨ (k < length (pre ++ n :: rest)
             ∧ firstSameLevelNeighbor g E (level_ c) (pre ++ n :: rest) k))).
    { intros Hn.
      destruct (IH (pre ++ [n])) as (k & Hk & Hcases).
      - intros m Hm. apply Hres. set_solver.
      - intros m Hm. apply elem_of_app in Hm as [Hm|Hm]; [by apply Hpre|].
        apply list_elem_of_singleton in Hm. by subst.
      - rewrite length_app, Nat.add_1_r in Hk. rewrite <- app_assoc in Hcases.
        exists k. split; [done|]. exact Hcases. }
    simpl. destruct (decide (E = n)) as [->|Hne].
    + apply Hstep. intros [Hn _]. done.
    + rewrite Hnb. simpl. destruct (decide (level_ c ≠ level_ nb)) as [Hl|Hl].
      * apply Hstep. rewrite (sameLevelNeighbor_dec n nb Hnb). tauto.
      * exists (length pre). split; [done|]. right.
        split; [rewrite length_app; simpl; lia|]. split.
        -- exists n. split; [by rewrite list_lookup_middle|].
           rewrite (sameLevelNeighbor_dec n nb Hnb).
           split; [done|]. destruct (decide (level_ c = level_ nb)); tauto.
        -- intros j m Hj Hm. rewrite lookup_app_l in Hm by done.
           apply Hpre. eapply list_elem_of_lookup_2, Hm.
Qed.

Lemma scanNeighbors_top els :
  (∀ n, n ∈ els → is_Some (getElement g n)) →
  ∃ k, scanNeighbors g E (level_ c) els 0 = Done k
       ∧ ((k = length els ∧ noSameLevelNeighbor g E (level_ c) els)
          ∨ (k < length els ∧ firstSameLevelNeighbor g E (level_ c) els k)).
Proof.
  intros Hres. apply (scanNeighbors_spec els []); [done|].
  intros m Hm. by apply elem_of_nil in Hm.
Qed.

(** The constructor's search from the top of slot [e] reaches the state
    the specification describes. *)
Lemma levelCtorSearch_spec remaining : ∀ e,
  e + remaining = corners →
  slotsResolve g E e →
  ∃ st, levelCtorSearch g E remaining e = Done st
        ∧ LevelScan g E (level_ c) e st.
Proof.
  induction remaining as [|r IH]; intros e He Hslots.
  - simpl. rewrite Nat.add_0_r in He. subst e. eexists. split; [done|].
    constructor.
  - destruct (Hslots e) as (els & Hels & HEin & Hres); [lia|].
    simpl. rewrite Hels. simpl. rewrite centerLevel_center. simpl.
    destruct (scanNeighbors_top els Hres) as (k & -> & Hk). simpl.
    destruct Hk as [[-> Hno]|[Hlt Hfirst]].
    + rewrite decide_True by done.
      destruct (decide (length els = 1)) as [H1|H1].
      * eexists. split; [done|]. rewrite H1.
        eapply LevelScan_boundary; eauto. lia.
      * destruct (IH (S e)) as (st & Hst & Hscan); [lia| |].
        { intros e' He'. apply Hslots. lia. }
        exists st. split; [done|].
        eapply LevelScan_skip; eauto; [lia|].
        destruct els as [|? [|? ?]]; simpl in *; try lia.
        by apply elem_of_nil in HEin.
    + rewrite decide_False by lia. eexists. split; [done|].
      eapply LevelScan_neighbor; eauto. lia.
Qed.

(** Resuming at the top of a slot, [increment]'s search is the
    constructor's. *)
Lemma levelIncrSearch_top remaining : ∀ e,
  e + remaining = corners →
  levelIncrSearch g E remaining e 0 = levelCtorSearch g E remaining e.
Proof.
  induction remaining as [|r IH]; intros e He; [done|].
  simpl.
  destruct (edgeElements g E e) as [els| | | |]; simpl; try done.
  destruct (centerLevel g E) as [cl| | | |]; simpl; try done.
  rewrite drop_0.
  destruct (scanNeighbors g E cl els 0) as [k| | | |]; simpl; try done.
  destruct (decide (k = length els)); [|done].
  destruct (decide (length els = 1)); [done|].
  destruct r as [|r]; [done|].
  rewrite decide_True by (unfold corners in *; lia).
  apply IH. lia.
Qed.
End level_scan.

(** C1. For a center element [E] of the grid and an edge slot [e < corners]
    whose slots from [e] on hold edges that list [E] and elements of the
    grid: the level intersection iterator constructed at [e] is in the state
    the scan of the specification reaches from the top of slot [e]: at the
    first entry of the incidence list that is not [E] and lies on [E]'s
    level; or, the list exhausted and of size 1, at the boundary
    intersection, whose position denotes no neighbor; or, the list exhausted,
    longer, and without such an entry, where the scan from the top of slot
    [e+1] arrives, which is the end state once the slot is [corners].
    Incrementing a boundary intersection at slot [e] likewise restarts the
    scan at the top of slot [e+1]. *)
Theorem level_iterator_scans_same_level (g : EntityImps) (E : Ptr)
    (c : FoamGridElement) (e : nat) :
  getElement g E = Some c →
  e < corners →
  slotsResolve g E e →
  (∃ st, FoamGridLevelIntersectionIterator g E e = Done st
         ∧ LevelScan g E (level_ c) e st)
  ∧ (∀ els, edgeElements g E e = Done els → length els = 1 →
       ∃ st, FoamGridLevelIntersectionIterator_increment g
               (mkLevelIntersection E e (length els)) = Done st
             ∧ LevelScan g E (level_ c) (S e) st).
Proof.
  intros HE He Hslots. split.
  - unfold FoamGridLevelIntersectionIterator.
    rewrite decide_False by lia.
    destruct (Hslots e) as (els & Hels & HEin & Hres); [lia|].
    rewrite Hels. simpl.
    destruct (decide (length els = 1)) as [H1|H1].
    + eexists. split; [done|]. rewrite H1.
      eapply LevelScan_boundary; eauto.
      destruct els as [|n [|? ?]]; simpl in H1; try lia.
      apply list_elem_of_singleton in HEin. subst n.
      intros m Hm [Hne _]. apply list_elem_of_singleton in Hm. done.
    + apply (levelCtorSearch_spec g E c HE); [lia|done].
  - intros els Hels H1. unfold FoamGridLevelIntersectionIterator_increment. simpl.
    rewrite decide_False by lia. rewrite Hels. simpl.
    rewrite decide_True by done.
    destruct (decide (S e < corners)) as [Hlt|Hge].
    + rewrite (levelIncrSearch_top g E) by lia.
      apply (levelCtorSearch_spec g E c HE); [lia|].
      intros e' He'. apply Hslots. lia.
    + assert (S e = corners) as Heq by lia.
      rewrite Heq, Nat.sub_diag. simpl. eexists. split; [done|]. constructor.
Qed.

(** ** The unit square *)

Lemma squareFactory_built :
  runCalls false squareCalls GridFactory_new = Done squareFactory.
Proof. vm_compute. reflexivity. Qed.

Lemma squareGrid_built :
  createGrid false squareFactory
  = Done (Some squareGrid,
          mkGridFactory None true 0 [(0, 0); (0, 1); (0, 2); (0, 3)]).
Proof. vm_compute. reflexivity. Qed.

Lemma square_slotsResolve (E : Ptr) (e : nat) :
  E = T0 ∨ E = T1 → slotsResolve square E e.
Proof.
  intros HE e' [_ He']. unfold corners in He'.
  destruct HE as [-> | ->];
    (destruct e' as [|[|[|e']]]; [| | |lia]);
    (eexists; split; [vm_compute; reflexivity|]; split;
     [set_solver|]);
    intros n Hn; repeat (apply elem_of_cons in Hn as [->|Hn]);
    try (by apply elem_of_nil in Hn); vm_compute; eauto.
Qed.

(** The theorem at work on the square: the first triangle, from its slot 0:
    two boundary edges and the neighbor across the diagonal. *)
Lemma level_iterator_scans_same_level_witness :
  (∃ st, FoamGridLevelIntersectionIterator square T0 0 = Done st
         ∧ LevelScan square T0 0 0 st)
  ∧ (∀ els, edgeElements square T0 0 = Done els → length els = 1 →
       ∃ st, FoamGridLevelIntersectionIterator_increment square
               (mkLevelIntersection T0 0 (length els)) = Done st
             ∧ LevelScan square T0 0 1 st).
Proof.
  apply (level_iterator_scans_same_level square T0
           (mkElement 0 0 (Some 0) (Some 0) [(0, 0); (0, 1); (0, 2)]
              [Some (0, 0); Some (0, 1); Some (0, 2)] [] None) 0).
  - vm_compute. reflexivity.
  - unfold corners. lia.
  - apply square_slotsResolve. by left.
Defined.

(** The scan of the specification determines the state: a slot has one
    first same-level neighbor at most, and the four cases exclude one
    another. *)
Lemma LevelScan_functional (g : EntityImps) (E : Ptr) (clevel e : nat)
    (st1 st2 : FoamGridLevelIntersection) :
  LevelScan g E clevel e st1 → LevelScan g E clevel e st2 → st1 = st2.
Proof.
  intros H1. revert st2.
  induction H1 as [|e els k He Hels [(n & Hn & Hnb) Hfirst]
                   |e els He Hels Hno Hlen
                   |e els st He Hels Hno Hlen Hrest IH];
    intros st2 H2; inversion H2 as [|e' els' k' He' Hels' [(n' & Hn' & Hnb') Hfirst']
                                    |e' els' He' Hels' Hno' Hlen'
                                    |e' els' st' He' Hels' Hno' Hlen' Hrest'];
    subst; try lia; try reflexivity;
    try (rewrite Hels in Hels'; injection Hels' as <-);
    try lia; try (by apply IH);
    try (exfalso;
         match goal with
         | Hno : noSameLevelNeighbor _ _ _ ?l, Hn : ?l !! _ = Some ?m |- _ =>
             apply (Hno m); [by eapply list_elem_of_lookup_2|done]
         end).
  f_equal. destruct (Nat.lt_trichotomy k k') as [Hlt|[Heq|Hgt]]; [|done|].
  - exfalso. by apply (Hfirst' _ _ Hlt Hn).
  - exfalso. by apply (Hfirst _ _ Hgt Hn').
Qed.

(** [increment] on a same-level neighbor state: the incidence list has
    several entries, so the boundary branch is not taken, and the inner
    [while] stops at once on the neighbor [neighbor_] already points to.
    The iterator is left as it was. *)
Lemma level_increment_on_neighbor_stays (g : EntityImps) (E : Ptr)
    (c : FoamGridElement) (e k : nat) (els : list Ptr) :
  getElement g E = Some c →
  e < corners →
  edgeElements g E e = Done els →
  length els ≠ 1 →
  firstSameLevelNeighbor g E (level_ c) els k →
  FoamGridLevelIntersectionIterator_increment g (mkLevelIntersection E e k)
  = Done (mkLevelIntersection E e k).
Proof.
  intros HE He Hels Hlen [(n & Hn & Hne & Hlvl) _].
  unfold FoamGridLevelIntersectionIterator_increment. simpl.
  rewrite decide_False by lia. rewrite Hels. simpl.
  rewrite decide_False by done.
  destruct (corners - e) as [|r] eqn:Hr; [lia|].
  simpl. rewrite Hels. simpl.
  rewrite (centerLevel_center g E c HE). simpl.
  apply lookup_lt_Some in Hn as Hlt.
  rewrite (drop_S _ _ _ Hn). simpl.
  rewrite decide_False by done.
  destruct (getElement g n) as [nb|] eqn:Hnb; [|discriminate Hlvl].
  simpl in *. injection Hlvl as Hlvl.
  rewrite decide_False by (intros H; apply H; done).
  simpl. rewrite decide_False by lia. reflexivity.
Qed.

(** On the square: the first triangle's iterator at the diagonal stays at
    the second triangle under [increment]. *)
Lemma square_level_increment_on_diagonal :
  FoamGridLevelIntersectionIterator square T0 sharedSlot0
  = Done (mkLevelIntersection T0 sharedSlot0 1)
  ∧ FoamGridLevelIntersectionIterator_increment square
      (mkLevelIntersection T0 sharedSlot0 1)
    = Done (mkLevelIntersection T0 sharedSlot0 1).
Proof. split; vm_compute; reflexivity. Qed.

(** ** Leaf index set: sizes *)

(** C10. [size(codim)] of the leaf index set returns the count stored for
    the dimension [dim - codim] when [codim] is 0, 1 or 2, and 0 for every
    other integer, negative or beyond the grid dimension; [size(type)]
    returns the count stored for the dimension of the type when that is 0, 1
    or 2, and 0 for every other dimension.  Neither signals an error. *)
Theorem leaf_index_set_size_out_of_range_is_zero
    (n0 n1 n2 : Z) (types : list (list GeometryType))
    (codim : Z) (type : GeometryType) :
  FoamGridLeafIndexSet_size (mkLeafIndexSet [n0; n1; n2] types) codim
  = match codim with
    | 0%Z => n2 | 1%Z => n1 | 2%Z => n0
    | _ => 0%Z
    end
  ∧ FoamGridLeafIndexSet_size_type (mkLeafIndexSet [n0; n1; n2] types) type
    = match gt_dim type with
      | 0%Z => n0 | 1%Z => n1 | 2%Z => n2
      | _ => 0%Z
      end.
Proof.
  unfold FoamGridLeafIndexSet_size, FoamGridLeafIndexSet_size_type, dim. simpl. split.
  - destruct (decide (codim < 0 ∨ codim > 2)%Z) as [Hout|Hin].
    + destruct codim as [|[[p|p|]|[p|p|]|]|p]; try reflexivity; lia.
    + assert (codim = 0 ∨ codim = 1 ∨ codim = 2)%Z as [->|[->| ->]] by lia;
        reflexivity.
  - destruct (decide (gt_dim type < 0 ∨ gt_dim type > 2)%Z) as [Hout|Hin].
    + destruct (gt_dim type) as [|[[p|p|]|[p|p|]|]|p]; try reflexivity; lia.
    + assert (gt_dim type = 0 ∨ gt_dim type = 1 ∨ gt_dim type = 2)%Z
        as [->|[->| ->]] by lia; reflexivity.
Qed.

(** ** Incrementing a one-past-the-end iterator *)

(** C6, as the claim states it, fails for the level iterator: incrementing
    the one-past-the-end level intersection iterator of the first triangle
    of the square raises nothing and returns the iterator itself. *)
Lemma level_increment_past_end_is_silent :
  FoamGridLevelIntersectionIterator_increment square (FoamGridLevelIntersectionIterator_end T0)
  = Done (FoamGridLevelIntersectionIterator_end T0)
  ∧ ¬ ∃ e, FoamGridLevelIntersectionIterator_increment square
             (FoamGridLevelIntersectionIterator_end T0) = Throw e.
Proof. split; [reflexivity|]. intros [e He]. discriminate He. Qed.

(** C6, amended.  Incrementing a one-past-the-end leaf intersection
    iterator (the one the end constructor builds, and any whose
    [topLevelEdgeIter_] is past the last edge) raises
    [InvalidStateException].  Incrementing a level intersection iterator
    whose [edgeIndex_] is [corners] raises nothing: it returns the end state
    ([edgeIndex_ = corners], [neighborIndex_ = 0]) whatever the grid. *)
Theorem increment_past_end (g : EntityImps) (center : Ptr)
    (edgeIndex neighborIndex : nat) (neighbor neighborEnd leafEdge : option VecIter)
    (leafEdges : list (list Ptr)) :
  FoamGridLeafIntersectionIterator_increment (FoamGridLeafIntersectionIterator_end center)
  = Throw InvalidStateException
  ∧ FoamGridLeafIntersectionIterator_increment
      (mkLeafIt center edgeIndex neighbor neighborEnd leafEdges MapEnd leafEdge)
    = Throw InvalidStateException
  ∧ FoamGridLevelIntersectionIterator_increment g
      (mkLevelIntersection center corners neighborIndex)
    = Done (FoamGridLevelIntersectionIterator_end center).
Proof. repeat split. Qed.

(** ** Calling [createGrid] twice *)



(** ** Leaf intersection iterator *)

(** What [traverseAndPushLeafEdges] collects: the incidence lists of the
    leaf descendant edges, in their order, the center included; any bound
    beyond the depth of the edge's refinement will do. *)
Lemma traverseAndPushLeafEdges_collects (g : EntityImps) (p : Ptr)
    (leaves : list Ptr) :
  leafDescendantEdges g p leaves →
  ∃ depth, ∀ depth' leafEdges, depth ≤ depth' →
    traverseAndPushLeafEdges g depth' p leafEdges
    = Done (leafEdges ++ concat (map (incidentElements g) leaves)).
Proof.
  induction 1 as [p ed Hp Hleaf|p ed s0 s1 l0 l1 Hp Hsons _ IH0 _ IH1].
  - exists 1. intros [|d] acc Hd; [lia|]. simpl. rewrite Hp. simpl.
    rewrite Hleaf. unfold incidentElements. rewrite Hp.
    by rewrite app_nil_r.
  - destruct IH0 as (d0 & IH0), IH1 as (d1 & IH1).
    exists (S (d0 `max` d1)). intros [|d] acc Hd; [lia|].
    simpl. rewrite Hp. simpl.
    assert (edge_isLeaf ed = false) as ->.
    { unfold edge_isLeaf. by rewrite Hsons. }
    rewrite Hsons. simpl. rewrite IH0 by lia. simpl. rewrite IH1 by lia.
    by rewrite map_app, concat_app, app_assoc.
Qed.

(** C2 on the square.  The shared edge is a leaf, with the incidence list
    [T0; T1]; the specification has each triangle see the other one, once.
    The iterator of [T0] on that edge yields [T1] twice; the iterator of
    [T1] yields [T0], then [T1] itself, then both again. *)
Lemma leaf_iterator_on_shared_edge :
  leafDescendantEdges square (0, 2) [(0, 2)]
  ∧ leafNeighborsSpec square T0 [(0, 2)] = [T1]
  ∧ leafNeighborsSpec square T1 [(0, 2)] = [T0]
  ∧ (it ← FoamGridLeafIntersectionIterator_ctor square 1 T0 sharedSlot0;
     leafEnumerate 3 sharedSlot0 it) = Done [Some T1; Some T1]
  ∧ (it ← FoamGridLeafIntersectionIterator_ctor square 1 T1 sharedSlot1;
     leafEnumerate 5 sharedSlot1 it)
    = Done [Some T0; Some T1; Some T0; Some T1].
Proof.
  split; [|repeat split].
  eapply leafDescendantEdges_leaf; vm_compute; reflexivity.
Qed.

(** ** The factory before [createGrid] *)

(** A count below 2^32 is its own value as an [unsigned int]. *)
Lemma wrapUnsigned_small n : (Z.of_nat n < 2 ^ 32)%Z → wrapUnsigned n = n.
Proof.
  intros Hn. unfold wrapUnsigned.
  rewrite Z.mod_small by lia. apply Nat2Z.id.
Qed.

(** Counting up in [unsigned int] is counting up modulo 2^32. *)
Lemma wrapUnsigned_S n : wrapUnsigned (S (wrapUnsigned n)) = wrapUnsigned (S n).
Proof.
  unfold wrapUnsigned. f_equal.
  rewrite !Nat2Z.inj_succ, Z2Nat.id by (apply Z.mod_pos_bound; done).
  rewrite <- !Z.add_1_r. by rewrite Zplus_mod_idemp_l.
Qed.

Lemma insertVertex_coarse nv tris :
  insertVertex (coarseFactory nv tris) = Done (coarseFactory (S nv) tris).
Proof.
  unfold insertVertex, coarseFactory. rewrite seq_S, !map_app. simpl.
  rewrite length_map, length_seq, wrapUnsigned_S. reflexivity.
Qed.

Lemma take3_lookup (vs : list nat) a b c :
  take 3 vs = [a; b; c] → vs !! 0 = Some a ∧ vs !! 1 = Some b ∧ vs !! 2 = Some c.
Proof.
  destruct vs as [|x [|y [|z vs]]]; simpl; intros H; try discriminate.
  by injection H as -> -> ->.
Qed.

Lemma vertexArray_lookup nv a :
  a < nv → map (λ i, (0, i)) (seq 0 nv) !! a = Some (0, a).
Proof. intros Ha. rewrite list_lookup_fmap, lookup_seq_lt by done. done. Qed.

Lemma insertElement_coarse ndebug nv tris type vs a b c :
  isTriangle type = true → take 3 vs = [a; b; c] →
  a < nv → b < nv → c < nv →
  insertElement ndebug (coarseFactory nv tris) type vs
  = Done (coarseFactory nv (tris ++ [[a; b; c]])).
Proof.
  intros Htri Hvs Ha Hb Hc.
  destruct (take3_lookup vs a b c Hvs) as (H0 & H1 & H2).
  unfold insertElement, assert. rewrite Htri, orb_true_r. simpl.
  rewrite H0, H1, H2. simpl. rewrite !vertexArray_lookup by done. simpl.
  unfold coarseFactory. rewrite imap_app, length_app. simpl.
  rewrite Nat.add_0_r, Nat.add_1_r, wrapUnsigned_S. reflexivity.
Qed.

Lemma runCalls_coarse ndebug cs : ∀ nv tris,
  callsWellFormed nv cs →
  runCalls ndebug cs (coarseFactory nv tris)
  = Done (coarseFactory (nv + countVertices cs) (tris ++ trianglesOf cs)).
Proof.
  induction cs as [|[|type vs] cs IH]; intros nv tris Hwf;
    cbn [runCalls runCall countVertices trianglesOf].
  - by rewrite Nat.add_0_r, app_nil_r.
  - rewrite insertVertex_coarse. simpl. rewrite IH by done.
    by rewrite Nat.add_succ_r.
  - destruct Hwf as (Htri & (a & b & c & Hvs & Ha & Hb & Hc) & Hwf).
    rewrite (insertElement_coarse _ _ _ _ _ a b c) by done. simpl.
    rewrite IH by done. by rewrite Hvs, <- app_assoc.
Qed.


(** ** The edge loop of [createGrid] *)

Lemma samePair_refl x : samePair x x.
Proof. by left. Qed.

Lemma samePair_sym x y : samePair x y → samePair y x.
Proof.
  destruct x as [x1 x2], y as [y1 y2]. unfold samePair. simpl.
  intros [H|H]; injection H as -> ->; auto.
Qed.

Lemma samePair_trans x y z : samePair x y → samePair y z → samePair x z.
Proof.
  destruct x as [x1 x2], y as [y1 y2], z as [z1 z2]. unfold samePair. simpl.
  intros [H|H] [H'|H']; injection H as -> ->; injection H' as -> ->; auto.
Qed.

Lemma countPair_app occ occ' key :
  countPair (occ ++ occ') key = countPair occ key + countPair occ' key.
Proof. unfold countPair. by rewrite filter_app, length_app. Qed.

Lemma countPair_snoc_same occ o key :
  samePair o key → countPair (occ ++ [o]) key = S (countPair occ key).
Proof.
  intros H. rewrite countPair_app. unfold countPair at 2.
  rewrite filter_cons_True by done. simpl. lia.
Qed.

Lemma countPair_snoc_other occ o key :
  ¬ samePair o key → countPair (occ ++ [o]) key = countPair occ key.
Proof.
  intros H. rewrite countPair_app. unfold countPair at 2.
  rewrite filter_cons_False by done. simpl. lia.
Qed.

Lemma countPair_zero occ key :
  (∀ o, o ∈ occ → ¬ samePair o key) → countPair occ key = 0.
Proof.
  intros H. unfold countPair.
  induction occ as [|o occ IH]; [done|].
  rewrite filter_cons_False by (apply H; set_solver).
  apply IH. intros o' Ho'. apply H. set_solver.
Qed.

Lemma forRange_invariant {St : Type} (P : nat → St → Prop)
    (body : nat → St → outcome St) count : ∀ first s,
  P first s →
  (∀ j s, first ≤ j < first + count → P j s →
     ∃ s', body j s = Done s' ∧ P (S j) s') →
  ∃ s', forRange body first count s = Done s' ∧ P (first + count) s'.
Proof.
  induction count as [|count IH]; intros first s Hs Hbody; simpl.
  - exists s. by rewrite Nat.add_0_r.
  - destruct (Hbody first s) as (s1 & -> & Hs1); [lia|done|]. simpl.
    destruct (IH (S first) s1) as (s' & Hs' & HP); [done| |].
    + intros j s2 Hj. apply Hbody. lia.
    + exists s'. split; [done|]. by rewrite Nat.add_succ_r.
Qed.

(** One pass of the loop body: the edge between [v0] and [v1] is looked up
    under both orders, created when absent, and gains the element. *)
Lemma createEdge_step lev0 occ st ei i el v0 v1 :
  EdgeInv lev0 occ st →
  elements lev0 !! ei = Some el →
  vertex_ el !! subEntity_edge i 0 = Some v0 →
  vertex_ el !! subEntity_edge i 1 = Some v1 →
  ∃ st', createEdge ei i st = Done st'
         ∧ EdgeInv lev0 (occ ++ [(v0, v1)]) st'.
Proof.
  intros (lev & Himps & Hvs & Hels & Hsound & Hcompl & Hdist & Hsize & Hocc)
    Hel Hv0 Hv1.
  assert (∃ el', elements lev !! ei = Some el' ∧ vertex_ el' = vertex_ el)
    as (el' & Hel' & Hvel').
  { assert (map vertex_ (elements lev) !! ei = Some (vertex_ el)) as H.
    { rewrite Hels, list_lookup_fmap, Hel. done. }
    rewrite list_lookup_fmap in H.
    destruct (elements lev !! ei) as [el'|]; [|done].
    injection H as H. eauto. }
  unfold createEdge. rewrite Himps. unfold getElement. simpl.
  rewrite Hel'. simpl. rewrite Hvel', Hv0, Hv1. simpl.
  set (found := match edgeMap st !! (v0, v1) with
                | Some e => Some e
                | None => edgeMap st !! (v1, v0)
                end).
  destruct found as [p|] eqn:Hfound.
  - (* the edge exists *)
    assert (∃ k ed, p = (0, k) ∧ edges lev !! k = Some ed
                    ∧ samePair (v0, v1) (e_vertex_ ed)) as (k & ed & -> & Hk & Hsame).
    { subst found. destruct (edgeMap st !! (v0, v1)) as [p'|] eqn:H1.
      - injection Hfound as ->.
        destruct (Hsound _ _ H1) as (k & ed & -> & Hk & Hv).
        exists k, ed. repeat split; [done|]. rewrite Hv. apply samePair_refl.
      - destruct (Hsound _ _ Hfound) as (k & ed & -> & Hk & Hv).
        exists k, ed. repeat split; [done|]. rewrite Hv. by right. }
    simpl. rewrite Himps. unfold updElement, getEdge. simpl. rewrite Hk. simpl.
    eexists. split; [reflexivity|].
    eexists. split; [reflexivity|]. simpl.
    split; [done|]. split.
    { rewrite <- Hels. clear -Hel'. revert ei Hel'.
      induction (elements lev) as [|e l IH]; intros [|ei] H; simpl in *;
        try done; f_equal; eauto. }
    assert (Hlook : ∀ k' ed', alter (edge_pushElement (0, ei)) k (edges lev) !! k'
                = Some ed' →
              ∃ ed0, edges lev !! k' = Some ed0
                     ∧ e_vertex_ ed' = e_vertex_ ed0
                     ∧ edge_isLeaf ed' = edge_isLeaf ed0
                     ∧ length (e_elements_ ed')
                       = if decide (k' = k) then S (length (e_elements_ ed0))
                         else length (e_elements_ ed0)).
    { intros k' ed' H. destruct (decide (k' = k)) as [->|Hne].
      - rewrite list_lookup_alter_eq, Hk in H. injection H as <-.
        exists ed. repeat split; [done|]. simpl. rewrite length_app. simpl. lia.
      - rewrite list_lookup_alter_ne in H by done. exists ed'. by repeat split. }
    split; [|split; [|split; [|split]]].
    + intros key p Hp. destruct (Hsound _ _ Hp) as (k' & ed' & -> & Hk' & Hv).
      destruct (decide (k' = k)) as [->|Hne].
      * eexists k, _. split; [done|]. rewrite list_lookup_alter_eq, Hk. simpl.
        split; [done|]. rewrite Hk in Hk'. by injection Hk' as <-.
      * exists k', ed'. by rewrite list_lookup_alter_ne.
    + intros k' ed' H. destruct (Hlook _ _ H) as (ed0 & H0 & -> & _). eauto.
    + intros k1 k2 ed1 ed2 Hne H1 H2.
      destruct (Hlook _ _ H1) as (e1 & He1 & -> & _).
      destruct (Hlook _ _ H2) as (e2 & He2 & -> & _). eauto.
    + intros k' ed' H.
      destruct (Hlook _ _ H) as (ed0 & H0 & -> & -> & ->).
      destruct (Hsize _ _ H0) as (Hge & Hc & Hleaf).
      split; [case_decide; lia|]. split; [|done].
      destruct (decide (k' = k)) as [->|Hne].
      * rewrite Hk in H0. injection H0 as <-.
        rewrite countPair_snoc_same by done. lia.
      * rewrite countPair_snoc_other; [done|].
        intros Hs. apply (Hdist k k' ed ed0); [done..|].
        eapply samePair_trans; [|exact Hs]. by apply samePair_sym.
    + intros o Ho. apply elem_of_app in Ho as [Ho|Ho].
      * destruct (Hocc o Ho) as (k' & ed' & Hk' & Hs).
        destruct (decide (k' = k)) as [->|Hne].
        -- eexists k, _. rewrite list_lookup_alter_eq, Hk. simpl.
           split; [done|]. rewrite Hk in Hk'. by injection Hk' as <-.
        -- exists k', ed'. by rewrite list_lookup_alter_ne.
      * apply list_elem_of_singleton in Ho as ->.
        eexists k, _. rewrite list_lookup_alter_eq, Hk. simpl. done.
  - (* the edge is new *)
    assert (edgeMap st !! (v0, v1) = None ∧ edgeMap st !! (v1, v0) = None)
      as [Hn1 Hn2].
    { subst found. by destruct (edgeMap st !! (v0, v1)). }
    assert (Hfresh : ∀ k ed, edges lev !! k = Some ed →
              ¬ samePair (v0, v1) (e_vertex_ ed)).
    { intros k ed Hk Hs. apply Hcompl in Hk.
      destruct (e_vertex_ ed) as [y1 y2]. destruct Hs as [Hs|Hs]; simpl in Hs;
        injection Hs as -> ->; congruence. }
    simpl. unfold updElement, getEdge. simpl.
    rewrite lookup_app_r by done. rewrite Nat.sub_diag. simpl.
    eexists. split; [reflexivity|].
    eexists. split; [reflexivity|]. simpl.
    split; [done|]. split.
    { rewrite <- Hels. clear -Hel'. revert ei Hel'.
      induction (elements lev) as [|e l IH]; intros [|ei] H; simpl in *;
        try done; f_equal; eauto. }
    set (newEdge := mkEdge 0 (eb_counters st !!! 1) None None (v0, v1) []
                      (None, None) 0 None None).
    assert (Halter : alter (edge_pushElement (0, ei)) (length (edges lev))
                       (edges lev ++ [newEdge])
                     = edges lev ++ [edge_pushElement (0, ei) newEdge]).
    { rewrite alter_app_r_alt by done. by rewrite Nat.sub_diag. }
    rewrite Halter.
    assert (Hlook : ∀ k' ed',
              (edges lev ++ [edge_pushElement (0, ei) newEdge]) !! k' = Some ed' →
              (edges lev !! k' = Some ed' ∧ k' < length (edges lev))
              ∨ (k' = length (edges lev)
                 ∧ ed' = edge_pushElement (0, ei) newEdge)).
    { intros k' ed' H. apply lookup_snoc_Some in H as [[? ?]|[? ?]]; eauto. }
    split; [|split; [|split; [|split]]].
    + intros key p Hp. destruct (decide (key = (v0, v1))) as [->|Hne].
      * rewrite lookup_insert_eq in Hp. injection Hp as <-.
        eexists _, _. split; [done|]. split; [apply list_lookup_middle; done|].
        done.
      * rewrite lookup_insert_ne in Hp by done.
        destruct (Hsound _ _ Hp) as (k' & ed' & -> & Hk' & Hv).
        exists k', ed'. split; [done|]. split; [|done].
        by apply lookup_app_l_Some.
    + intros k' ed' H. destruct (Hlook _ _ H) as [[H0 Hlt]|[-> ->]].
      * rewrite lookup_insert_ne; [by apply Hcompl|].
        intros Heq. apply (Hfresh _ _ H0). rewrite <- Heq. apply samePair_refl.
      * simpl. by rewrite lookup_insert_eq.
    + intros k1 k2 ed1 ed2 Hne H1 H2.
      destruct (Hlook _ _ H1) as [[H1' Hlt1]|[-> ->]],
               (Hlook _ _ H2) as [[H2' Hlt2]|[-> ->]]; simpl.
      * eauto.
      * intros Hs. apply (Hfresh _ _ H1'). by apply samePair_sym.
      * apply (Hfresh _ _ H2').
      * done.
    + intros k' ed' H. destruct (Hlook _ _ H) as [[H0 Hlt]|[-> ->]].
      * destruct (Hsize _ _ H0) as (Hge & Hc & Hleaf).
        split; [done|]. split; [|done]. rewrite Hc.
        rewrite countPair_snoc_other; [done|]. apply (Hfresh _ _ H0).
      * simpl. split; [lia|]. split; [|done].
        rewrite countPair_snoc_same by apply samePair_refl.
        rewrite countPair_zero; [done|].
        intros o Ho Hs. destruct (Hocc o Ho) as (k' & ed' & Hk' & Hs').
        apply (Hfresh _ _ Hk'). eapply samePair_trans; [|exact Hs'].
        by apply samePair_sym.
    + intros o Ho. apply elem_of_app in Ho as [Ho|Ho].
      * destruct (Hocc o Ho) as (k' & ed' & Hk' & Hs).
        exists k', ed'. split; [|done]. by apply lookup_app_l_Some.
      * apply list_elem_of_singleton in Ho as ->.
        eexists _, _. split; [apply list_lookup_middle; done|].
        simpl. apply samePair_refl.
Qed.


(** ** The loops of the edge construction *)

Lemma edgePairs_three (x0 x1 x2 : Ptr) :
  edgePairs [x0; x1; x2] = [(x0, x1); (x0, x2); (x1, x2)].
Proof. reflexivity. Qed.

Lemma createEdge_element lev0 occ st ei el x0 x1 x2 :
  EdgeInv lev0 occ st →
  elements lev0 !! ei = Some el →
  vertex_ el = [x0; x1; x2] →
  ∃ st', forRange (createEdge ei) 0 3 st = Done st'
         ∧ EdgeInv lev0 (occ ++ edgePairs (vertex_ el)) st'.
Proof.
  intros Hinv Hel Hxs. rewrite Hxs, edgePairs_three.
  destruct (createEdge_step lev0 occ st ei 0 el x0 x1 Hinv Hel)
    as (st1 & H1 & Hinv1); [by rewrite Hxs..|].
  destruct (createEdge_step lev0 _ st1 ei 1 el x0 x2 Hinv1 Hel)
    as (st2 & H2 & Hinv2); [by rewrite Hxs..|].
  destruct (createEdge_step lev0 _ st2 ei 2 el x1 x2 Hinv2 Hel)
    as (st3 & H3 & Hinv3); [by rewrite Hxs..|].
  exists st3. simpl. rewrite H1. simpl. rewrite H2. simpl. rewrite H3.
  split; [done|]. by rewrite <- !app_assoc in Hinv3.
Qed.

Lemma createEdges_spec lev0 counters :
  edges lev0 = [] →
  threeCorners (elements lev0) →
  ∃ st, createEdges (mkEdgeBuild [lev0] counters ∅) = Done st
        ∧ EdgeInv lev0 (allEdgePairs (elements lev0)) st.
Proof.
  intros Hedges Hthree. unfold createEdges. simpl.
  destruct (forRange_invariant
              (λ ei st, EdgeInv lev0 (allEdgePairs (take ei (elements lev0))) st)
              (λ ei, forRange (createEdge ei) 0 3)
              (length (elements lev0)) 0 (mkEdgeBuild [lev0] counters ∅))
    as (st & Hst & Hinv).
  - exists lev0. rewrite Hedges. simpl.
    split; [done|]. split; [done|]. split; [done|].
    split; [intros key p H; by rewrite lookup_empty in H|].
    split; [intros k ed H; by rewrite lookup_nil in H|].
    split; [intros k k' ed ed' _ H; by rewrite lookup_nil in H|].
    split; [intros k ed H; by rewrite lookup_nil in H|].
    intros o Ho. by apply elem_of_nil in Ho.
  - intros ei st [_ Hei] Hinv. simpl in Hei.
    destruct (lookup_lt_is_Some_2 _ _ Hei) as [el Hel].
    destruct (Hthree el) as (x0 & x1 & x2 & Hxs).
    { eapply list_elem_of_lookup_2, Hel. }
    destruct (createEdge_element lev0 _ st ei el x0 x1 x2 Hinv Hel Hxs)
      as (st' & Hst' & Hinv').
    exists st'. split; [done|].
    rewrite (take_S_r _ _ _ Hel). unfold allEdgePairs in *.
    rewrite map_app, concat_app. simpl. by rewrite app_nil_r.
  - exists st. split; [done|]. simpl in Hinv. by rewrite firstn_all in Hinv.
Qed.


(** ** Index passes: the level index set *)

Lemma numberElements_length els : ∀ n,
  length (numberElements els n).1 = length els
  ∧ (numberElements els n).2 = n + length els.
Proof.
  induction els as [|e els IH]; intros n; simpl; [split; [done|lia]|].
  destruct (IH (S n)) as [Hl Hn].
  destruct (numberElements els (S n)) as [r n']. simpl in *. split; lia.
Qed.

Lemma numberElements_lookup els : ∀ n j,
  (numberElements els n).1 !! j
  = element_setLevelIndex (Some (n + j)) <$> els !! j.
Proof.
  induction els as [|e els IH]; intros n j; simpl; [done|].
  specialize (IH (S n)).
  destruct (numberElements els (S n)) as [r n']. simpl in *.
  destruct j as [|j]; simpl; [by rewrite Nat.add_0_r|].
  rewrite IH. by rewrite Nat.add_succ_r.
Qed.

Lemma numberElements_idem els : ∀ n,
  numberElements (numberElements els n).1 n = numberElements els n.
Proof.
  induction els as [|e els IH]; intros n; simpl; [done|].
  specialize (IH (S n)).
  destruct (numberElements els (S n)) as [r n'] eqn:Hr. simpl in *.
  by rewrite IH.
Qed.

Lemma numberVertices_length vs : ∀ n,
  length (numberVertices vs n).1 = length vs
  ∧ (numberVertices vs n).2 = n + length vs.
Proof.
  induction vs as [|v vs IH]; intros n; simpl; [split; [done|lia]|].
  destruct (IH (S n)) as [Hl Hn].
  destruct (numberVertices vs (S n)) as [r n']. simpl in *. split; lia.
Qed.

Lemma numberVertices_idem vs : ∀ n,
  numberVertices (numberVertices vs n).1 n = numberVertices vs n.
Proof.
  induction vs as [|v vs IH]; intros n; simpl; [done|].
  specialize (IH (S n)).
  destruct (numberVertices vs (S n)) as [r n'] eqn:Hr. simpl in *.
  by rewrite IH.
Qed.

Lemma numberVertices_shape vs : ∀ n,
  map (λ v, (v_leafIndex_ v, v_son_ v)) (numberVertices vs n).1
  = map (λ v, (v_leafIndex_ v, v_son_ v)) vs.
Proof.
  induction vs as [|v vs IH]; intros n; simpl; [done|].
  specialize (IH (S n)).
  destruct (numberVertices vs (S n)) as [r n']. simpl in *. by rewrite IH.
Qed.

Lemma numberElements_shape els : ∀ n,
  map (λ e, (leafIndex_ e, vertex_ e, edges_ e, sons_ e))
    (numberElements els n).1
  = map (λ e, (leafIndex_ e, vertex_ e, edges_ e, sons_ e)) els.
Proof.
  induction els as [|e els IH]; intros n; simpl; [done|].
  specialize (IH (S n)).
  destruct (numberElements els (S n)) as [r n']. simpl in *. by rewrite IH.
Qed.

(** The level pass, spelled out *)
Lemma FoamGridLevelIndexSet_update_Done self grid level lev :
  grid !! level = Some lev →
  FoamGridLevelIndexSet_update self grid level
  = Done (<[level := mkLevel (numberVertices (vertices lev) 0).1 (edges lev)
                       (numberElements (elements lev) 0).1]> grid,
          mkLevelIndexSet level (length (elements lev)) (numEdges_ self)
            (length (vertices lev))
            (<[1 := if decide (0 < length (vertices lev))
                    then [GeometryType_dim 0] else []]>
               (<[0 := if decide (0 < length (elements lev))
                       then [GeometryType_dim 1] else []]>
                  (lis_myTypes_ self)))).
Proof.
  intros Hlev. unfold FoamGridLevelIndexSet_update. rewrite Hlev. simpl.
  pose proof (numberElements_length (elements lev) 0) as [_ He].
  pose proof (numberVertices_length (vertices lev) 0) as [_ Hv].
  destruct (numberElements (elements lev) 0) as [els ne].
  destruct (numberVertices (vertices lev) 0) as [vs nv].
  simpl in *. subst. reflexivity.
Qed.

(** Running the level pass again changes nothing. *)
Lemma FoamGridLevelIndexSet_update_idem self grid level grid1 self1 :
  FoamGridLevelIndexSet_update self grid level = Done (grid1, self1) →
  FoamGridLevelIndexSet_update self1 grid1 level = Done (grid1, self1).
Proof.
  intros H.
  destruct (grid !! level) as [lev|] eqn:Hlev;
    [|by unfold FoamGridLevelIndexSet_update in H; rewrite Hlev in H].
  rewrite (FoamGridLevelIndexSet_update_Done _ _ _ _ Hlev) in H.
  injection H as <- <-.
  assert (level < length grid) as Hlt by (eapply lookup_lt_Some, Hlev).
  rewrite (FoamGridLevelIndexSet_update_Done _ _ _
             (mkLevel (numberVertices (vertices lev) 0).1 (edges lev)
                (numberElements (elements lev) 0).1))
    by (by rewrite list_lookup_insert_eq).
  simpl. rewrite numberVertices_idem, numberElements_idem.
  rewrite list_insert_insert_eq.
  destruct (numberElements_length (elements lev) 0) as [-> _].
  destruct (numberVertices_length (vertices lev) 0) as [-> _].
  f_equal. f_equal. f_equal.
  rewrite (list_insert_insert_ne _ 0 1) by done.
  by rewrite !list_insert_insert_eq.
Qed.


(** ** Index passes: the leaf indices of elements and edges *)

Lemma leafNumberElements_idem els : ∀ n,
  leafNumberElements (leafNumberElements els n).1 n = leafNumberElements els n.
Proof.
  induction els as [|e els IH]; intros n; simpl; [done|].
  destruct (element_isLeaf e) eqn:Hleaf.
  - specialize (IH (S n)).
    destruct (leafNumberElements els (S n)) as [r n'] eqn:Hr. simpl in *.
    unfold element_isLeaf in *. simpl. rewrite Hleaf. by rewrite IH.
  - specialize (IH n).
    destruct (leafNumberElements els n) as [r n'] eqn:Hr. simpl in *.
    by rewrite Hleaf, IH.
Qed.

Lemma leafNumberElementLevels_frame g : ∀ n,
  map vertices (leafNumberElementLevels g n).1 = map vertices g
  ∧ map edges (leafNumberElementLevels g n).1 = map edges g.
Proof.
  induction g as [|lev g IH]; intros n; simpl; [done|].
  destruct (leafNumberElements (elements lev) n) as [els n1].
  specialize (IH n1).
  destruct (leafNumberElementLevels g n1) as [rest n2]. simpl in *.
  destruct IH as [-> ->]. done.
Qed.

(** A grid whose elements carry the numbers of the pass is left as it is
    by the pass. *)
Lemma leafNumberElementLevels_fixed g : ∀ n g3,
  map elements g3 = map elements (leafNumberElementLevels g n).1 →
  leafNumberElementLevels g3 n = (g3, (leafNumberElementLevels g n).2).
Proof.
  induction g as [|lev g IH]; intros n g3 H; simpl in *.
  - by destruct g3.
  - pose proof (leafNumberElements_idem (elements lev) n) as Hidem.
    destruct (leafNumberElements (elements lev) n) as [els n1] eqn:Hels.
    specialize (IH n1).
    destruct (leafNumberElementLevels g n1) as [rest n2] eqn:Hrest.
    simpl in *. destruct g3 as [|lev3 g3]; [done|].
    injection H as H3 Hrest3. simpl. rewrite H3, Hidem.
    rewrite (IH g3 Hrest3). simpl. rewrite <- H3. by destruct lev3.
Qed.

Lemma bind_Done_pair {A B C} (m : outcome (A * B)) (f : A * B → outcome C)
    (c : C) :
  m ≫= f = Done c → ∃ a b, m = Done (a, b) ∧ f (a, b) = Done c.
Proof. intros H. apply bind_Done in H as ([a b] & ? & ?). eauto. Qed.

Lemma leafNumberEdges_inv ndebug es : ∀ n es' n',
  leafNumberEdges ndebug es n = Done (es', n') →
  n' = n + length es
  ∧ (∀ j, es' !! j = edge_setLeafIndex (Some (n + j)) <$> es !! j)
  ∧ (ndebug = true ∨ Forall (λ e, edge_isLeaf e = true) es).
Proof.
  induction es as [|e es IH]; intros n es' n' H; simpl in H.
  - injection H as <- <-. split; [simpl; lia|]. split; [done|]. by right.
  - apply bind_Done in H as ([] & Hassert & H).
    apply bind_Done_pair in H as (r & n1 & Hr & H). injection H as <- <-.
    destruct (IH _ _ _ Hr) as (-> & Hlook & Hleaf).
    split; [simpl; lia|]. split.
    + intros [|j]; simpl; [by rewrite Nat.add_0_r|].
      rewrite Hlook. by rewrite Nat.add_succ_r.
    + unfold assert in Hassert. destruct ndebug; [by left|]. simpl in Hassert.
      destruct (edge_isLeaf e) eqn:He; [|done].
      destruct Hleaf as [?|Hleaf]; [done|]. right. by constructor.
Qed.

Lemma leafNumberEdges_Done ndebug es : ∀ n,
  ndebug = true ∨ Forall (λ e, edge_isLeaf e = true) es →
  ∃ es', leafNumberEdges ndebug es n = Done (es', n + length es).
Proof.
  induction es as [|e es IH]; intros n Hleaf; simpl.
  - exists []. by rewrite Nat.add_0_r.
  - assert (assert ndebug (edge_isLeaf e) = Done ()) as ->.
    { unfold assert. destruct Hleaf as [->|Hleaf]; [done|].
      apply Forall_cons in Hleaf as [-> _]. by rewrite orb_true_r. }
    simpl. destruct (IH (S n)) as (es' & ->).
    { destruct Hleaf as [?|Hleaf]; [by left|]. right.
      by apply Forall_cons in Hleaf as [_ ?]. }
    simpl. eexists. by rewrite Nat.add_succ_r.
Qed.


Lemma leafNumberEdges_idem ndebug es n es' n' :
  leafNumberEdges ndebug es n = Done (es', n') →
  leafNumberEdges ndebug es' n = Done (es', n').
Proof.
  revert n es' n'.
  induction es as [|e es IH]; intros n es' n' H; simpl in H.
  - by injection H as <- <-.
  - apply bind_Done in H as ([] & Hassert & H).
    apply bind_Done_pair in H as (r & n1 & Hr & H). injection H as <- <-.
    simpl. unfold edge_isLeaf in *. simpl. rewrite Hassert. simpl.
    by rewrite (IH _ _ _ Hr).
Qed.

Lemma insert_level_frame {A} (f : LevelEntities → A) (g : EntityImps) i lev lev' :
  g !! i = Some lev → f lev' = f lev → map f (<[i := lev']> g) = map f g.
Proof.
  intros Hi Hf. rewrite list_fmap_insert, Hf.
  apply list_insert_id. by rewrite list_lookup_fmap, Hi.
Qed.

Lemma leafNumberEdgeLevels_frame ndebug count : ∀ g n g' n',
  leafNumberEdgeLevels ndebug count g n = Done (g', n') →
  map vertices g' = map vertices g
  ∧ map elements g' = map elements g
  ∧ length g' = length g
  ∧ ∀ l, count ≤ l → g' !! l = g !! l.
Proof.
  induction count as [|i IH]; intros g n g' n' H; simpl in H.
  - by injection H as <- <-.
  - apply bind_Done in H as (lev & Hlev & H). apply deref_Done in Hlev.
    apply bind_Done_pair in H as (es & n1 & Hes & H).
    destruct (IH _ _ _ _ H) as (Hv & He & Hlen & Hl).
    rewrite Hv, He, Hlen, length_insert.
    rewrite !(insert_level_frame _ g i lev) by done.
    repeat split; try done.
    intros l Hl'. rewrite Hl by lia. rewrite list_lookup_insert_ne by lia. done.
Qed.

(** A grid whose edges carry the numbers of the pass is left as it is by
    the pass. *)
Lemma leafNumberEdgeLevels_fixed ndebug count : ∀ g n g2 n' g3,
  leafNumberEdgeLevels ndebug count g n = Done (g2, n') →
  map edges g3 = map edges g2 →
  leafNumberEdgeLevels ndebug count g3 n = Done (g3, n').
Proof.
  induction count as [|i IH]; intros g n g2 n' g3 H Hedges; simpl in H.
  - by injection H as <- <-.
  - apply bind_Done in H as (lev & Hlev & H). apply deref_Done in Hlev.
    apply bind_Done_pair in H as (es & n1 & Hes & H).
    destruct (leafNumberEdgeLevels_frame _ _ _ _ _ _ H) as (_ & _ & _ & Hl).
    assert (g2 !! i = Some (setEdges es lev)) as H2.
    { rewrite Hl by done. apply list_lookup_insert_eq.
      eapply lookup_lt_Some, Hlev. }
    assert (∃ lev3, g3 !! i = Some lev3 ∧ edges lev3 = es) as (lev3 & H3 & He3).
    { assert (map edges g3 !! i = Some es) as H3.
      { by rewrite Hedges, list_lookup_fmap, H2. }
      rewrite list_lookup_fmap in H3.
      destruct (g3 !! i) as [lev3|]; [|done]. injection H3 as H3. eauto. }
    simpl. rewrite H3. simpl. rewrite He3.
    rewrite (leafNumberEdges_idem _ _ _ _ _ Hes). simpl.
    assert (<[i := setEdges es lev3]> g3 = g3) as ->.
    { apply list_insert_id. rewrite H3. f_equal. rewrite <- He3. by destruct lev3. }
    by apply (IH _ _ _ _ _ H).
Qed.


(** ** Index passes: the leaf indices of vertices *)

Lemma getVertex_updVertex f p q g :
  getVertex (updVertex f p g) q
  = if decide (p = q) then f <$> getVertex g q else getVertex g q.
Proof.
  destruct p as [l k], q as [l' k']. unfold getVertex, updVertex. simpl.
  destruct (decide (l = l')) as [->|Hl].
  - rewrite list_lookup_alter_eq. destruct (g !! l') as [lev|]; simpl.
    + destruct (decide (k = k')) as [->|Hk].
      * rewrite decide_True by done. apply list_lookup_alter_eq.
      * rewrite decide_False by congruence. by apply list_lookup_alter_ne.
    + by case_decide.
  - rewrite list_lookup_alter_ne by done. rewrite decide_False by congruence.
    done.
Qed.

Lemma map_alter_same {A B} (f : A → B) (h : A → A) (l : list A) i :
  (∀ x, f (h x) = f x) → map f (alter h i l) = map f l.
Proof.
  intros Hf. revert i. induction l as [|x l IH]; intros [|i]; simpl; try done.
  - by rewrite Hf.
  - f_equal. apply IH.
Qed.

Lemma erase_updVertex x p g :
  eraseVertexLeafIndex (updVertex (vertex_setLeafIndex x) p g)
  = eraseVertexLeafIndex g.
Proof.
  unfold eraseVertexLeafIndex, updVertex. apply map_alter_same.
  intros lev. unfold setVertices. simpl. f_equal.
  by apply map_alter_same.
Qed.

Lemma getVertex_erase g p :
  getVertex (eraseVertexLeafIndex g) p
  = vertex_setLeafIndex None <$> getVertex g p.
Proof.
  unfold getVertex, eraseVertexLeafIndex.
  change (map ?f ?l) with (f <$> l). rewrite list_lookup_fmap.
  destruct (g !! p.1) as [lev|]; simpl; [|done].
  change (map ?f ?l) with (f <$> l). by rewrite list_lookup_fmap.
Qed.

Lemma erase_same_vertex g1 g2 p :
  eraseVertexLeafIndex g1 = eraseVertexLeafIndex g2 →
  match getVertex g1 p, getVertex g2 p with
  | Some v1, Some v2 =>
      v_son_ v1 = v_son_ v2
      ∧ ∀ x, vertex_setLeafIndex x v1 = vertex_setLeafIndex x v2
  | None, None => True
  | _, _ => False
  end.
Proof.
  intros H. pose proof (getVertex_erase g1 p) as H1.
  rewrite H, getVertex_erase in H1.
  destruct (getVertex g1 p) as [[]|], (getVertex g2 p) as [[]|];
    simpl in *; try done.
  injection H1 as -> -> -> ->. done.
Qed.

Lemma vertexSonsDeeper_updVertex x p g :
  vertexSonsDeeper g → vertexSonsDeeper (updVertex (vertex_setLeafIndex x) p g).
Proof.
  intros Hwf q v s Hv Hs. rewrite getVertex_updVertex in Hv.
  case_decide; [|by eapply Hwf].
  destruct (getVertex g q) as [v0|] eqn:Hq; [|done].
  injection Hv as <-. by eapply Hwf.
Qed.

Lemma vertexSonsDeeper_erase g1 g2 :
  eraseVertexLeafIndex g1 = eraseVertexLeafIndex g2 →
  vertexSonsDeeper g1 → vertexSonsDeeper g2.
Proof.
  intros He Hwf p v q Hv Hq.
  pose proof (erase_same_vertex g1 g2 p He) as H. rewrite Hv in H.
  destruct (getVertex g1 p) as [v1|] eqn:H1; [|done].
  destruct H as [Hs _]. eapply Hwf; [done|]. by rewrite Hs.
Qed.

Lemma leafNumberVertices_frame i todo : ∀ g j n g' n',
  leafNumberVertices g i todo j n = Done (g', n') →
  eraseVertexLeafIndex g' = eraseVertexLeafIndex g.
Proof.
  induction todo as [|todo IH]; intros g j n g' n' H; simpl in H.
  - by injection H as <- <-.
  - apply bind_Done in H as (v & _ & H).
    destruct (vertex_isLeaf v).
    + rewrite (IH _ _ _ _ _ H). apply erase_updVertex.
    + apply bind_Done in H as (ps & _ & H).
      apply bind_Done in H as (son & _ & H).
      rewrite (IH _ _ _ _ _ H). apply erase_updVertex.
Qed.

Lemma leafNumberVertexLevels_frame count : ∀ g n g' n',
  leafNumberVertexLevels count g n = Done (g', n') →
  eraseVertexLeafIndex g' = eraseVertexLeafIndex g.
Proof.
  induction count as [|i IH]; intros g n g' n' H; simpl in H.
  - by injection H as <- <-.
  - apply bind_Done in H as (lev & _ & H).
    apply bind_Done_pair in H as (g1 & n1 & H1 & H).
    rewrite (IH _ _ _ _ H). eapply leafNumberVertices_frame, H1.
Qed.

Lemma erase_frame g1 g2 :
  eraseVertexLeafIndex g1 = eraseVertexLeafIndex g2 →
  map edges g1 = map edges g2 ∧ map elements g1 = map elements g2
  ∧ length g1 = length g2.
Proof.
  intros H.
  assert (∀ g, map edges (eraseVertexLeafIndex g) = map edges g) as He.
  { intros g. unfold eraseVertexLeafIndex. rewrite map_map. done. }
  assert (∀ g, map elements (eraseVertexLeafIndex g) = map elements g) as Hl.
  { intros g. unfold eraseVertexLeafIndex. rewrite map_map. done. }
  rewrite <- (He g1), <- (He g2), <- (Hl g1), <- (Hl g2), H.
  repeat split. apply (f_equal length) in H.
  unfold eraseVertexLeafIndex in H. by rewrite !length_map in H.
Qed.

Lemma bothDone_mono {A} (R Q : A → A → Prop) (o1 o2 : outcome A) :
  (∀ a1 a2, R a1 a2 → Q a1 a2) → bothDone R o1 o2 → bothDone Q o1 o2.
Proof. destruct o1, o2; simpl; auto. Qed.

(** Run on two grids that agree but for leaf indices still to be written,
    the vertex loop of a level fails on both or leaves them agreeing on the
    level as well. *)
Lemma leafNumberVertices_agree i todo : ∀ g1 g2 j n,
  agreeFrom i j g1 g2 → vertexSonsDeeper g1 →
  bothDone (λ r1 r2, r1.2 = r2.2 ∧ agreeFrom i (j + todo) r1.1 r2.1
                    ∧ vertexSonsDeeper r1.1
                    ∧ eraseVertexLeafIndex r1.1 = eraseVertexLeafIndex g1)
    (leafNumberVertices g1 i todo j n) (leafNumberVertices g2 i todo j n).
Proof.
  induction todo as [|todo IH]; intros g1 g2 j n [Herase Hagree] Hwf; simpl.
  - rewrite Nat.add_0_r. done.
  - pose proof (erase_same_vertex g1 g2 (i, j) Herase) as Hsame.
    destruct (getVertex g1 (i, j)) as [v1|] eqn:Hv1,
             (getVertex g2 (i, j)) as [v2|] eqn:Hv2; try done.
    destruct Hsame as [Hson Hset]. simpl.
    assert (vertex_isLeaf v2 = vertex_isLeaf v1) as ->.
    { unfold vertex_isLeaf. by rewrite Hson. }
    assert (Hnext : ∀ x,
      agreeFrom i (S j) (updVertex (vertex_setLeafIndex x) (i, j) g1)
        (updVertex (vertex_setLeafIndex x) (i, j) g2)).
    { intros x. split; [by rewrite !erase_updVertex|].
      intros l k Hlk. rewrite !getVertex_updVertex.
      case_decide as Heq.
      - injection Heq as <- <-. rewrite Hv1, Hv2. simpl. by rewrite Hset.
      - apply Hagree. destruct Hlk as [?|[-> ?]]; [by left|right].
        split; [done|]. assert (k ≠ j) by congruence. lia. }
    assert (Hstep : ∀ x n',
      bothDone (λ r1 r2, r1.2 = r2.2 ∧ agreeFrom i (j + S todo) r1.1 r2.1
                    ∧ vertexSonsDeeper r1.1
                    ∧ eraseVertexLeafIndex r1.1 = eraseVertexLeafIndex g1)
        (leafNumberVertices (updVertex (vertex_setLeafIndex x) (i, j) g1)
           i todo (S j) n')
        (leafNumberVertices (updVertex (vertex_setLeafIndex x) (i, j) g2)
           i todo (S j) n')).
    { intros x n'. eapply bothDone_mono;
        [|apply IH; [apply Hnext|by apply vertexSonsDeeper_updVertex]].
      intros r1 r2 (? & ? & ? & He). rewrite <- Nat.add_succ_comm.
      split; [done|]. split; [done|]. split; [done|].
      by rewrite He, erase_updVertex. }
    destruct (vertex_isLeaf v1) eqn:Hleaf; [apply Hstep|].
    rewrite <- Hson. destruct (v_son_ v1) as [ps|] eqn:Hps; [|done]. simpl.
    assert (getVertex g2 ps = getVertex g1 ps) as ->.
    { destruct ps as [l k]. symmetry. apply Hagree. left.
      apply (Hwf (i, j) v1 (l, k) Hv1 Hps). }
    destruct (getVertex g1 ps) as [son|]; [|done]. simpl. apply Hstep.
Qed.

Lemma bothDone_bind {A B} (R : A → A → Prop) (Q : B → B → Prop)
    (o1 o2 : outcome A) (f1 f2 : A → outcome B) :
  bothDone R o1 o2 →
  (∀ a1 a2, R a1 a2 → bothDone Q (f1 a1) (f2 a2)) →
  bothDone Q (o1 ≫= f1) (o2 ≫= f2).
Proof. destruct o1, o2; simpl; try done. intros H Hf. by apply Hf. Qed.

Lemma erase_lookup_level g1 g2 l :
  eraseVertexLeafIndex g1 = eraseVertexLeafIndex g2 →
  match g1 !! l, g2 !! l with
  | Some lev1, Some lev2 =>
      length (vertices lev1) = length (vertices lev2)
      ∧ edges lev1 = edges lev2 ∧ elements lev1 = elements lev2
  | None, None => True
  | _, _ => False
  end.
Proof.
  intros H. apply (f_equal (λ g, g !! l)) in H.
  unfold eraseVertexLeafIndex in H.
  change (map ?f ?l) with (f <$> l) in H. rewrite !list_lookup_fmap in H.
  destruct (g1 !! l) as [lev1|], (g2 !! l) as [lev2|]; simpl in H; try done.
  injection H as Hv He Hl. apply (f_equal length) in Hv.
  by rewrite !length_map in Hv.
Qed.

Lemma leafNumberVertexLevels_agree count : ∀ g1 g2 n,
  agreeLevels count g1 g2 → vertexSonsDeeper g1 →
  bothDone (λ r1 r2, r1.2 = r2.2 ∧ agreeLevels 0 r1.1 r2.1)
    (leafNumberVertexLevels count g1 n) (leafNumberVertexLevels count g2 n).
Proof.
  induction count as [|i IH]; intros g1 g2 n Hagree Hwf; simpl; [done|].
  pose proof (erase_lookup_level g1 g2 i (proj1 Hagree)) as Hlev.
  destruct (g1 !! i) as [lev1|] eqn:H1, (g2 !! i) as [lev2|] eqn:H2;
    try done. simpl.
  destruct Hlev as (Hlen & _). rewrite <- Hlen.
  eapply bothDone_bind.
  - apply leafNumberVertices_agree; [|done].
    destruct Hagree as [He Ha]. split; [done|].
    intros l k [Hl|[-> Hk]]; [|lia]. apply Ha. lia.
  - intros [g1' n1] [g2' n2] (Hn & [He Ha] & Hwf' & He1). simpl in *.
    subst n2. apply IH; [|done]. split; [done|].
    intros l k Hl.
    destruct (decide (l = i)) as [->|Hne]; [|apply Ha; left; lia].
    destruct (decide (k < length (vertices lev1))) as [Hlt|Hge];
      [apply Ha; right; split; [done|lia]|].
    (* past the end of the level's list on both sides *)
    assert (getVertex g1 (i, k) = None) as Hk1.
    { unfold getVertex. simpl. rewrite H1. simpl. apply lookup_ge_None. lia. }
    assert (∀ g, eraseVertexLeafIndex g = eraseVertexLeafIndex g1 →
                 getVertex g (i, k) = None) as Hnone.
    { intros g Hg. pose proof (erase_same_vertex g g1 (i, k) Hg) as Hs.
      rewrite Hk1 in Hs. by destruct (getVertex g (i, k)). }
    rewrite (Hnone g1') by done. rewrite (Hnone g2'); [done|congruence].
Qed.

(** Grids that differ in no leaf index of a vertex are equal. *)
Lemma agreeLevels_0_eq g1 g2 : agreeLevels 0 g1 g2 → g1 = g2.
Proof.
  intros [He Ha]. apply list_eq. intros l.
  pose proof (erase_lookup_level g1 g2 l He) as Hl.
  destruct (g1 !! l) as [lev1|] eqn:H1, (g2 !! l) as [lev2|] eqn:H2;
    try done.
  destruct Hl as (_ & Hed & Hel). f_equal.
  destruct lev1 as [vs1 es1 els1], lev2 as [vs2 es2 els2]. simpl in *.
  subst. f_equal. apply list_eq. intros k.
  specialize (Ha l k (Nat.le_0_l l)). unfold getVertex in Ha. simpl in Ha.
  by rewrite H1, H2 in Ha.
Qed.

(** A grid whose vertices carry the indices of the pass is left as it is
    by the pass. *)
Lemma leafNumberVertexLevels_idem g n g' n' :
  vertexSonsDeeper g →
  leafNumberVertexLevels (length g) g n = Done (g', n') →
  leafNumberVertexLevels (length g') g' n = Done (g', n').
Proof.
  intros Hwf H.
  pose proof (leafNumberVertexLevels_frame _ _ _ _ _ H) as He.
  destruct (erase_frame _ _ He) as (_ & _ & Hlen). rewrite Hlen.
  assert (agreeLevels (length g) g g') as Hagree.
  { split; [done|]. intros l k Hl.
    pose proof (erase_lookup_level g g' l (eq_sym He)) as Hlev.
    unfold getVertex. simpl.
    rewrite (lookup_ge_None_2 g l) in * by done.
    by destruct (g' !! l). }
  pose proof (leafNumberVertexLevels_agree (length g) g g' n Hagree Hwf) as Hb.
  rewrite H in Hb.
  destruct (leafNumberVertexLevels (length g) g' n) as [[g'' n'']| | | |];
    try done.
  simpl in Hb. destruct Hb as [<- Heq]. by rewrite (agreeLevels_0_eq _ _ Heq).
Qed.

(** When every vertex is a leaf, the vertex loops run to their end. *)
Lemma leafNumberVertices_Done i todo : ∀ g j n,
  (∀ p v, getVertex g p = Some v → vertex_isLeaf v = true) →
  (∀ k, j ≤ k < j + todo → is_Some (getVertex g (i, k))) →
  ∃ g', leafNumberVertices g i todo j n = Done (g', n + todo).
Proof.
  induction todo as [|todo IH]; intros g j n Hleaf Hsome; simpl.
  - exists g. by rewrite Nat.add_0_r.
  - destruct (Hsome j) as [v Hv]; [lia|]. rewrite Hv. simpl.
    rewrite (Hleaf _ _ Hv).
    destruct (IH (updVertex (vertex_setLeafIndex (Some n)) (i, j) g) (S j)
                (S n)) as (g' & ->).
    + intros p v0 Hp. rewrite getVertex_updVertex in Hp.
      case_decide; [|by eapply Hleaf].
      destruct (getVertex g p) as [v1|] eqn:H1; [|done]. injection Hp as <-.
      apply (Hleaf _ _ H1).
    + intros k Hk. rewrite getVertex_updVertex.
      case_decide; [|apply Hsome; lia].
      destruct (Hsome k) as [v1 ->]; [lia|]. by eexists.
    + exists g'. by rewrite Nat.add_succ_r.
Qed.

Lemma leafNumberVertexLevels_Done count : ∀ g n,
  (∀ p v, getVertex g p = Some v → vertex_isLeaf v = true) →
  count ≤ length g →
  ∃ g' n', leafNumberVertexLevels count g n = Done (g', n').
Proof.
  induction count as [|i IH]; intros g n Hleaf Hlen; simpl;
    [by eexists _, _|].
  destruct (lookup_lt_is_Some_2 g i) as [lev Hlev]; [lia|].
  rewrite Hlev. simpl.
  destruct (leafNumberVertices_Done i (length (vertices lev)) g 0 n Hleaf)
    as (g1 & H1).
  { intros k Hk. unfold getVertex. simpl. rewrite Hlev. simpl.
    apply lookup_lt_is_Some_2. lia. }
  rewrite H1. simpl.
  pose proof (leafNumberVertices_frame _ _ _ _ _ _ _ H1) as He.
  destruct (erase_frame _ _ He) as (_ & _ & Hlen1).
  apply IH; [|lia].
  intros p v Hv. pose proof (erase_same_vertex g1 g p He) as Hs.
  rewrite Hv in Hs. destruct (getVertex g p) as [v0|] eqn:H0; [|done].
  destruct Hs as [Hson _]. unfold vertex_isLeaf. rewrite Hson.
  apply (Hleaf _ _ H0).
Qed.


(** ** Running an index pass twice *)

Lemma getVertex_vertices g1 g2 p :
  map vertices g1 = map vertices g2 → getVertex g1 p = getVertex g2 p.
Proof.
  intros H. apply (f_equal (λ l, l !! p.1)) in H.
  change (map ?f ?l) with (f <$> l) in H. rewrite !list_lookup_fmap in H.
  unfold getVertex.
  destruct (g1 !! p.1) as [l1|], (g2 !! p.1) as [l2|]; simpl in *; try done.
  by injection H as ->.
Qed.

Lemma FoamGridLeafIndexSet_update_idem ndebug self grid grid1 self1 :
  vertexSonsDeeper grid →
  FoamGridLeafIndexSet_update ndebug self grid = Done (grid1, self1) →
  FoamGridLeafIndexSet_update ndebug self1 grid1 = Done (grid1, self1).
Proof.
  intros Hwf H. unfold FoamGridLeafIndexSet_update in *.
  pose proof (leafNumberElementLevels_frame grid 0) as [Hv1 He1].
  pose proof (leafNumberElementLevels_fixed grid 0) as Hfix1.
  destruct (leafNumberElementLevels grid 0) as [g1 nEl]. simpl in *.
  apply bind_Done_pair in H as (g2 & nEd & H2 & H).
  apply bind_Done_pair in H as (g3 & nV & H3 & H).
  injection H as <- <-.
  destruct (leafNumberEdgeLevels_frame _ _ _ _ _ _ H2)
    as (Hv2 & Hel2 & Hlen2 & _).
  pose proof (leafNumberVertexLevels_frame _ _ _ _ _ H3) as Herase.
  destruct (erase_frame _ _ Herase) as (Hed3 & Hel3 & Hlen3).
  rewrite (Hfix1 g3) by congruence.
  rewrite Hlen3, Hlen2.
  rewrite (leafNumberEdgeLevels_fixed _ _ _ _ _ _ g3 H2) by done. simpl.
  rewrite (leafNumberVertexLevels_idem g2 0 g3 nV); [done| |done].
  intros p v q Hp. rewrite (getVertex_vertices g2 grid) in Hp by congruence.
  by apply Hwf.
Qed.


(** C8. Run again on its own result, with no change to the grid in
    between, the level index pass of a level [L] returns the same grid and
    the same index set: the same [levelIndex_] on every entity, the same
    counts and the same geometry types; and so does the leaf index pass
    ([leafIndex_], [size_], [myTypes_]) on a grid in which the successor of
    a vertex lies on a deeper level. *)
Theorem index_passes_idempotent (ndebug : bool) (grid grid1 grid2 : EntityImps)
    (levelSet levelSet1 : FoamGridLevelIndexSet)
    (leafSet leafSet2 : FoamGridLeafIndexSet) (L : nat) :
  vertexSonsDeeper grid →
  FoamGridLevelIndexSet_update levelSet grid L = Done (grid1, levelSet1) →
  FoamGridLeafIndexSet_update ndebug leafSet grid = Done (grid2, leafSet2) →
  FoamGridLevelIndexSet_update levelSet1 grid1 L = Done (grid1, levelSet1)
  ∧ FoamGridLeafIndexSet_update ndebug leafSet2 grid2 = Done (grid2, leafSet2).
Proof.
  intros Hwf Hlevel Hleaf. split.
  - by eapply FoamGridLevelIndexSet_update_idem.
  - by eapply FoamGridLeafIndexSet_update_idem.
Qed.

(** The theorem at work on the square with a refined vertex, from the
    indices [createGrid] left: both passes run, and both reproduce their
    results. *)
Lemma index_passes_idempotent_witness :
  ∃ grid1 levelSet1 grid2 leafSet2,
    FoamGridLevelIndexSet_update LevelIndexSet_new squareWithRefinedVertex 0
    = Done (grid1, levelSet1)
    ∧ FoamGridLeafIndexSet_update false
        (mkLeafIndexSet [0; 0; 0]%Z [[]; []; []]) squareWithRefinedVertex
      = Done (grid2, leafSet2)
    ∧ (numElements_ levelSet1, numEdges_ levelSet1, numVertices_ levelSet1)
      = (2, 0, 4)
    ∧ size_ leafSet2 = [4; 5; 2]%Z
    ∧ FoamGridLevelIndexSet_update levelSet1 grid1 0 = Done (grid1, levelSet1)
    ∧ FoamGridLeafIndexSet_update false leafSet2 grid2
      = Done (grid2, leafSet2).
Proof.
  eexists _, _, _, _.
  split; [reflexivity|]. split; [reflexivity|].
  split; [reflexivity|]. split; [reflexivity|].
  apply (index_passes_idempotent false squareWithRefinedVertex _ _
           LevelIndexSet_new _ (mkLeafIndexSet [0; 0; 0]%Z [[]; []; []]) _ 0).
  - intros [l k] v q Hv Hq.
    destruct l as [|[|l]]; destruct k as [|[|[|[|k]]]];
      vm_compute in Hv; try discriminate;
      injection Hv as <-; simpl in Hq; try discriminate.
    injection Hq as <-. simpl. lia.
  - reflexivity.
  - reflexivity.
Defined.


(** ** The leaf indices of the edges *)

Lemma edgeVisitOrder_levels count : ∀ g p,
  p ∈ edgeVisitOrder count g → p.1 < count.
Proof.
  induction count as [|i IH]; intros g p Hp; simpl in Hp.
  - by apply elem_of_nil in Hp.
  - apply elem_of_app in Hp as [Hp|Hp]; [|apply IH in Hp; lia].
    destruct (g !! i); [|by apply elem_of_nil in Hp].
    apply list_elem_of_fmap in Hp as (j & -> & _). simpl. lia.
Qed.

Lemma edgeVisitOrder_ext count : ∀ g g',
  (∀ l, l < count → g' !! l = g !! l) →
  edgeVisitOrder count g' = edgeVisitOrder count g.
Proof.
  induction count as [|i IH]; intros g g' H; simpl; [done|].
  rewrite (H i) by lia. f_equal. apply IH. intros l Hl. apply H. lia.
Qed.

(** Where all the edges to visit are leaves, or assertions are off, the
    pass gives the [k]-th edge it visits the index [n + k], leaf or not,
    and touches no other edge. *)
Lemma leafNumberEdgeLevels_spec ndebug count : ∀ g n,
  count ≤ length g →
  ndebug = true ∨ edgesAreLeaves count g →
  ∃ g', leafNumberEdgeLevels ndebug count g n
        = Done (g', n + length (edgeVisitOrder count g))
    ∧ (∀ k p, edgeVisitOrder count g !! k = Some p →
         getEdge g' p = edge_setLeafIndex (Some (n + k)) <$> getEdge g p)
    ∧ (∀ p, count ≤ p.1 → getEdge g' p = getEdge g p).
Proof.
  induction count as [|i IH]; intros g n Hlen Hleaf; simpl.
  - exists g. rewrite Nat.add_0_r. split; [done|]. split; [|done].
    intros k p H. by rewrite lookup_nil in H.
  - destruct (lookup_lt_is_Some_2 g i) as [lev Hlev]; [lia|].
    rewrite Hlev. simpl.
    destruct (leafNumberEdges_Done ndebug (edges lev) n) as (es' & Hes).
    { destruct Hleaf as [?|Hleaf]; [by left|right].
      apply (Hleaf i); [lia|done]. }
    rewrite Hes. simpl.
    destruct (leafNumberEdges_inv _ _ _ _ _ Hes) as (_ & Hlook & _).
    set (g1 := <[i := setEdges es' lev]> g).
    assert (Hlow : ∀ l, l < i → g1 !! l = g !! l).
    { intros l Hl. unfold g1. rewrite list_lookup_insert_ne by lia. done. }
    destruct (IH g1 (n + length (edges lev))) as (g' & Hrun & Hvis & Hrest).
    { unfold g1. rewrite length_insert. lia. }
    { destruct Hleaf as [?|Hleaf]; [by left|right].
      intros l lev' Hl Hl'. rewrite Hlow in Hl' by done.
      apply (Hleaf l); [lia|done]. }
    rewrite (edgeVisitOrder_ext i g g1 Hlow) in Hrun, Hvis.
    assert (Hi : ∀ j, getEdge g' (i, j)
                      = edge_setLeafIndex (Some (n + j)) <$> getEdge g (i, j)).
    { intros j. rewrite Hrest by done. unfold getEdge, g1. simpl.
      assert (i < length g) as Hii by lia.
      rewrite list_lookup_insert_eq by done. rewrite Hlev. simpl. apply Hlook. }
    exists g'. split; [|split].
    + rewrite Hrun, length_app, length_map, length_seq. do 2 f_equal. lia.
    + intros k p Hp.
      destruct (decide (k < length (edges lev))) as [Hk|Hk].
      * rewrite lookup_app_l in Hp by (by rewrite length_map, length_seq).
        rewrite list_lookup_fmap, lookup_seq_lt in Hp by done.
        injection Hp as <-. apply Hi.
      * rewrite lookup_app_r in Hp by (rewrite length_map, length_seq; lia).
        rewrite length_map, length_seq in Hp.
        rewrite (Hvis _ _ Hp).
        assert (p.1 < i) as Hpi.
        { eapply edgeVisitOrder_levels, list_elem_of_lookup_2, Hp. }
        unfold getEdge. rewrite Hlow by done.
        replace (n + length (edges lev) + (k - length (edges lev)))
          with (n + k) by lia. done.
    + intros p Hp. rewrite Hrest by lia. unfold getEdge, g1.
      rewrite list_lookup_insert_ne by lia. done.
Qed.





(** ** The index passes within [createGrid] *)

Lemma getEdge_edges g1 g2 p :
  map edges g1 = map edges g2 → getEdge g1 p = getEdge g2 p.
Proof.
  intros H. apply (f_equal (λ l, l !! p.1)) in H.
  change (map ?f ?l) with (f <$> l) in H. rewrite !list_lookup_fmap in H.
  unfold getEdge.
  destruct (g1 !! p.1) as [l1|], (g2 !! p.1) as [l2|]; simpl in *; try done.
  by injection H as ->.
Qed.

Lemma getElement_elements g1 g2 p :
  map elements g1 = map elements g2 → getElement g1 p = getElement g2 p.
Proof.
  intros H. apply (f_equal (λ l, l !! p.1)) in H.
  change (map ?f ?l) with (f <$> l) in H. rewrite !list_lookup_fmap in H.
  unfold getElement.
  destruct (g1 !! p.1) as [l1|], (g2 !! p.1) as [l2|]; simpl in *; try done.
  by injection H as ->.
Qed.

Lemma vertexSons_leaves g1 g2 :
  vertexSons g1 = vertexSons g2 →
  (∀ p v, getVertex g1 p = Some v → vertex_isLeaf v = true) →
  ∀ p v, getVertex g2 p = Some v → vertex_isLeaf v = true.
Proof.
  intros H Hleaf p v Hv. apply (f_equal (λ l, l !! p.1)) in H.
  unfold vertexSons in H.
  change (map ?f ?l) with (f <$> l) in H. rewrite !list_lookup_fmap in H.
  unfold getVertex in Hv, Hleaf.
  destruct (g2 !! p.1) as [l2|] eqn:H2; [|done]. simpl in *.
  destruct (g1 !! p.1) as [l1|] eqn:H1; [|done]. simpl in *.
  injection H as H. apply (f_equal (λ l, l !! p.2)) in H.
  change (map ?f ?l) with (f <$> l) in H. rewrite !list_lookup_fmap in H.
  rewrite Hv in H. destruct (vertices l1 !! p.2) as [v1|] eqn:Hv1; [|done].
  simpl in H. injection H as H.
  specialize (Hleaf p v1). rewrite H1 in Hleaf. simpl in Hleaf.
  specialize (Hleaf Hv1). unfold vertex_isLeaf in *. by rewrite <- H.
Qed.

Lemma numberVertices_sons vs n :
  map v_son_ (numberVertices vs n).1 = map v_son_ vs.
Proof.
  pose proof (numberVertices_shape vs n) as H.
  apply (f_equal (map snd)) in H. by rewrite !map_map in H.
Qed.

Lemma updateLevelIndexSets_spec count : ∀ imps sets i,
  i + count ≤ length imps →
  ∃ imps' sets', updateLevelIndexSets imps sets i count = Done (imps', sets')
    ∧ map edges imps' = map edges imps
    ∧ vertexSons imps' = vertexSons imps
    ∧ length imps' = length imps.
Proof.
  induction count as [|count IH]; intros imps sets i Hlen; simpl;
    [by eexists _, _|].
  destruct (lookup_lt_is_Some_2 imps i) as [lev Hlev]; [lia|].
  rewrite (FoamGridLevelIndexSet_update_Done _ _ _ _ Hlev). simpl.
  destruct (IH (<[i := mkLevel (numberVertices (vertices lev) 0).1 (edges lev)
                        (numberElements (elements lev) 0).1]> imps)
              (tail sets) (S i)) as (imps' & sets' & -> & He & Hs & Hl).
  { rewrite length_insert. lia. }
  simpl. eexists _, _. split; [done|].
  rewrite He, Hs, Hl, length_insert. unfold vertexSons.
  rewrite !(insert_level_frame _ imps i lev); try done.
  simpl. apply numberVertices_sons.
Qed.

(** The leaf pass leaves of an edge all but its leaf index. *)
Lemma leafNumberEdgeLevels_edges {A} (f : FoamGridEdge → A) ndebug count :
  (∀ x e, f (edge_setLeafIndex x e) = f e) →
  ∀ g n g' n', leafNumberEdgeLevels ndebug count g n = Done (g', n') →
  ∀ p, f <$> getEdge g' p = f <$> getEdge g p.
Proof.
  intros Hf. induction count as [|i IH]; intros g n g' n' H p; simpl in H.
  - by injection H as <- <-.
  - apply bind_Done in H as (lev & Hlev & H). apply deref_Done in Hlev.
    apply bind_Done_pair in H as (es & n1 & Hes & H).
    rewrite (IH _ _ _ _ H).
    destruct (leafNumberEdges_inv _ _ _ _ _ Hes) as (_ & Hlook & _).
    unfold getEdge. destruct (decide (p.1 = i)) as [->|Hne].
    + rewrite list_lookup_insert_eq by (eapply lookup_lt_Some, Hlev).
      rewrite Hlev. simpl. rewrite Hlook.
      destruct (edges lev !! p.2); simpl; [|done]. by rewrite Hf.
    + by rewrite list_lookup_insert_ne.
Qed.

(** On a grid whose edges and vertices are all leaves, [setIndices] runs
    to its end; it keeps the levels, and of every edge all but its
    indices. *)
Lemma setIndices_spec {A} (f : FoamGridEdge → A) ndebug grid :
  (∀ x e, f (edge_setLeafIndex x e) = f e) →
  edgesAreLeaves (length (entityImps_ grid)) (entityImps_ grid) →
  (∀ p v, getVertex (entityImps_ grid) p = Some v → vertex_isLeaf v = true) →
  ∃ grid1, setIndices ndebug grid = Done grid1
    ∧ length (entityImps_ grid1) = length (entityImps_ grid)
    ∧ freeIdCounter_ grid1 = freeIdCounter_ grid
    ∧ ∀ p, f <$> getEdge (entityImps_ grid1) p
           = f <$> getEdge (entityImps_ grid) p.
Proof.
  intros Hf Hedges Hverts. unfold setIndices.
  destruct (updateLevelIndexSets_spec (length (entityImps_ grid))
              (entityImps_ grid) (levelIndexSets_ grid) 0)
    as (imps1 & sets & -> & He1 & Hs1 & Hl1); [lia|].
  simpl. unfold FoamGridLeafIndexSet_update.
  pose proof (leafNumberElementLevels_frame imps1 0) as [Hv2 He2].
  destruct (leafNumberElementLevels imps1 0) as [g1 nEl]. simpl in *.
  assert (length g1 = length imps1) as Hl2.
  { apply (f_equal length) in He2. by rewrite !length_map in He2. }
  destruct (leafNumberEdgeLevels_spec ndebug (length g1) g1 0)
    as (g2 & H2 & _); [lia| |].
  { right. intros l lev Hl Hlev.
    assert (map edges g1 !! l = Some (edges lev)) as Hx.
    { by rewrite list_lookup_fmap, Hlev. }
    rewrite He2, He1, list_lookup_fmap in Hx.
    destruct (entityImps_ grid !! l) as [lev0|] eqn:H0; [|done].
    injection Hx as <-. apply (Hedges l); [lia|done]. }
  rewrite H2. simpl.
  destruct (leafNumberEdgeLevels_frame _ _ _ _ _ _ H2) as (Hv3 & _ & Hl3 & _).
  destruct (leafNumberVertexLevels_Done (length g2) g2 0) as (g3 & nV & H3);
    [|lia|].
  { apply (vertexSons_leaves (entityImps_ grid)); [|done].
    rewrite <- Hs1. unfold vertexSons.
    rewrite <- !(map_map vertices (map v_son_)). by rewrite Hv3, Hv2. }
  rewrite H3. simpl. eexists. split; [done|]. simpl.
  pose proof (leafNumberVertexLevels_frame _ _ _ _ _ H3) as Herase.
  destruct (erase_frame _ _ Herase) as (He4 & _ & Hl4).
  split; [congruence|]. split; [done|]. intros p.
  rewrite (getEdge_edges g3 g2) by done.
  rewrite (leafNumberEdgeLevels_edges f _ _ Hf _ _ _ _ H2).
  rewrite (getEdge_edges g1 imps1) by done.
  by rewrite (getEdge_edges imps1 (entityImps_ grid)).
Qed.


(** ** [createGrid] on a coarse mesh *)

Lemma setBoundaryIds_from es : ∀ n k,
  setBoundaryIds es (wrapUnsigned n) !! k
  = edge_setBoundaryId (Some (wrapUnsigned (n + k))) <$> es !! k.
Proof.
  induction es as [|e es IH]; intros n k; simpl; [done|].
  destruct k as [|k]; simpl; [by rewrite Nat.add_0_r|].
  rewrite wrapUnsigned_S, IH. by rewrite Nat.add_succ_r.
Qed.

(** The edge at position [k] receives [k], as an [unsigned int]. *)
Lemma setBoundaryIds_lookup es k :
  setBoundaryIds es 0 !! k
  = edge_setBoundaryId (Some (wrapUnsigned k)) <$> es !! k.
Proof. exact (setBoundaryIds_from es 0 k). Qed.

Lemma coarse_threeCorners (tris : list (list nat)) :
  Forall (λ t, length t = 3) tris →
  threeCorners (imap coarseElement tris).
Proof.
  intros Hlen el Hel. apply list_elem_of_lookup in Hel as (k & Hk).
  rewrite list_lookup_imap in Hk.
  destruct (tris !! k) as [t|] eqn:Ht; [|done]. injection Hk as <-.
  rewrite Forall_lookup in Hlen. specialize (Hlen _ _ Ht).
  destruct t as [|a [|b [|c [|]]]]; try done. simpl. eauto.
Qed.

(** [createGrid] on the factory of a coarse mesh: it runs to its end and
    hands over a grid of one level, whose edges are those of the edge loop
    ([levE], with the invariant of the loop), each with its position, as
    an [unsigned int], as boundary id. *)
Lemma createGrid_coarse ndebug nv (tris : list (list nat)) :
  Forall (λ t, length t = 3) tris →
  ∃ grid f' lev st levE,
    createGrid ndebug (coarseFactory nv tris) = Done (Some grid, f')
    ∧ entityImps_ grid = [lev]
    ∧ EdgeInv (mkLevel (map coarseVertex (seq 0 nv)) []
                 (imap coarseElement tris))
        (allEdgePairs (imap coarseElement tris)) st
    ∧ eb_imps st = [levE]
    ∧ ∀ k, edges lev !! k
           = (λ e, edge_setBoundaryId (Some (wrapUnsigned k))
                     (edge_setLeafIndex (e_leafIndex_ e) e)) <$> edges lev !! k
        ∧ (λ e, (e_vertex_ e, e_elements_ e)) <$> edges lev !! k
          = (λ e, (e_vertex_ e, e_elements_ e)) <$> edges levE !! k.
Proof.
  intros Hlen. unfold createGrid, coarseFactory. simpl.
  set (lev0 := mkLevel (map coarseVertex (seq 0 nv)) []
                 (imap coarseElement tris)).
  destruct (createEdges_spec lev0
              [wrapUnsigned nv; 0; wrapUnsigned (length tris)] eq_refl
              (coarse_threeCorners tris Hlen)) as (st & -> & Hinv).
  simpl. pose proof Hinv as (levE & HlevE & Hverts & _ & _ & _ & _ & Hsize & _).
  destruct (setIndices_spec (λ e, (e_vertex_ e, e_elements_ e, e_boundaryId_ e))
              ndebug
              (mkFoamGrid (eb_imps st) (eb_counters st) []
                 (mkLeafIndexSet [0; 0; 0]%Z [[]; []; []])))
    as (grid1 & -> & Hl1 & _ & Hedges).
  - done.
  - simpl. rewrite HlevE. intros l lev Hl Hlev.
    destruct l as [|l]; [|simpl in Hl; lia]. injection Hlev as <-.
    apply Forall_lookup. intros k ed Hk. by destruct (Hsize k ed Hk) as (_ & _ & ?).
  - simpl. rewrite HlevE. intros [l k] v Hv. unfold getVertex in Hv.
    destruct l as [|l]; [|done]. simpl in Hv. rewrite Hverts in Hv.
    unfold lev0 in Hv. simpl in Hv. rewrite list_lookup_fmap in Hv.
    destruct (seq 0 nv !! k); [|done]. by injection Hv as <-.
  - simpl in Hl1, Hedges. rewrite HlevE in Hl1, Hedges. simpl in Hl1.
    destruct (entityImps_ grid1) as [|lev1 [|? ?]] eqn:Hg1; try done.
    eexists _, _, _, st, levE. split; [simpl; rewrite Hg1; simpl; reflexivity|]. simpl.
    split; [done|]. split; [done|]. split; [done|].
    intros k. simpl. rewrite setBoundaryIds_lookup. simpl.
    specialize (Hedges (0, k)). unfold getEdge in Hedges. simpl in Hedges.
    destruct (edges lev1 !! k) as [e1|], (edges levE !! k) as [eE|];
      simpl in *; try done.
    injection Hedges as Hv He Hb. split; [by destruct e1|by rewrite Hv, He].
Qed.


(** ** Counting the elements at an edge *)

Lemma allEdgePairs_coarse (tris : list (list nat)) :
  allEdgePairs (imap coarseElement tris)
  = concat (map (λ t, edgePairs (map (λ i, (0, i)) t)) tris).
Proof.
  unfold allEdgePairs. f_equal. apply list_eq. intros k.
  change (map ?f ?l) with (f <$> l).
  rewrite !list_lookup_fmap, list_lookup_imap.
  by destruct (tris !! k).
Qed.

(** A triangle has the edge between two vertices at most once, and only
    when it has both vertices. *)
Lemma countPair_triangle (a b c : nat) (l1 x l2 y : nat) :
  NoDup [a; b; c] →
  countPair (edgePairs (map (λ i, (0, i)) [a; b; c])) ((l1, x), (l2, y))
  ≤ (if decide (x ∈ [a; b; c] ∧ y ∈ [a; b; c]) then 1 else 0)
  ∧ (x = y →
     countPair (edgePairs (map (λ i, (0, i)) [a; b; c])) ((l1, x), (l2, y)) = 0).
Proof.
  intros Hnd. apply NoDup_cons in Hnd as [Ha Hnd].
  apply NoDup_cons in Hnd as [Hb _].
  assert (a ≠ b ∧ a ≠ c ∧ b ≠ c) as (Hab & Hac & Hbc) by set_solver.
  simpl. rewrite edgePairs_three. unfold countPair.
  rewrite !filter_cons, filter_nil. unfold samePair. simpl.
  split.
  - repeat case_decide; simpl; try lia;
      repeat match goal with
             | H : _ ∨ _ |- _ => destruct H
             | H : (_, _) = (_, _) |- _ => injection H as ? ?
             | H : ¬ (_ ∧ _) |- _ => destruct H
             end; subst; try congruence; set_solver.
  - intros ->. repeat case_decide; simpl; try lia;
      repeat match goal with
             | H : _ ∨ _ |- _ => destruct H
             | H : (_, _) = (_, _) |- _ => injection H as ? ?
             end; subst; congruence.
Qed.

Lemma countPair_triangles (tris : list (list nat)) (key : Ptr * Ptr) :
  Forall (λ t, length t = 3) tris →
  Forall NoDup tris →
  (∀ a b, a ≠ b → trianglesSharing tris a b ≤ 2) →
  countPair (allEdgePairs (imap coarseElement tris)) key ≤ 2.
Proof.
  intros Hlen Hnd Hshare. rewrite allEdgePairs_coarse.
  destruct key as [[l1 x] [l2 y]].
  assert (Hsum : ∀ ts, Forall (λ t, length t = 3) ts → Forall NoDup ts →
    countPair (concat (map (λ t, edgePairs (map (λ i, (0, i)) t)) ts))
      ((l1, x), (l2, y)) ≤ trianglesSharing ts x y
    ∧ (x = y →
       countPair (concat (map (λ t, edgePairs (map (λ i, (0, i)) t)) ts))
         ((l1, x), (l2, y)) = 0)).
  { induction ts as [|t ts IH]; intros Hl Hn; [done|].
    apply Forall_cons in Hl as [Ht Hl]. apply Forall_cons in Hn as [Hnt Hn].
    destruct (IH Hl Hn) as [IH1 IH2].
    destruct t as [|a [|b [|c [|]]]]; try done.
    destruct (countPair_triangle a b c l1 x l2 y Hnt) as [H1 H2].
    cbn [map concat] in *. rewrite countPair_app. unfold trianglesSharing in *.
    rewrite filter_cons. cbv beta.
    destruct (decide (x ∈ [a; b; c] ∧ y ∈ [a; b; c])); simpl length; split.
    - lia.
    - intros Hxy. rewrite H2, IH2 by done. done.
    - lia.
    - intros Hxy. rewrite H2, IH2 by done. done. }
  destruct (Hsum tris Hlen Hnd) as [H1 H2].
  destruct (decide (x = y)) as [Hxy|Hxy]; [rewrite H2 by done; lia|].
  specialize (Hshare x y Hxy). lia.
Qed.

Lemma callsWellFormed_triangles cs : ∀ nv,
  callsWellFormed nv cs → Forall (λ t, length t = 3) (trianglesOf cs).
Proof.
  induction cs as [|[|type vs] cs IH]; intros nv Hwf; simpl in *.
  - constructor.
  - by eapply IH.
  - destruct Hwf as (_ & (a & b & c & -> & _) & Hwf). constructor; [done|].
    by eapply IH.
Qed.

(** C5, as the claim states it, fails on a triangle that names a vertex
    twice.  In [degenerateCalls] every triangle names vertices inserted
    before it, and no two vertices belong to more than two triangles; the
    triangle (0,0,1) enters the edge between the vertices 0 and 1 for two of
    its slots, the triangle (1,0,2) for one more: that edge ends with three
    incident elements. *)
Lemma degenerate_triangle_edge_has_three_elements :
  callsWellFormed 0 degenerateCalls
  ∧ (∀ a b, trianglesSharing (trianglesOf degenerateCalls) a b ≤ 2)
  ∧ ∃ f grid f' lev ed,
      runCalls false degenerateCalls GridFactory_new = Done f
      ∧ createGrid false f = Done (Some grid, f')
      ∧ entityImps_ grid = [lev]
      ∧ edges lev !! 1 = Some ed
      ∧ e_vertex_ ed = ((0, 0), (0, 1))
      ∧ e_elements_ ed = [(0, 0); (0, 0); (0, 1)]
      ∧ ¬ (length (e_elements_ ed) = 1 ∨ length (e_elements_ ed) = 2).
Proof.
  split.
  { simpl. repeat split; eexists _, _, _; repeat split; lia. }
  split.
  { intros a b. apply (length_filter _ [[0; 0; 1]; [1; 0; 2]]). }
  eexists _, _, _, _, _.
  split; [vm_compute; reflexivity|]. split; [vm_compute; reflexivity|].
  split; [reflexivity|]. split; [reflexivity|].
  split; [reflexivity|]. split; [reflexivity|].
  simpl. lia.
Qed.

(** C5, amended.  For a coarse mesh built through the factory, whose
    triangles name three different vertices inserted before them, and in
    which no two vertices belong to more than two triangles: [createGrid]
    hands over a grid in which every edge has one or two incident elements,
    never none. *)
Theorem coarse_edges_have_one_or_two_elements (ndebug : bool)
    (cs : list FactoryCall) :
  callsWellFormed 0 cs →
  Forall NoDup (trianglesOf cs) →
  (∀ a b, a ≠ b → trianglesSharing (trianglesOf cs) a b ≤ 2) →
  ∃ f grid f' lev,
    runCalls ndebug cs GridFactory_new = Done f
    ∧ createGrid ndebug f = Done (Some grid, f')
    ∧ entityImps_ grid = [lev]
    ∧ ∀ ed, ed ∈ edges lev →
        length (e_elements_ ed) = 1 ∨ length (e_elements_ ed) = 2.
Proof.
  intros Hwf Hnd Hshare.
  pose proof (runCalls_coarse ndebug cs 0 [] Hwf) as Hrun. simpl in Hrun.
  pose proof (callsWellFormed_triangles cs 0 Hwf) as Hlen.
  destruct (createGrid_coarse ndebug (countVertices cs) (trianglesOf cs) Hlen)
    as (grid & f' & lev & st & levE & Hcreate & Hgrid & Hinv & HlevE & Hedges).
  eexists _, grid, f', lev. split; [exact Hrun|]. split; [done|].
  split; [done|]. intros ed Hed.
  apply list_elem_of_lookup in Hed as (k & Hk).
  destruct (Hedges k) as [_ Hsame]. rewrite Hk in Hsame.
  destruct Hinv as (levE' & HlevE' & _ & _ & _ & _ & _ & Hsize & _).
  rewrite HlevE in HlevE'. injection HlevE' as <-.
  destruct (edges levE !! k) as [edE|] eqn:HkE; [|done].
  simpl in Hsame. injection Hsame as Hv He.
  destruct (Hsize k edE HkE) as (Hge & Hcount & _).
  pose proof (countPair_triangles (trianglesOf cs) (e_vertex_ edE) Hlen Hnd
                Hshare) as Hle.
  simpl in Hcount. rewrite He. lia.
Qed.

Lemma squareCalls_wellFormed : callsWellFormed 0 squareCalls.
Proof. simpl. repeat split; eexists _, _, _; repeat split; lia. Qed.

Lemma coarse_edges_have_one_or_two_elements_witness :
  ∃ f grid f' lev,
    runCalls false squareCalls GridFactory_new = Done f
    ∧ createGrid false f = Done (Some grid, f')
    ∧ entityImps_ grid = [lev]
    ∧ ∀ ed, ed ∈ edges lev →
        length (e_elements_ ed) = 1 ∨ length (e_elements_ ed) = 2.
Proof.
  apply (coarse_edges_have_one_or_two_elements false squareCalls).
  - exact squareCalls_wellFormed.
  - apply (bool_decide_unpack _). vm_compute. exact I.
  - intros a b _. apply (length_filter _ [[0; 1; 2]; [1; 3; 2]]).
Defined.

(** C3, as the claim states it, fails on the square: the diagonal, which
    has two incident elements, receives the boundary id 2, and the ids of
    the four boundary edges are 0, 1, 3 and 4. *)
Lemma square_boundary_ids :
  entityImps_ squareGrid = square
  ∧ (e_boundaryId_ <$> getEdge square (0, 2)) = Some (Some 2)
  ∧ (length ∘ e_elements_ <$> getEdge square (0, 2)) = Some 2
  ∧ map (λ ed, (length (e_elements_ ed), e_boundaryId_ ed))
      (default [] (edges <$> square !! 0))
    = [(1, Some 0); (1, Some 1); (2, Some 2); (1, Some 3); (1, Some 4)].
Proof. repeat split. Qed.

(** C3, amended.  After [createGrid] has finalized a coarse mesh, every
    edge, on the boundary or not, carries a boundary id: its position in
    the order in which the edges were created, counted from 0 in the
    [unsigned int boundaryIdCounter], that is, the position modulo 2^32;
    for a mesh of fewer than 2^32 edges, the position itself. *)
Theorem createGrid_numbers_every_edge (ndebug : bool) (cs : list FactoryCall) :
  callsWellFormed 0 cs →
  ∃ f grid f' lev,
    runCalls ndebug cs GridFactory_new = Done f
    ∧ createGrid ndebug f = Done (Some grid, f')
    ∧ entityImps_ grid = [lev]
    ∧ ∀ k ed, edges lev !! k = Some ed →
        e_boundaryId_ ed = Some (wrapUnsigned k)
        ∧ ((Z.of_nat (length (edges lev)) ≤ 2 ^ 32)%Z →
           e_boundaryId_ ed = Some k)
        ∧ 1 ≤ length (e_elements_ ed).
Proof.
  intros Hwf.
  pose proof (runCalls_coarse ndebug cs 0 [] Hwf) as Hrun. simpl in Hrun.
  pose proof (callsWellFormed_triangles cs 0 Hwf) as Hlen.
  destruct (createGrid_coarse ndebug (countVertices cs) (trianglesOf cs) Hlen)
    as (grid & f' & lev & st & levE & Hcreate & Hgrid & Hinv & HlevE & Hedges).
  eexists _, grid, f', lev. split; [exact Hrun|]. split; [done|].
  split; [done|]. intros k ed Hk.
  destruct (Hedges k) as [Hid Hsame]. rewrite Hk in Hid, Hsame.
  simpl in Hid. injection Hid as Hid. split; [by rewrite Hid|]. split.
  { intros Hsmall. rewrite Hid. simpl. apply lookup_lt_Some in Hk.
    rewrite wrapUnsigned_small by lia. done. }
  destruct Hinv as (levE' & HlevE' & _ & _ & _ & _ & _ & Hsize & _).
  rewrite HlevE in HlevE'. injection HlevE' as <-.
  destruct (edges levE !! k) as [edE|] eqn:HkE; [|done].
  simpl in Hsame. injection Hsame as Hv He.
  destruct (Hsize k edE HkE) as (Hge & _). by rewrite He.
Qed.

Lemma createGrid_numbers_every_edge_witness :
  ∃ f grid f' lev,
    runCalls false squareCalls GridFactory_new = Done f
    ∧ createGrid false f = Done (Some grid, f')
    ∧ entityImps_ grid = [lev]
    ∧ ∀ k ed, edges lev !! k = Some ed →
        e_boundaryId_ ed = Some (wrapUnsigned k)
        ∧ ((Z.of_nat (length (edges lev)) ≤ 2 ^ 32)%Z →
           e_boundaryId_ ed = Some k)
        ∧ 1 ≤ length (e_elements_ ed).
Proof.
  exact (createGrid_numbers_every_edge false squareCalls squareCalls_wellFormed).
Defined.


(** ** Hierarchic iterator *)

Lemma represents_unfold g p lvl ts :
  represents g (ENode p lvl ts)
  ↔ (∃ el, getElement g p = Some el ∧ level_ el = lvl
           ∧ sons_ el = map rootOf ts)
    ∧ Forall (represents g) ts.
Proof.
  simpl. apply and_iff_compat_l.
  induction ts as [|t ts IH]; [by split; [constructor|]|].
  rewrite Forall_cons, IH. done.
Qed.

Lemma levelsNested_unfold p lvl ts :
  levelsNested (ENode p lvl ts)
  ↔ Forall (λ t, levelOf t = S lvl ∧ levelsNested t) ts.
Proof.
  simpl. induction ts as [|t ts IH]; [by split; [constructor|]|].
  rewrite Forall_cons, IH. tauto.
Qed.

Lemma nodes_unfold p lvl ts :
  nodes (ENode p lvl ts) = (p, lvl) :: concat (map nodes ts).
Proof. simpl. f_equal. induction ts as [|t ts IH]; simpl; by f_equal. Qed.

Lemma treeSize_unfold p lvl ts :
  treeSize (ENode p lvl ts) = S (sum_list_with treeSize ts).
Proof. reflexivity. Qed.

Lemma preorderBelow_unfold L p lvl ts :
  preorderBelow L (ENode p lvl ts)
  = if decide (Z.of_nat lvl < L)%Z then visitStack L (reverse ts) else [].
Proof.
  simpl. case_decide; [|done]. unfold visitStack.
  induction ts as [|t ts IH]; [done|].
  rewrite reverse_cons, map_app, concat_app, IH. simpl.
  by rewrite app_nil_r.
Qed.

Lemma pushSons_reverse sons stack : pushSons sons stack = reverse sons ++ stack.
Proof.
  unfold pushSons. revert stack.
  induction sons as [|s sons IH]; intros stack; simpl; [done|].
  by rewrite IH, reverse_cons, <- app_assoc.
Qed.

Lemma visitStack_app L s1 s2 :
  visitStack L (s1 ++ s2) = visitStack L s1 ++ visitStack L s2.
Proof. unfold visitStack. by rewrite map_app, concat_app. Qed.

(** What an element puts on the stack, in terms of its tree *)
Lemma loadSons_tree g L p lvl ts el (rest : list ElemTree) :
  getElement g p = Some el → level_ el = lvl → sons_ el = map rootOf ts →
  loadSons L el (map rootOf rest)
  = map rootOf ((if decide (Z.of_nat lvl < L)%Z then reverse ts else []) ++ rest).
Proof.
  intros Hel Hlvl Hsons. unfold loadSons. rewrite Hlvl.
  case_decide; [|done]. unfold element_isLeaf. rewrite Hsons.
  destruct ts as [|t ts]; [done|]. cbn [map negb].
  rewrite pushSons_reverse.
  change (map ?f ?l) with (f <$> l). rewrite fmap_app, fmap_reverse. done.
Qed.

(** From a stack of subtrees of the grid the traversal visits, for any
    bound large enough, each subtree in turn, and ends on the empty
    stack. *)
Lemma hierarchicTraverse_stack g L size : ∀ stack,
  sum_list_with treeSize stack ≤ size →
  Forall (represents g) stack →
  ∀ fuel, size ≤ fuel →
    hierarchicTraverse g fuel
      (mkHierarchicIt L (map rootOf stack) (head (map rootOf stack)))
    = Done (visitStack L stack, mkHierarchicIt L [] None).
Proof.
  induction size as [|size IH]; intros stack Hsize Hrep fuel Hfuel.
  - destruct stack as [|[p lvl ts] rest]; [by destruct fuel|].
    simpl in Hsize. lia.
  - destruct stack as [|[p lvl ts] rest]; [by destruct fuel|].
    destruct fuel as [|fuel]; [lia|].
    apply Forall_cons in Hrep as [Ht Hrest].
    apply represents_unfold in Ht as [(el & Hel & Hlvl & Hsons) Hts].
    cbn [sum_list_with] in Hsize. rewrite treeSize_unfold in Hsize.
    cbn [hierarchicTraverse target_ head map rootOf].
    unfold FoamGridHierarchicIterator_increment. cbn [elemStack maxlevel_].
    rewrite Hel. cbn [deref mbind outcome_bind].
    rewrite (loadSons_tree g L p lvl ts el rest Hel Hlvl Hsons).
    rewrite IH.
    + cbn [mbind outcome_bind]. unfold visitStack at 2. cbn [map concat].
      rewrite preorderBelow_unfold. cbn [rootOf]. rewrite visitStack_app.
      case_decide; simpl; by rewrite ?app_nil_r, ?app_assoc.
    + rewrite sum_list_with_app.
      case_decide; simpl; [|lia]. rewrite sum_list_with_reverse. lia.
    + apply Forall_app. split; [|done].
      case_decide; [|constructor]. by apply Forall_reverse.
    + lia.
Qed.


Lemma ElemTree_ind_Forall (P : ElemTree → Prop) :
  (∀ p lvl ts, Forall P ts → P (ENode p lvl ts)) → ∀ t, P t.
Proof.
  intros H. fix IH 1. intros [p lvl ts]. apply H.
  induction ts as [|t ts IHts]; constructor; [apply IH|apply IHts].
Qed.

Lemma elem_of_concat {A} (x : A) (ls : list (list A)) :
  x ∈ concat ls ↔ ∃ l, x ∈ l ∧ l ∈ ls.
Proof.
  induction ls as [|l ls IH]; simpl.
  - split; [by intros ?%elem_of_nil|]. by intros (l & _ & ?%elem_of_nil).
  - rewrite elem_of_app, IH. split.
    + intros [?|(l' & ? & ?)]; [exists l|exists l']; split; try done;
        [by left|by right].
    + intros (l' & Hx & [->|?]%elem_of_cons); [by left|right; eauto].
Qed.

Lemma filter_none {A} (P : A → Prop) `{∀ x, Decision (P x)} (l : list A) :
  (∀ x, x ∈ l → ¬ P x) → filter P l = [].
Proof.
  induction l as [|x l IH]; intros Hl; [done|].
  rewrite filter_cons_False by (apply Hl; by left).
  apply IH. intros y Hy. apply Hl. by right.
Qed.

Lemma nodes_root t : nodes t = (rootOf t, levelOf t) :: descendants t.
Proof. destruct t as [p lvl ts]. apply nodes_unfold. Qed.

(** No node of a tree lies above its root. *)
Lemma nodes_levels : ∀ t, levelsNested t →
  ∀ n, n ∈ nodes t → levelOf t ≤ n.2.
Proof.
  apply (ElemTree_ind_Forall (λ t, levelsNested t →
           ∀ n, n ∈ nodes t → levelOf t ≤ n.2)).
  intros p lvl ts IH Hnested n Hn. apply levelsNested_unfold in Hnested.
  rewrite nodes_unfold in Hn. simpl.
  apply elem_of_cons in Hn as [->|Hn]; [done|].
  apply elem_of_concat in Hn as (ns & Hn & Hns).
  apply list_elem_of_fmap in Hns as (t & -> & Ht).
  rewrite Forall_forall in IH, Hnested.
  destruct (Hnested t Ht) as [Hlvl Hnt].
  specialize (IH t Ht Hnt n Hn). lia.
Qed.

Lemma NoDup_map_filter {A B} (f : A → B) (P : A → Prop)
    `{∀ x, Decision (P x)} (l : list A) :
  NoDup (map f l) → NoDup (map f (filter P l)).
Proof.
  induction l as [|x l IH]; simpl; [done|].
  intros Hnd. apply NoDup_cons in Hnd as [Hx Hnd].
  rewrite filter_cons. case_decide; [|by apply IH].
  simpl. apply NoDup_cons. split; [|by apply IH].
  intros Hin. apply Hx.
  apply list_elem_of_fmap in Hin as (y & -> & Hy).
  apply list_elem_of_filter in Hy as [_ Hy].
  apply list_elem_of_fmap. eauto.
Qed.

(** Below a node, the traversal order lists the strict descendants of
    level at most [L], each once. *)
Lemma preorderBelow_descendants L : ∀ t, levelsNested t →
  preorderBelow L t ≡ₚ descendantsUpTo L t.
Proof.
  apply (ElemTree_ind_Forall (λ t, levelsNested t →
           preorderBelow L t ≡ₚ descendantsUpTo L t)).
  intros p lvl ts IH Hnested.
  pose proof Hnested as Hsons. apply levelsNested_unfold in Hsons.
  rewrite preorderBelow_unfold. unfold descendantsUpTo, descendants.
  cbn [sonsOf]. case_decide as Hlvl.
  - unfold visitStack.
    change (map ?f (reverse ?l)) with (f <$> reverse l).
    rewrite fmap_reverse, reverse_Permutation.
    change (?f <$> ?l) with (map f l).
    induction ts as [|t ts IHts]; [done|].
    apply Forall_cons in IH as [IHt IH].
    apply Forall_cons in Hsons as [[Ht Hnt] Hsons].
    cbn [map concat]. rewrite filter_app, map_app.
    apply Permutation_app.
    + rewrite nodes_root, filter_cons. rewrite decide_True by (simpl; lia).
      cbn [map fst]. constructor. by apply IHt.
    + apply IHts; [done| |done].
      apply levelsNested_unfold. done.
  - rewrite filter_none; [done|]. intros n Hn.
    apply elem_of_concat in Hn as (ns & Hn & Hns).
    apply list_elem_of_fmap in Hns as (t & -> & Ht).
    rewrite Forall_forall in Hsons. destruct (Hsons t Ht) as [Hl Hnt].
    pose proof (nodes_levels t Hnt n Hn). lia.
Qed.

(** The traversal below [E], from the iterator that has [E] alone on its
    stack: one [increment] replaces [E] by its sons, and the traversal from
    there visits what lies below [E]. *)
Lemma hierarchicTraverse_below g t L :
  represents g t →
  ∃ it1,
    FoamGridHierarchicIterator_increment g (stackedAt (rootOf t) L) = Done it1
    ∧ ∀ fuel, treeSize t ≤ fuel →
        hierarchicTraverse g fuel it1
        = Done (preorderBelow L t, mkHierarchicIt L [] None).
Proof.
  intros Hrep. destruct t as [p lvl ts].
  pose proof Hrep as Hrep'.
  apply represents_unfold in Hrep' as [(el & Hel & Hlvl & Hsons) Hts].
  set (stack := if decide (Z.of_nat lvl < L)%Z then reverse ts else []).
  assert (Forall (represents g) stack) as Hstack.
  { unfold stack. case_decide; [by apply Forall_reverse|constructor]. }
  assert (sum_list_with treeSize stack ≤ treeSize (ENode p lvl ts)) as Hsize.
  { rewrite treeSize_unfold. unfold stack. case_decide; [|simpl; lia].
    assert (sum_list_with treeSize (reverse ts) = sum_list_with treeSize ts)
      as ->; [|lia].
    clear. induction ts as [|t ts IH]; [done|].
    rewrite reverse_cons, sum_list_with_app. simpl. lia. }
  exists (mkHierarchicIt L (map rootOf stack) (head (map rootOf stack))).
  split.
  - unfold FoamGridHierarchicIterator_increment, stackedAt.
    cbn [elemStack maxlevel_ rootOf]. rewrite Hel.
    cbn [deref mbind outcome_bind].
    pose proof (loadSons_tree g L p lvl ts el [] Hel Hlvl Hsons) as Hload.
    cbn [map] in Hload. rewrite Hload. by rewrite app_nil_r.
  - intros fuel Hfuel.
    rewrite (hierarchicTraverse_stack g L _ stack Hsize Hstack fuel Hfuel).
    rewrite preorderBelow_unfold. unfold stack. by case_decide.
Qed.

Lemma refinedElementTree_represents :
  represents refinedElementGrid refinedElementTree.
Proof. simpl. repeat split; eexists; repeat split. Qed.


(** X18. [FoamGridHierarchicIterator::increment] traverses what lies below
    an element that stands alone on the stack.  On a grid that holds the
    refinement tree [t] below the element [E], where a son lies one level
    below its father and no element occurs twice: the first [increment]
    replaces [E] by its sons, and the traversal from there (visit the
    target, [increment], until the target is null) visits, in depth-first
    pre-order, exactly the strict descendants of [E] of level at most [L],
    each once, and ends with an empty stack. *)
Theorem hierarchic_increment_visits_descendants (g : EntityImps)
    (t : ElemTree) (L : Z) :
  represents g t →
  levelsNested t →
  NoDup (map fst (nodes t)) →
  ∃ it1 visited,
    FoamGridHierarchicIterator_increment g (stackedAt (rootOf t) L) = Done it1
    ∧ (∀ fuel, treeSize t ≤ fuel →
         hierarchicTraverse g fuel it1
         = Done (visited, mkHierarchicIt L [] None))
    ∧ visited = preorderBelow L t
    ∧ visited ≡ₚ descendantsUpTo L t
    ∧ NoDup visited.
Proof.
  intros Hrep Hnested Hnd.
  destruct (hierarchicTraverse_below g t L Hrep) as (it1 & Hinc & Htrav).
  pose proof (preorderBelow_descendants L _ Hnested) as Hperm.
  exists it1, (preorderBelow L t).
  split; [done|]. split; [done|]. split; [done|]. split; [done|].
  rewrite Hperm. unfold descendantsUpTo. apply NoDup_map_filter.
  destruct t as [p lvl ts].
  rewrite nodes_root in Hnd. cbn [map] in Hnd.
  by apply NoDup_cons in Hnd as [_ ?].
Qed.

Lemma hierarchic_increment_visits_descendants_witness :
  ∃ it1 visited,
    FoamGridHierarchicIterator_increment refinedElementGrid
      (stackedAt (rootOf refinedElementTree) 2) = Done it1
    ∧ (∀ fuel, treeSize refinedElementTree ≤ fuel →
         hierarchicTraverse refinedElementGrid fuel it1
         = Done (visited, mkHierarchicIt 2 [] None))
    ∧ visited = preorderBelow 2 refinedElementTree
    ∧ visited ≡ₚ descendantsUpTo 2 refinedElementTree
    ∧ NoDup visited.
Proof.
  apply (hierarchic_increment_visits_descendants refinedElementGrid
           refinedElementTree 2).
  - exact refinedElementTree_represents.
  - simpl. repeat split.
  - apply (bool_decide_unpack _). vm_compute. exact I.
Defined.

(** ** The loop over the level intersections of an element *)

Section level_loop.
Context (g : EntityImps) (E : Ptr) (c : FoamGridElement).
Hypothesis HE : getElement g E = Some c.

(** Where a scan from the top of slot [e] stops: at the end, on a
    same-level neighbor, or on a boundary edge; the slots it passed hold
    several elements, none of them a same-level neighbor. *)
Lemma LevelScan_cases e st :
  LevelScan g E (level_ c) e st →
  center_ st = E ∧ e ≤ edgeIndex_ st
  ∧ LevelScan g E (level_ c) (edgeIndex_ st) st
  ∧ ((edgeIndex_ st = corners ∧ neighborIndex_ st = 0)
     ∨ (edgeIndex_ st < corners
        ∧ ∃ els, edgeElements g E (edgeIndex_ st) = Done els
                 ∧ firstSameLevelNeighbor g E (level_ c) els (neighborIndex_ st))
     ∨ (edgeIndex_ st < corners ∧ neighborIndex_ st = 1
        ∧ ∃ els, edgeElements g E (edgeIndex_ st) = Done els
                 ∧ noSameLevelNeighbor g E (level_ c) els ∧ length els = 1))
  ∧ ∀ e', e ≤ e' < edgeIndex_ st →
      ∃ els, edgeElements g E e' = Done els
             ∧ noSameLevelNeighbor g E (level_ c) els ∧ 1 < length els.
Proof.
  induction 1 as [|e els k He Hels Hfirst|e els He Hels Hno Hlen
                  |e els st He Hels Hno Hlen Hrest IH]; simpl.
  - split; [done|]. split; [done|]. split; [constructor|].
    split; [by left|]. intros e' He'. lia.
  - split; [done|]. split; [done|].
    split; [by eapply LevelScan_neighbor|].
    split; [right; left; split; [done|]; by exists els|]. intros e' He'. lia.
  - split; [done|]. split; [done|].
    split; [by eapply LevelScan_boundary|].
    split; [right; right; split; [done|]; split; [done|]; by exists els|].
    intros e' He'. lia.
  - destruct IH as (Hc & Hle & Hself & Hcases & Hskipped).
    split; [done|]. split; [lia|]. split; [done|]. split; [done|].
    intros e' He'. destruct (decide (e' = e)) as [->|Hne]; [eauto|].
    apply Hskipped. lia.
Qed.

(** [increment] on a boundary intersection resumes the scan at the top of
    the next slot. *)
Lemma increment_from_boundary e els :
  e < corners →
  slotsResolve g E (S e) →
  edgeElements g E e = Done els → length els = 1 →
  ∃ st, FoamGridLevelIntersectionIterator_increment g (mkLevelIntersection E e 1)
        = Done st
        ∧ LevelScan g E (level_ c) (S e) st.
Proof.
  intros He Hslots Hels H1.
  unfold FoamGridLevelIntersectionIterator_increment. simpl.
  rewrite decide_False by lia. rewrite Hels. simpl.
  rewrite decide_True by done.
  destruct (decide (S e < corners)) as [Hlt|Hge].
  - rewrite (levelIncrSearch_top g E) by lia.
    apply (levelCtorSearch_spec g E c HE); [lia|done].
  - assert (S e = corners) as Heq by lia.
    rewrite Heq, Nat.sub_diag. simpl. eexists. split; [done|]. constructor.
Qed.

(** The constructor at a slot [e < corners] *)
Lemma ctor_scan e :
  e < corners →
  slotsResolve g E e →
  ∃ st, FoamGridLevelIntersectionIterator g E e = Done st
        ∧ LevelScan g E (level_ c) e st.
Proof.
  intros He Hslots. unfold FoamGridLevelIntersectionIterator.
  rewrite decide_False by lia.
  destruct (Hslots e) as (els & Hels & HEin & Hres); [lia|].
  rewrite Hels. simpl.
  destruct (decide (length els = 1)) as [H1|H1].
  - eexists. split; [done|]. rewrite H1.
    eapply LevelScan_boundary; eauto.
    destruct els as [|n [|? ?]]; simpl in H1; try lia.
    apply list_elem_of_singleton in HEin. subst n.
    intros m Hm [Hne _]. apply list_elem_of_singleton in Hm. done.
  - apply (levelCtorSearch_spec g E c HE); [lia|done].
Qed.

Lemma equals_end st :
  FoamGridLevelIntersectionIterator_equals st
    (mkLevelIntersection (center_ st) corners 0)
  = bool_decide (edgeIndex_ st = corners ∧ neighborIndex_ st = 0).
Proof.
  unfold FoamGridLevelIntersectionIterator_equals. simpl.
  rewrite bool_decide_eq_true_2 by done. simpl.
  destruct (decide (edgeIndex_ st = corners)) as [H1|H1],
           (decide (neighborIndex_ st = 0)) as [H2|H2].
  - rewrite !bool_decide_eq_true_2; tauto.
  - rewrite (bool_decide_eq_true_2 _ H1). simpl.
    rewrite !bool_decide_eq_false_2; tauto.
  - rewrite (bool_decide_eq_false_2 _ H1). simpl.
    rewrite bool_decide_eq_false_2; tauto.
  - rewrite (bool_decide_eq_false_2 _ H1). simpl.
    rewrite bool_decide_eq_false_2; tauto.
Qed.

Lemma equals_other_slot st endIt :
  edgeIndex_ st ≠ edgeIndex_ endIt →
  FoamGridLevelIntersectionIterator_equals st endIt = false.
Proof.
  intros Hne. unfold FoamGridLevelIntersectionIterator_equals.
  rewrite (bool_decide_eq_false_2 _ Hne). by rewrite andb_false_r.
Qed.

(** With a same-level neighbor at slot [e0], a scan that starts at or
    before [e0] never gets past it, and the loop never sees the end. *)
Lemma loop_beside_neighbor e0 els0 k0 :
  e0 < corners →
  slotsResolve g E 0 →
  edgeElements g E e0 = Done els0 →
  firstSameLevelNeighbor g E (level_ c) els0 k0 →
  ∀ endIt, edgeIndex_ endIt = corners →
  ∀ fuel e st, e ≤ e0 → LevelScan g E (level_ c) e st →
    levelIntersections g fuel endIt st = OutOfFuel.
Proof.
  intros He0 Hslots Hels0 Hfirst0 endIt Hend.
  assert (Hnb0 : ∀ els, edgeElements g E e0 = Done els →
                   ¬ noSameLevelNeighbor g E (level_ c) els).
  { intros els Hels Hno. rewrite Hels0 in Hels. injection Hels as <-.
    destruct Hfirst0 as [(n & Hn & Hnb) _].
    apply (Hno n); [|done]. by eapply list_elem_of_lookup_2. }
  induction fuel as [|fuel IH]; intros e st Hle Hscan;
    destruct (LevelScan_cases e st Hscan)
      as (Hc & Hge & Hself & Hcases & Hskipped).
  - assert (edgeIndex_ st ≤ e0) as Hst.
    { destruct (decide (edgeIndex_ st ≤ e0)); [done|].
      destruct (Hskipped e0) as (els & Hels & Hno & _); [lia|].
      by destruct (Hnb0 els). }
    simpl. rewrite (equals_other_slot st endIt) by lia. done.
  - assert (edgeIndex_ st ≤ e0) as Hst.
    { destruct (decide (edgeIndex_ st ≤ e0)); [done|].
      destruct (Hskipped e0) as (els & Hels & Hno & _); [lia|].
      by destruct (Hnb0 els). }
    simpl. rewrite (equals_other_slot st endIt) by lia.
    destruct st as [ce ei ki]. simpl in *. subst ce.
    destruct Hcases as [[? _]|[(_ & els & Hels & Hfirst)
                               |(_ & -> & els & Hels & Hno & Hlen)]]; [lia| |].
    + (* on a neighbor: the iterator stays *)
      assert (length els ≠ 1) as Hlen.
      { destruct (Hslots ei) as (els' & Hels' & HEin & _); [lia|].
        rewrite Hels in Hels'. injection Hels' as <-.
        destruct Hfirst as [(n & Hn & Hne & _) _].
        apply list_elem_of_lookup_2 in Hn.
        destruct els as [|x [|y l]]; simpl; try lia.
        apply list_elem_of_singleton in HEin, Hn. congruence. }
      rewrite (level_increment_on_neighbor_stays g E c ei ki els HE); try done;
        [|lia].
      simpl. rewrite (IH ei _ Hst Hself). done.
    + (* on a boundary edge: the scan resumes at the next slot *)
      assert (ei ≠ e0) as Hne.
      { intros ->. by destruct (Hnb0 els). }
      destruct (increment_from_boundary ei els) as (st' & -> & Hscan');
        [lia| |done..|].
      { intros e' He'. apply Hslots. lia. }
      simpl. rewrite (IH (S ei) st'); [done|lia|done].
Qed.

(** A slot is a boundary slot only if the scan stops on it. *)
Lemma boundarySlot_skipped e els :
  edgeElements g E e = Done els → 1 < length els → boundarySlot g E e = false.
Proof.
  intros Hels Hlen. unfold boundarySlot. rewrite Hels.
  apply bool_decide_eq_false_2. lia.
Qed.

Lemma filter_boundarySlot_skipped e n :
  (∀ e', e ≤ e' < e + n →
     ∃ els, edgeElements g E e' = Done els
            ∧ noSameLevelNeighbor g E (level_ c) els ∧ 1 < length els) →
  filter (λ e', boundarySlot g E e' = true) (seq e n) = [].
Proof.
  revert e. induction n as [|n IH]; intros e H; [done|].
  simpl. destruct (H e) as (els & Hels & _ & Hlen); [lia|].
  rewrite filter_cons_False.
  - apply IH. intros e' He'. apply H. lia.
  - rewrite (boundarySlot_skipped e els Hels Hlen). done.
Qed.

(** Without a same-level neighbor on any slot from [e] on, the loop sees
    the boundary slots, one after the other, and ends. *)
Lemma loop_without_neighbors :
  (∀ e els, e < corners → edgeElements g E e = Done els →
     noSameLevelNeighbor g E (level_ c) els) →
  slotsResolve g E 0 →
  ∀ fuel e st, e ≤ corners → corners - e ≤ fuel →
    LevelScan g E (level_ c) e st →
    levelIntersections g fuel (mkLevelIntersection E corners 0) st
    = Done (map (λ e', mkLevelIntersection E e' 1)
              (filter (λ e', boundarySlot g E e' = true) (seq e (corners - e)))).
Proof.
  intros Hnone Hslots.
  induction fuel as [|fuel IH]; intros e st Hle Hfuel Hscan;
    destruct (LevelScan_cases e st Hscan)
      as (Hc & Hge & Hself & Hcases & Hskipped);
    destruct st as [ce ei ki]; simpl in Hc, Hge, Hself, Hcases, Hskipped;
    subst ce.
  - assert (e = corners) as -> by lia.
    destruct Hcases as [[-> ->]|[[? _]|[? _]]]; try lia.
    rewrite Nat.sub_diag. cbn [levelIntersections].
    rewrite (equals_end (mkLevelIntersection E _ _)).
    rewrite bool_decide_eq_true_2 by done. reflexivity.
  - destruct Hcases as [[-> ->]|[(Hlt & els & Hels & Hfirst)
                                |(Hlt & -> & els & Hels & Hno & Hlen)]].
    + (* the end: every slot from [e] on was passed *)
      rewrite filter_boundarySlot_skipped.
      * cbn [levelIntersections]. rewrite (equals_end (mkLevelIntersection E _ _)).
        rewrite bool_decide_eq_true_2 by done. reflexivity.
      * intros e' He'. apply Hskipped. lia.
    + exfalso. destruct Hfirst as [(n & Hn & Hnb) _].
      apply (Hnone ei els Hlt Hels n); [|done].
      by eapply list_elem_of_lookup_2.
    + destruct (increment_from_boundary ei els) as (st' & Hinc & Hscan');
        [lia| |done..|].
      { intros e' He'. apply Hslots. lia. }
      assert (filter (λ e', boundarySlot g E e' = true) (seq e (corners - e))
              = ei :: filter (λ e', boundarySlot g E e' = true)
                        (seq (S ei) (corners - S ei))) as ->.
      { replace (corners - e) with ((ei - e) + S (corners - S ei)) by lia.
        rewrite seq_app, filter_app.
        rewrite filter_boundarySlot_skipped.
        - cbn [seq app]. replace (e + (ei - e)) with ei by lia.
          rewrite filter_cons_True; [done|].
          unfold boundarySlot. rewrite Hels. by apply bool_decide_eq_true_2.
        - intros e' He'. apply Hskipped. lia. }
      cbn [levelIntersections]. rewrite (equals_end (mkLevelIntersection E _ _)).
      rewrite bool_decide_eq_false_2 by (simpl; lia).
      rewrite Hinc. cbn [mbind outcome_bind].
      rewrite (IH (S ei) st'); [|lia|lia|done]. reflexivity.
Qed.
End level_loop.


(** X1. The loop [for (; it != end; ++it)] over the level intersections of
    an element [E] does not terminate when some edge slot [e0] of [E] holds
    a same-level neighbor: started by the constructor at a slot [e <= e0],
    and compared with the iterator the constructor builds for
    [edge == corners], it runs out of every bound on the number of its
    passes.  ([increment] leaves an iterator that stands on a neighbor where
    it is.) *)
Theorem level_loop_never_ends_beside_a_neighbor (g : EntityImps) (E : Ptr)
    (c : FoamGridElement) (e e0 k0 : nat) (els0 : list Ptr) :
  getElement g E = Some c →
  slotsResolve g E 0 →
  e ≤ e0 → e0 < corners →
  edgeElements g E e0 = Done els0 →
  firstSameLevelNeighbor g E (level_ c) els0 k0 →
  ∃ st endIt,
    FoamGridLevelIntersectionIterator g E e = Done st
    ∧ FoamGridLevelIntersectionIterator g E corners = Done endIt
    ∧ ∀ fuel, levelIntersections g fuel endIt st = OutOfFuel.
Proof.
  intros HE Hslots Hle He0 Hels0 Hfirst0.
  destruct (ctor_scan g E c HE e) as (st & Hst & Hscan); [lia| |].
  { intros e' He'. apply Hslots. lia. }
  exists st, (mkLevelIntersection E corners 0). split; [done|].
  split; [reflexivity|]. intros fuel.
  by apply (loop_beside_neighbor g E c HE e0 els0 k0 He0 Hslots Hels0 Hfirst0
              (mkLevelIntersection E corners 0) eq_refl fuel e st).
Qed.

Lemma level_loop_never_ends_beside_a_neighbor_witness :
  ∃ st endIt,
    FoamGridLevelIntersectionIterator square T0 0 = Done st
    ∧ FoamGridLevelIntersectionIterator square T0 corners = Done endIt
    ∧ ∀ fuel, levelIntersections square fuel endIt st = OutOfFuel.
Proof.
  apply (level_loop_never_ends_beside_a_neighbor square T0
           (mkElement 0 0 (Some 0) (Some 0) [(0, 0); (0, 1); (0, 2)]
              [Some (0, 0); Some (0, 1); Some (0, 2)] [] None)
           0 sharedSlot0 1 [T0; T1]).
  - reflexivity.
  - apply square_slotsResolve. by left.
  - unfold sharedSlot0. lia.
  - unfold sharedSlot0, corners. lia.
  - reflexivity.
  - split.
    + exists T1. split; [reflexivity|]. split; [done|reflexivity].
    + intros j m Hj Hm. destruct j as [|j]; [|lia].
      injection Hm as <-. intros [Hne _]. done.
Defined.

(** X2. When no edge slot of [E] holds a same-level neighbor, the loop over
    the level intersections of [E], from the iterator the constructor builds
    for slot 0 to the one it builds for [edge == corners], ends after at
    most three passes, and
    what it sees are the boundary intersections of the slots with a single
    incident element, in the order of the slots; a slot whose edge has
    several incident elements, none of them a same-level neighbor, is
    passed over. *)
Theorem level_loop_without_neighbors_sees_boundary_slots (g : EntityImps)
    (E : Ptr) (c : FoamGridElement) :
  getElement g E = Some c →
  slotsResolve g E 0 →
  (∀ e els, e < corners → edgeElements g E e = Done els →
     noSameLevelNeighbor g E (level_ c) els) →
  ∃ st endIt,
    FoamGridLevelIntersectionIterator g E 0 = Done st
    ∧ FoamGridLevelIntersectionIterator g E corners = Done endIt
    ∧ ∀ fuel, corners ≤ fuel →
        levelIntersections g fuel endIt st
        = Done (map (λ e, mkLevelIntersection E e 1)
                  (filter (λ e, boundarySlot g E e = true) (seq 0 corners))).
Proof.
  intros HE Hslots Hnone.
  destruct (ctor_scan g E c HE 0) as (st & Hst & Hscan);
    [unfold corners; lia|done|].
  exists st, (mkLevelIntersection E corners 0). split; [done|].
  split; [reflexivity|]. intros fuel Hfuel.
  rewrite (loop_without_neighbors g E c HE Hnone Hslots fuel 0 st);
    [by rewrite Nat.sub_0_r|lia|lia|done].
Qed.

Lemma level_loop_without_neighbors_sees_boundary_slots_witness :
  ∃ st endIt,
    FoamGridLevelIntersectionIterator testGrid T1 0 = Done st
    ∧ FoamGridLevelIntersectionIterator testGrid T1 corners = Done endIt
    ∧ ∀ fuel, 3 ≤ fuel →
        levelIntersections testGrid fuel endIt st
        = Done [mkLevelIntersection T1 0 1; mkLevelIntersection T1 1 1;
                mkLevelIntersection T1 2 1].
Proof.
  apply (level_loop_without_neighbors_sees_boundary_slots testGrid T1
           (mkElement 0 1 (Some 1) (Some 1) [(0, 15); (0, 13); (0, 14)]
              [Some (0, 3); Some (0, 4); Some (0, 5)] [] None)).
  - reflexivity.
  - intros e [_ He]. unfold corners in He.
    destruct e as [|[|[|e]]]; [| | |lia];
      (eexists; split; [reflexivity|]; split; [set_solver|]);
      intros n Hn; apply list_elem_of_singleton in Hn as ->; by eexists.
  - intros e els He Hels n Hn [Hne _]. unfold corners in He.
    destruct e as [|[|[|e]]]; [| | |lia];
      injection Hels as <-; apply list_elem_of_singleton in Hn; done.
Defined.


(** ** The leaf intersection iterator on one top-level edge *)

Section leaf_rounds.
Context (center : Ptr) (edgeIndex e : nat) (leafEdges : list (list Ptr))
  (L : list Ptr).
Hypothesis HL : leafEdges !! e = Some L.

Abbreviation skip := (frontSkip center L).
Abbreviation state := (roundState center edgeIndex e leafEdges (length L)).

Lemma skipCenterAtFront_begin_at key (l : list Ptr) :
  leafEdges !! key = Some l →
  0 < length l →
  skipCenterAtFront leafEdges center (vecBegin key) (key, length l)
  = Done (key, frontSkip center l).
Proof.
  intros Hl Hn. unfold skipCenterAtFront, vecBegin, frontSkip.
  rewrite decide_True by (intros [=]; lia).
  unfold vecDeref, vecNext. simpl. rewrite Hl. simpl.
  destruct l as [|x l']; [simpl in Hn; lia|]. simpl.
  destruct (decide (x = center)) as [->|Hne].
  - by rewrite decide_True.
  - by rewrite decide_False by congruence.
Qed.

Lemma skipCenterAtFront_begin :
  0 < length L →
  skipCenterAtFront leafEdges center (vecBegin e) (e, length L)
  = Done (e, skip).
Proof.
  intros Hn. unfold skipCenterAtFront, vecBegin, frontSkip.
  rewrite decide_True by (intros [=]; lia).
  unfold vecDeref, vecNext. simpl. rewrite HL. simpl.
  destruct L as [|x l]; [simpl in Hn; lia|]. simpl.
  destruct (decide (x = center)) as [->|Hne].
  - by rewrite decide_True.
  - by rewrite decide_False by congruence.
Qed.

Lemma increment_within r j :
  S j < length L →
  FoamGridLeafIntersectionIterator_increment (state r j)
  = Done (state r (S j)).
Proof.
  intros Hj. unfold FoamGridLeafIntersectionIterator_increment, roundState.
  simpl. unfold vecNext, vecEnd. simpl. rewrite HL. simpl.
  destruct (decide (j < length L)) as [_|?]; [|lia]. simpl.
  destruct (decide ((e, S j) = (e, length L))) as [[=]|_]; [lia|]. done.
Qed.

Lemma increment_next_round r j :
  S j = length L → S r < length L →
  FoamGridLeafIntersectionIterator_increment (state r j)
  = Done (state (S r) skip).
Proof.
  intros Hj Hr. unfold FoamGridLeafIntersectionIterator_increment, roundState.
  simpl. unfold vecNext, vecEnd. simpl. rewrite HL. simpl.
  destruct (decide (j < length L)) as [_|?]; [|lia]. simpl.
  destruct (decide ((e, S j) = (e, length L))) as [_|Hne];
    [|by rewrite Hj in Hne].
  destruct (decide (r < length L)) as [_|?]; [|lia]. simpl.
  destruct (decide ((e, S r) = (e, length L))) as [[=]|_]; [lia|].
  rewrite skipCenterAtFront_begin by lia. done.
Qed.

Lemma skipCenterAtFront_Done key l :
  leafEdges !! key = Some l →
  ∃ nb, skipCenterAtFront leafEdges center (vecBegin key) (key, length l)
        = Done nb.
Proof.
  intros Hl. unfold skipCenterAtFront, vecBegin.
  destruct (decide ((key, 0) ≠ (key, length l))) as [Hne|_]; [|eauto].
  unfold vecDeref, vecNext. simpl. rewrite Hl. simpl.
  destruct l as [|x l']; [done|]. simpl.
  destruct (decide (x = center)); eauto.
Qed.

Lemma increment_exit r j :
  S j = length L → S r = length L →
  ∃ it', FoamGridLeafIntersectionIterator_increment (state r j) = Done it'
         ∧ topLevelEdgeIter_ it' ≠ MapAt e.
Proof.
  intros Hj Hr. unfold FoamGridLeafIntersectionIterator_increment, roundState.
  simpl. unfold vecNext, vecEnd. simpl. rewrite HL. simpl.
  destruct (decide (j < length L)) as [_|?]; [|lia]. simpl.
  destruct (decide ((e, S j) = (e, length L))) as [_|Hne];
    [|by rewrite Hj in Hne].
  destruct (decide (r < length L)) as [_|?]; [|lia]. simpl.
  destruct (decide ((e, S r) = (e, length L))) as [_|Hne];
    [|by rewrite Hr in Hne].
  apply lookup_lt_Some in HL as He.
  destruct (decide (e < length leafEdges)) as [_|?]; [|lia]. simpl.
  destruct (decide (S e < length leafEdges)) as [Hlt|Hge]; simpl.
  - destruct (lookup_lt_is_Some_2 _ _ Hlt) as [l Hl].
    rewrite Hl. simpl.
    destruct (skipCenterAtFront_Done (S e) l Hl) as (nb & ->). simpl.
    eexists. split; [done|]. simpl. intros [=]. lia.
  - eexists. split; [done|]. done.
Qed.

(** What the client reads from round [r], position [j] on: the rest of the
    vector, and the vector from its front once more for every round that is
    left. *)
Lemma leafEnumerate_rounds q : ∀ r, r + q + 1 = length L →
  skip < length L →
  ∀ d j, j + d + 1 = length L →
  ∀ fuel, d + q * length L + 2 ≤ fuel →
    leafEnumerate fuel e (state r j)
    = Done (map Some (drop j L
                      ++ concat (replicate q (drop skip L)))).
Proof.
  induction q as [|q IHq]; intros r Hr Hs;
    (induction d as [|d IHd]; intros j Hj fuel Hfuel;
     (destruct fuel as [|fuel]; [lia|]);
     cbn [leafEnumerate]; rewrite decide_True by done).
  - (* last round, last position *)
    destruct (increment_exit r j) as (it' & -> & Hexit); [lia..|].
    cbn [mbind outcome_bind].
    destruct fuel as [|fuel]; [lia|]. cbn [leafEnumerate].
    rewrite decide_False by done. cbn [mbind outcome_bind].
    unfold leafNeighbor, roundState, vecDeref. simpl. rewrite HL. simpl.
    assert (is_Some (L !! j)) as [x Hx] by (apply lookup_lt_is_Some; lia).
    rewrite (drop_S _ _ _ Hx). rewrite (drop_ge L (S j)) by lia. by rewrite Hx.
  - (* last round *)
    rewrite increment_within by lia. cbn [mbind outcome_bind].
    rewrite (IHd (S j)) by lia. cbn [mbind outcome_bind].
    unfold leafNeighbor, roundState, vecDeref. simpl. rewrite HL. simpl.
    assert (is_Some (L !! j)) as [x Hx] by (apply lookup_lt_is_Some; lia).
    rewrite (drop_S _ _ _ Hx). by rewrite Hx.
  - (* last position of a round that is not the last *)
    rewrite increment_next_round by lia. cbn [mbind outcome_bind].
    rewrite (IHq (S r) ltac:(lia) Hs (length L - skip - 1) skip)
      by lia.
    cbn [mbind outcome_bind].
    unfold leafNeighbor, roundState, vecDeref. simpl. rewrite HL. simpl.
    assert (is_Some (L !! j)) as [x Hx] by (apply lookup_lt_is_Some; lia).
    rewrite (drop_S _ _ _ Hx). rewrite (drop_ge L (S j)) by lia. by rewrite Hx.
  - rewrite increment_within by lia. cbn [mbind outcome_bind].
    rewrite (IHd (S j)) by lia. cbn [mbind outcome_bind].
    unfold leafNeighbor, roundState, vecDeref. simpl. rewrite HL. simpl.
    assert (is_Some (L !! j)) as [x Hx] by (apply lookup_lt_is_Some; lia).
    rewrite (drop_S _ _ _ Hx). by rewrite Hx.
Qed.
(** The last [increment] on an edge that is followed by another one moves
    the iterator to the begin of that edge's vector, past its first entry
    when that is the center. *)
Lemma increment_to_next_edge r j L' :
  S j = length L → S r = length L →
  leafEdges !! S e = Some L' →
  FoamGridLeafIntersectionIterator_increment (state r j)
  = Done (roundState center edgeIndex (S e) leafEdges (length L') 0
            (frontSkip center L')).
Proof.
  intros Hj Hr HL'.
  unfold FoamGridLeafIntersectionIterator_increment, roundState.
  simpl. unfold vecNext, vecEnd. simpl. rewrite HL. simpl.
  destruct (decide (j < length L)) as [_|?]; [|lia]. simpl.
  destruct (decide ((e, S j) = (e, length L))) as [_|Hne];
    [|by rewrite Hj in Hne].
  destruct (decide (r < length L)) as [_|?]; [|lia]. simpl.
  destruct (decide ((e, S r) = (e, length L))) as [_|Hne];
    [|by rewrite Hr in Hne].
  apply lookup_lt_Some in HL as He. apply lookup_lt_Some in HL' as He'.
  destruct (decide (e < length leafEdges)) as [_|?]; [|lia]. simpl.
  destruct (decide (S e < length leafEdges)) as [_|?]; [|lia]. simpl.
  rewrite HL'. simpl.
  destruct (decide (0 < length L')) as [Hlen|Hlen].
  - rewrite (skipCenterAtFront_begin_at (S e) L' HL' Hlen). done.
  - destruct L'; [|simpl in Hlen; lia].
    unfold skipCenterAtFront, vecBegin. simpl.
    rewrite decide_False by (intros H; by apply H). done.
Qed.

(** The number of increments that take the iterator from round [r],
    position [j], to the next edge *)
Lemma leafIncrements_rounds q : ∀ r, r + q + 1 = length L →
  skip < length L →
  ∀ L', leafEdges !! S e = Some L' →
  ∀ d j, j + d + 1 = length L →
    leafIncrements (d + 1 + q * (length L - skip)) (state r j)
    = Done (roundState center edgeIndex (S e) leafEdges (length L') 0
              (frontSkip center L')).
Proof.
  induction q as [|q IHq]; intros r Hr Hs L' HL';
    (induction d as [|d IHd]; intros j Hj).
  - simpl. rewrite (increment_to_next_edge r j L') by (done || lia). done.
  - cbn [Nat.add leafIncrements]. rewrite increment_within by lia.
    cbn [mbind outcome_bind]. apply (IHd (S j)). lia.
  - cbn [Nat.add leafIncrements]. rewrite increment_next_round by lia.
    cbn [mbind outcome_bind].
    replace (S q * (length L - skip))
      with ((length L - skip - 1) + 1 + q * (length L - skip)) by lia.
    apply (IHq (S r)); [lia|done|done|lia].
  - cbn [Nat.add leafIncrements]. rewrite increment_within by lia.
    cbn [mbind outcome_bind]. apply (IHd (S j)). lia.
Qed.
End leaf_rounds.


(** The iterator the constructor returns on an edge that is not a boundary
    edge *)
Lemma leaf_ctor_interior (g : EntityImps) (depth : nat) (center : Ptr)
    (e : nat) (it : FoamGridLeafIntersectionIterator) :
  FoamGridLeafIntersectionIterator_ctor g depth center e = Done it →
  topLevelEdgeIter_ it = MapAt e →
  ∃ L nb, leafEdges_ it !! e = Some L
    ∧ skipCenterAtFront (leafEdges_ it) center (vecBegin e) (e, length L)
      = Done nb
    ∧ it = mkLeafIt center e (Some nb) (Some (e, length L)) (leafEdges_ it)
             (MapAt e) (Some (vecBegin e)).
Proof.
  unfold FoamGridLeafIntersectionIterator_ctor. intros Hctor Htop.
  destruct (decide (e = corners)).
  { injection Hctor as <-. done. }
  apply bind_Done in Hctor as (c & _ & Hctor).
  apply bind_Done in Hctor as (l0 & _ & Hctor).
  apply bind_Done in Hctor as (l1 & _ & Hctor).
  apply bind_Done in Hctor as (l2 & _ & Hctor).
  apply bind_Done in Hctor as (nbEnd & HnbEnd & Hctor).
  apply bind_Done in Hctor as (els & _ & Hctor).
  destruct (decide (length els = 1)).
  { injection Hctor as <-. done. }
  apply bind_Done in Hctor as (nb & Hnb & Hctor).
  injection Hctor as <-. simpl.
  unfold vecEnd in HnbEnd.
  apply bind_Done in HnbEnd as (L & HL & HnbEnd).
  apply deref_Done in HL. injection HnbEnd as <-.
  exists L, nb. done.
Qed.

(** X3. While it stays on a top-level edge that is not a boundary edge, the
    leaf intersection iterator hands out the vector [leafEdges_[e]] of that
    edge (without its first entry when that is the center) once for every
    entry of the vector: [increment] advances [leafEdgeIter_] by one entry
    each time [neighbor_] reaches the end, and then starts [neighbor_] over
    from the begin.  A center that is not the first entry is handed out with
    the neighbors. *)
Theorem leaf_iterator_repeats_the_vector (g : EntityImps) (depth : nat)
    (center : Ptr) (e : nat) (it : FoamGridLeafIntersectionIterator)
    (L : list Ptr) :
  FoamGridLeafIntersectionIterator_ctor g depth center e = Done it →
  topLevelEdgeIter_ it = MapAt e →
  leafEdges_ it !! e = Some L →
  is_Some (leafNeighbor it) →
  ∀ fuel, length L * length L + 2 ≤ fuel →
    leafEnumerate fuel e it
    = Done (map Some
              (concat (replicate (length L) (drop (frontSkip center L) L)))).
Proof.
  intros Hctor Htop HL Hnb fuel Hfuel.
  destruct (leaf_ctor_interior g depth center e it Hctor Htop)
    as (L' & nb & HL' & Hskip & Hit).
  rewrite HL in HL'. injection HL' as <-.
  assert (0 < length L ∧ frontSkip center L < length L
          ∧ nb = (e, frontSkip center L)) as (Hlen & Hs & ->).
  { rewrite Hit in Hnb. unfold leafNeighbor, vecDeref in Hnb. simpl in Hnb.
    destruct nb as [k j]. simpl in Hnb. destruct Hnb as [x Hx].
    destruct (decide (0 < length L)) as [Hlen|Hlen].
    - rewrite (skipCenterAtFront_begin center e _ L HL Hlen) in Hskip.
      injection Hskip as <- <-. rewrite HL in Hx. simpl in Hx.
      apply lookup_lt_Some in Hx. done.
    - destruct L; [|simpl in Hlen; lia].
      unfold skipCenterAtFront in Hskip. simpl in Hskip.
      rewrite decide_False in Hskip by (intros H; by apply H).
      injection Hskip as <- <-. rewrite HL in Hx. done. }
  rewrite Hit.
  change (mkLeafIt center e (Some (e, frontSkip center L)) (Some (e, length L))
            (leafEdges_ it) (MapAt e) (Some (vecBegin e)))
    with (roundState center e e (leafEdges_ it) (length L) 0
            (frontSkip center L)).
  rewrite (leafEnumerate_rounds center e e (leafEdges_ it) L HL
             (length L - 1) 0 ltac:(lia) Hs
             (length L - frontSkip center L - 1) (frontSkip center L)
             ltac:(lia) fuel); [|nia].
  do 2 f_equal.
  destruct (length L) as [|n] eqn:Hn; [lia|].
  simpl. by rewrite Nat.sub_0_r.
Qed.

Lemma leaf_iterator_repeats_the_vector_witness :
  ∃ it, FoamGridLeafIntersectionIterator_ctor square 1 T1 sharedSlot1 = Done it
    ∧ ∀ fuel, 6 ≤ fuel →
        leafEnumerate fuel sharedSlot1 it
        = Done [Some T0; Some T1; Some T0; Some T1].
Proof.
  eexists. split; [reflexivity|].
  apply (leaf_iterator_repeats_the_vector square 1 T1 sharedSlot1 _ [T0; T1]).
  - reflexivity.
  - reflexivity.
  - reflexivity.
  - by eexists.
Defined.

(** X4. Both early returns of the two-argument constructor of the leaf
    intersection iterator, on a boundary edge and for [edge == corners],
    leave [topLevelEdgeIter_] as it was default-constructed, where
    [increment] has no defined behaviour: the iterator constructed on a
    boundary edge cannot be advanced, and the iterator constructed with
    [edge == corners] is not the one-after-last iterator on which
    [increment] throws. *)
Theorem leaf_iterator_on_boundary_edge_cannot_advance (g : EntityImps)
    (depth : nat) (center : Ptr) (e : nat) (els : list Ptr)
    (it : FoamGridLeafIntersectionIterator) :
  e < corners →
  edgeElements g center e = Done els → length els = 1 →
  FoamGridLeafIntersectionIterator_ctor g depth center e = Done it →
  topLevelEdgeIter_ it = MapSingular
  ∧ FoamGridLeafIntersectionIterator_increment it = Undefined
  ∧ (it' ← FoamGridLeafIntersectionIterator_ctor g depth center corners;
     FoamGridLeafIntersectionIterator_increment it') = Undefined.
Proof.
  intros He Hels Hlen Hctor.
  assert (topLevelEdgeIter_ it = MapSingular) as Htop.
  { unfold FoamGridLeafIntersectionIterator_ctor in Hctor.
    rewrite decide_False in Hctor by lia.
    apply bind_Done in Hctor as (c & _ & Hctor).
    apply bind_Done in Hctor as (l0 & _ & Hctor).
    apply bind_Done in Hctor as (l1 & _ & Hctor).
    apply bind_Done in Hctor as (l2 & _ & Hctor).
    apply bind_Done in Hctor as (nbEnd & _ & Hctor).
    rewrite Hels in Hctor. simpl in Hctor.
    rewrite decide_True in Hctor by done. by injection Hctor as <-. }
  split; [done|]. split.
  - unfold FoamGridLeafIntersectionIterator_increment. by rewrite Htop.
  - unfold FoamGridLeafIntersectionIterator_ctor.
    rewrite decide_True by done. reflexivity.
Qed.

Lemma leaf_iterator_on_boundary_edge_cannot_advance_witness :
  ∃ it, FoamGridLeafIntersectionIterator_ctor square 1 T0 0 = Done it
    ∧ topLevelEdgeIter_ it = MapSingular
    ∧ FoamGridLeafIntersectionIterator_increment it = Undefined
    ∧ (it' ← FoamGridLeafIntersectionIterator_ctor square 1 T0 corners;
       FoamGridLeafIntersectionIterator_increment it') = Undefined.
Proof.
  eexists. split; [reflexivity|].
  apply (leaf_iterator_on_boundary_edge_cannot_advance square 1 T0 0 [T0]).
  - unfold corners. lia.
  - reflexivity.
  - reflexivity.
  - reflexivity.
Defined.

(** X5. The two-argument constructor of the leaf intersection iterator
    returns for every edge slot of an element whose three edges have a
    refinement tree in the grid, and [leafEdges_] then holds, for each of
    the three slots, the incidence lists of the slot's leaf descendant
    edges, one after the other in the order first son, second son.  On a
    boundary edge (a single incident element) [topLevelEdgeIter_] is left
    as it was default-constructed; on any other edge it designates the
    slot, and [neighbor_] stands at the begin of the slot's vector, or past
    its first entry when that is the center. *)
Theorem leaf_iterator_collects_leaf_descendants (g : EntityImps)
    (center : Ptr) (c : FoamGridElement) (e : nat) (p0 p1 p2 : Ptr)
    (lv0 lv1 lv2 : list Ptr) :
  getElement g center = Some c →
  edges_ c = [Some p0; Some p1; Some p2] →
  leafDescendantEdges g p0 lv0 →
  leafDescendantEdges g p1 lv1 →
  leafDescendantEdges g p2 lv2 →
  e < corners →
  ∃ depth0, ∀ depth, depth0 ≤ depth →
    ∃ it, FoamGridLeafIntersectionIterator_ctor g depth center e = Done it
      ∧ leafEdges_ it = [concat (map (incidentElements g) lv0);
                          concat (map (incidentElements g) lv1);
                          concat (map (incidentElements g) lv2)]
      ∧ li_center_ it = center
      ∧ ∃ els L,
          edgeElements g center e = Done els
          ∧ leafEdges_ it !! e = Some L
          ∧ (length els = 1 → topLevelEdgeIter_ it = MapSingular)
          ∧ (length els ≠ 1 →
             topLevelEdgeIter_ it = MapAt e
             ∧ li_neighbor_ it = Some (e, frontSkip center L)
             ∧ li_neighborEnd_ it = Some (e, length L)
             ∧ leafEdgeIter_ it = Some (vecBegin e)).
Proof.
  intros Hc Hedges H0 H1 H2 He.
  destruct (traverseAndPushLeafEdges_collects g p0 lv0 H0) as (d0 & Hd0).
  destruct (traverseAndPushLeafEdges_collects g p1 lv1 H1) as (d1 & Hd1).
  destruct (traverseAndPushLeafEdges_collects g p2 lv2 H2) as (d2 & Hd2).
  exists ((d0 `max` d1) `max` d2). intros depth Hdepth.
  set (leafEdges := [concat (map (incidentElements g) lv0);
                     concat (map (incidentElements g) lv1);
                     concat (map (incidentElements g) lv2)]).
  assert (∃ pe ed, edges_ c !! e = Some (Some pe) ∧ getEdge g pe = Some ed)
    as (pe & ed & Hpe & Hed).
  { rewrite Hedges. unfold corners in He.
    destruct e as [|[|[|e]]]; [| | |lia]; simpl;
      [inversion H0|inversion H1|inversion H2]; eauto. }
  assert (∃ L, leafEdges !! e = Some L) as (L & HL).
  { apply lookup_lt_is_Some. simpl. done. }
  assert (edgeElements g center e = Done (e_elements_ ed)) as Hels.
  { unfold edgeElements. rewrite Hc. simpl. rewrite Hpe. simpl.
    by rewrite Hed. }
  unfold FoamGridLeafIntersectionIterator_ctor.
  rewrite decide_False by lia. rewrite Hc. simpl.
  unfold collectLeafEdges. rewrite Hedges. simpl.
  rewrite Hd0 by lia. simpl. rewrite Hd1 by lia. simpl.
  rewrite Hd2 by lia. simpl. fold leafEdges.
  unfold vecEnd. rewrite HL. simpl.
  unfold edgeElements. rewrite Hc. simpl. rewrite Hpe. simpl.
  rewrite Hed. simpl.
  destruct (decide (length (e_elements_ ed) = 1)).
  - eexists. split; [done|]. simpl. split; [done|]. split; [done|].
    exists (e_elements_ ed), L. done.
  - destruct (decide (0 < length L)) as [Hlen|Hlen].
    + rewrite (skipCenterAtFront_begin center e leafEdges L HL Hlen). simpl.
      eexists. split; [done|]. simpl. split; [done|]. split; [done|].
      exists (e_elements_ ed), L. done.
    + destruct L; [|simpl in Hlen; lia].
      unfold skipCenterAtFront. simpl.
      rewrite decide_False by (intros H; by apply H). simpl.
      eexists. split; [done|]. simpl. split; [done|]. split; [done|].
      exists (e_elements_ ed), []. done.
Qed.

Lemma leaf_iterator_collects_leaf_descendants_witness :
  ∃ depth0, ∀ depth, depth0 ≤ depth →
    ∃ it, FoamGridLeafIntersectionIterator_ctor square depth T1 sharedSlot1
          = Done it
      ∧ leafEdges_ it = [[T1]; [T0; T1]; [T1]]
      ∧ li_center_ it = T1
      ∧ ∃ els L,
          edgeElements square T1 sharedSlot1 = Done els
          ∧ leafEdges_ it !! sharedSlot1 = Some L
          ∧ (length els = 1 → topLevelEdgeIter_ it = MapSingular)
          ∧ (length els ≠ 1 →
             topLevelEdgeIter_ it = MapAt sharedSlot1
             ∧ li_neighbor_ it = Some (sharedSlot1, frontSkip T1 L)
             ∧ li_neighborEnd_ it = Some (sharedSlot1, length L)
             ∧ leafEdgeIter_ it = Some (vecBegin sharedSlot1)).
Proof.
  apply (leaf_iterator_collects_leaf_descendants square T1
           (mkElement 0 1 (Some 1) (Some 1) [(0, 1); (0, 3); (0, 2)]
              [Some (0, 3); Some (0, 2); Some (0, 4)] [] None)
           sharedSlot1 (0, 3) (0, 2) (0, 4) [(0, 3)] [(0, 2)] [(0, 4)]).
  - reflexivity.
  - reflexivity.
  - eapply leafDescendantEdges_leaf; reflexivity.
  - eapply leafDescendantEdges_leaf; reflexivity.
  - eapply leafDescendantEdges_leaf; reflexivity.
  - unfold sharedSlot1, corners. lia.
Defined.


(** X6. The leaf intersection iterator cannot pass on to a boundary edge.
    When the top-level edge after the current one is an unrefined boundary
    edge, whose vector in [leafEdges_] holds the center alone, the
    increments that finish the current edge leave [neighbor_] at the end of
    that vector, behind the center that was skipped: the iterator then
    designates no neighbor, and the next [increment] advances [neighbor_]
    past the end of the vector.  [edgeIndex_] still is the index of the edge
    the iterator was constructed on. *)
Theorem leaf_iterator_cannot_enter_a_boundary_edge (g : EntityImps)
    (depth : nat) (center : Ptr) (e : nat)
    (it : FoamGridLeafIntersectionIterator) (L : list Ptr) :
  FoamGridLeafIntersectionIterator_ctor g depth center e = Done it →
  topLevelEdgeIter_ it = MapAt e →
  leafEdges_ it !! e = Some L →
  is_Some (leafNeighbor it) →
  leafEdges_ it !! S e = Some [center] →
  ∃ it', leafIncrements (length L * (length L - frontSkip center L)) it
         = Done it'
    ∧ topLevelEdgeIter_ it' = MapAt (S e)
    ∧ li_edgeIndex_ it' = e
    ∧ li_neighbor_ it' = li_neighborEnd_ it'
    ∧ leafNeighbor it' = None
    ∧ FoamGridLeafIntersectionIterator_increment it' = Undefined.
Proof.
  intros Hctor Htop HL Hnb HL'.
  destruct (leaf_ctor_interior g depth center e it Hctor Htop)
    as (L0 & nb & HL0 & Hskip & Hit).
  rewrite HL in HL0. injection HL0 as <-.
  assert (0 < length L ∧ frontSkip center L < length L
          ∧ nb = (e, frontSkip center L)) as (Hlen & Hs & ->).
  { rewrite Hit in Hnb. unfold leafNeighbor, vecDeref in Hnb. simpl in Hnb.
    destruct nb as [k j]. simpl in Hnb. destruct Hnb as [x Hx].
    destruct (decide (0 < length L)) as [Hlen|Hlen].
    - rewrite (skipCenterAtFront_begin center e _ L HL Hlen) in Hskip.
      injection Hskip as <- <-. rewrite HL in Hx. simpl in Hx.
      apply lookup_lt_Some in Hx. done.
    - destruct L; [|simpl in Hlen; lia].
      unfold skipCenterAtFront in Hskip. simpl in Hskip.
      rewrite decide_False in Hskip by (intros H; by apply H).
      injection Hskip as <- <-. rewrite HL in Hx. done. }
  eexists. split.
  { rewrite Hit at 1.
    change (mkLeafIt center e (Some (e, frontSkip center L))
              (Some (e, length L)) (leafEdges_ it) (MapAt e)
              (Some (vecBegin e)))
      with (roundState center e e (leafEdges_ it) (length L) 0
              (frontSkip center L)).
    replace (length L * (length L - frontSkip center L))
      with ((length L - frontSkip center L - 1) + 1
            + (length L - 1) * (length L - frontSkip center L)) by nia.
    apply (leafIncrements_rounds center e e (leafEdges_ it) L HL
             (length L - 1) 0 ltac:(lia) Hs [center] HL'
             (length L - frontSkip center L - 1) (frontSkip center L)).
    lia. }
  assert (frontSkip center [center] = 1) as ->.
  { unfold frontSkip. simpl. by rewrite decide_True. }
  split; [done|]. split; [done|]. split; [done|]. split.
  - unfold leafNeighbor, roundState, vecDeref. simpl. by rewrite HL'.
  - unfold FoamGridLeafIntersectionIterator_increment, roundState, vecNext.
    simpl. rewrite HL'. simpl. done.
Qed.

Lemma leaf_iterator_cannot_enter_a_boundary_edge_witness :
  ∃ it it',
    FoamGridLeafIntersectionIterator_ctor square 1 T1 sharedSlot1 = Done it
    ∧ leafIncrements 4 it = Done it'
    ∧ topLevelEdgeIter_ it' = MapAt 2
    ∧ li_edgeIndex_ it' = sharedSlot1
    ∧ li_neighbor_ it' = li_neighborEnd_ it'
    ∧ leafNeighbor it' = None
    ∧ FoamGridLeafIntersectionIterator_increment it' = Undefined.
Proof.
  eexists.
  destruct (leaf_iterator_cannot_enter_a_boundary_edge square 1 T1
              sharedSlot1 _ [T0; T1] eq_refl eq_refl eq_refl
              (ex_intro _ T0 eq_refl) eq_refl) as (it' & H).
  exists it'. split; [reflexivity|]. exact H.
Defined.

(** ** The factory: what the calls leave behind *)

(** X7. Before [createGrid], the factory holds the entities in the order of
    their insertion: after a sequence of [insertVertex] and [insertElement]
    calls in which every element is a triangle of vertices inserted before
    it, the [i]-th vertex inserted has the id [i] and is what
    [vertexArray_[i]] points to, the [k]-th element inserted has the id [k]
    and the vertices of its [insertElement] call as its corners, in their
    order; the id counters stand at the numbers of vertices and elements,
    and no edge exists yet.  Ids and counters are [unsigned int]s, so these
    numbers are taken modulo 2^32. *)
Theorem factory_numbers_by_insertion (ndebug : bool) (cs : list FactoryCall) :
  callsWellFormed 0 cs →
  ∃ f grid lev,
    runCalls ndebug cs GridFactory_new = Done f
    ∧ grid_ f = Some grid ∧ entityImps_ grid = [lev]
    ∧ freeIdCounter_ grid
      = [wrapUnsigned (countVertices cs); 0;
         wrapUnsigned (length (trianglesOf cs))]
    ∧ edges lev = []
    ∧ length (vertices lev) = countVertices cs
    ∧ length (elements lev) = length (trianglesOf cs)
    ∧ (∀ i, i < countVertices cs →
         vertexArray_ f !! i = Some (0, i)
         ∧ vertices lev !! i
           = Some (mkVertex 0 (wrapUnsigned i) None None None))
    ∧ (∀ k a b c, trianglesOf cs !! k = Some [a; b; c] →
         elements lev !! k
         = Some (mkElement 0 (wrapUnsigned k) None None
                   [(0, a); (0, b); (0, c)] [None; None; None] [] None)).
Proof.
  intros Hwf.
  pose proof (runCalls_coarse ndebug cs 0 [] Hwf) as Hrun. simpl in Hrun.
  eexists _, _, _. split; [exact Hrun|]. simpl.
  split; [done|]. split; [done|]. split; [done|]. split; [done|]. simpl.
  split; [by rewrite length_map, length_seq|].
  split; [by rewrite length_imap|]. split.
  - intros i Hi. rewrite vertexArray_lookup by done. split; [done|].
    change (map ?f ?l) with (f <$> l).
    rewrite list_lookup_fmap, lookup_seq_lt by done. done.
  - intros k a b c Hk. rewrite list_lookup_imap, Hk. done.
Qed.

Lemma factory_numbers_by_insertion_witness :
  ∃ f grid lev,
    runCalls false squareCalls GridFactory_new = Done f
    ∧ grid_ f = Some grid ∧ entityImps_ grid = [lev]
    ∧ freeIdCounter_ grid = [4; 0; 2]
    ∧ edges lev = []
    ∧ length (vertices lev) = 4
    ∧ length (elements lev) = 2
    ∧ (∀ i, i < 4 →
         vertexArray_ f !! i = Some (0, i)
         ∧ vertices lev !! i
           = Some (mkVertex 0 (wrapUnsigned i) None None None))
    ∧ (∀ k a b c, [[0; 1; 2]; [1; 3; 2]] !! k = Some [a; b; c] →
         elements lev !! k
         = Some (mkElement 0 (wrapUnsigned k) None None
                   [(0, a); (0, b); (0, c)] [None; None; None] [] None)).
Proof.
  exact (factory_numbers_by_insertion false squareCalls squareCalls_wellFormed).
Defined.

Lemma deref_cases {A} (o : option A) :
  (∃ a, o = Some a ∧ deref o = Done a) ∨ (o = None ∧ deref o = Undefined).
Proof. destruct o; [left|right]; eauto. Qed.

(** X8. [insertElement] checks its arguments by the assertion on the
    geometry type alone.  With assertions enabled a type that is not a
    triangle aborts the call.  With [NDEBUG] every type is taken for a
    triangle.  In both builds only the first three vertex numbers are read,
    and a vertex number that is missing among them or is not below the
    number of vertices inserted is used as an index into [vertexArray_]
    unchecked, which is undefined behaviour. *)
Theorem insertElement_checks_by_assertion_only (ndebug : bool)
    (f : GridFactory) (type : GeometryType) (vs : list nat) :
  (isTriangle type = false → insertElement false f type vs = AssertFail)
  ∧ (ndebug = true ∨ isTriangle type = true →
     insertElement ndebug f type vs = insertElement true f triangle (take 3 vs))
  ∧ (∀ i, i < 3 →
       (∀ a, vs !! i = Some a → length (vertexArray_ f) ≤ a) →
       insertElement true f type vs = Undefined).
Proof.
  split; [|split].
  - intros Htri. unfold insertElement, assert. by rewrite Htri.
  - intros Hok. unfold insertElement.
    assert (assert ndebug (isTriangle type) = Done ()) as ->.
    { unfold assert. destruct Hok as [-> | ->]; [done|by rewrite orb_true_r]. }
    cbn [assert orb mbind outcome_bind].
    rewrite !lookup_take_lt by lia. reflexivity.
  - intros i Hi Hbad. unfold insertElement, assert. simpl.
    destruct (grid_ f) as [grid|]; [|done]. simpl.
    destruct (deref_cases (vs !! 0)) as [(a0 & H0 & _)|[H0 _]].
    2:{ by rewrite H0. }
    destruct (deref_cases (vertexArray_ f !! a0)) as [(p0 & Hp0 & _)|[Hp0 _]].
    2:{ by rewrite H0; simpl; rewrite Hp0. }
    destruct i as [|i].
    { specialize (Hbad a0 H0). apply lookup_lt_Some in Hp0. lia. }
    rewrite H0. simpl. rewrite Hp0. simpl.
    destruct (deref_cases (vs !! 1)) as [(a1 & H1 & _)|[H1 _]].
    2:{ by rewrite H1. }
    destruct (deref_cases (vertexArray_ f !! a1)) as [(p1 & Hp1 & _)|[Hp1 _]].
    2:{ by rewrite H1; simpl; rewrite Hp1. }
    destruct i as [|i].
    { specialize (Hbad a1 H1). apply lookup_lt_Some in Hp1. lia. }
    rewrite H1. simpl. rewrite Hp1. simpl.
    destruct i as [|i]; [|lia].
    destruct (vs !! 2) as [a2|] eqn:H2; [|done]. simpl.
    rewrite (lookup_ge_None_2 _ a2) by eauto. done.
Qed.

(** X9. Once [createGrid] has handed over the grid, the factory holds no
    grid any more while [insertVertex] and [insertElement] still
    dereference [grid_]: both have undefined behaviour on the factory that
    [createGrid] leaves, whose [vertexArray_] still holds the pointers into
    the grid handed over. *)
Theorem factory_is_spent_after_createGrid (ndebug : bool) (f f' : GridFactory)
    (grid : FoamGrid) :
  createGrid ndebug f = Done (Some grid, f') →
  insertVertex f' = Undefined
  ∧ (∀ type vs, insertElement true f' type vs = Undefined)
  ∧ (∀ type vs, isTriangle type = true →
       insertElement false f' type vs = Undefined)
  ∧ vertexArray_ f' = vertexArray_ f.
Proof.
  unfold createGrid. intros H.
  destruct (grid_ f) as [grid0|] eqn:Hgrid; [|by injection H].
  apply bind_Done in H as (st & _ & H).
  apply bind_Done in H as (grid1 & _ & H).
  apply bind_Done in H as (lev0 & _ & H).
  injection H as _ <-.
  split; [done|]. split; [done|]. split; [|done].
  intros type vs Htri. unfold insertElement, assert. by rewrite Htri.
Qed.

Lemma factory_is_spent_after_createGrid_witness :
  insertVertex (mkGridFactory None true 0 [(0, 0); (0, 1); (0, 2); (0, 3)])
  = Undefined
  ∧ (∀ type vs,
       insertElement true
         (mkGridFactory None true 0 [(0, 0); (0, 1); (0, 2); (0, 3)]) type vs
       = Undefined)
  ∧ (∀ type vs, isTriangle type = true →
       insertElement false
         (mkGridFactory None true 0 [(0, 0); (0, 1); (0, 2); (0, 3)]) type vs
       = Undefined)
  ∧ vertexArray_ (mkGridFactory None true 0 [(0, 0); (0, 1); (0, 2); (0, 3)])
    = vertexArray_ squareFactory.
Proof.
  apply (factory_is_spent_after_createGrid false squareFactory _ squareGrid).
  exact squareGrid_built.
Defined.


(** ** The level index set after [update] *)

Lemma numberVertices_lookup vs : ∀ n j,
  (numberVertices vs n).1 !! j
  = vertex_setLevelIndex (Some (n + j)) <$> vs !! j.
Proof.
  induction vs as [|v vs IH]; intros n j; simpl; [done|].
  specialize (IH (S n)).
  destruct (numberVertices vs (S n)) as [r n']. simpl in *.
  destruct j as [|j]; simpl; [by rewrite Nat.add_0_r|].
  rewrite IH. by rewrite Nat.add_succ_r.
Qed.




(** ** The leaf index set: the vertices *)

Lemma isLeafVertex_erase g1 g2 p :
  eraseVertexLeafIndex g1 = eraseVertexLeafIndex g2 →
  isLeafVertex g1 p = isLeafVertex g2 p.
Proof.
  intros H. pose proof (erase_same_vertex g1 g2 p H) as Hp.
  unfold isLeafVertex, vertex_isLeaf.
  destruct (getVertex g1 p) as [v1|], (getVertex g2 p) as [v2|]; try done.
  destruct Hp as [-> _]. done.
Qed.

Lemma vertexSonsResolve_erase g1 g2 :
  eraseVertexLeafIndex g1 = eraseVertexLeafIndex g2 →
  vertexSonsResolve g1 → vertexSonsResolve g2.
Proof.
  intros H Hres p v2 q Hp Hq.
  pose proof (erase_same_vertex g1 g2 p H) as Hsame. rewrite Hp in Hsame.
  destruct (getVertex g1 p) as [v1|] eqn:Hp1; [|done].
  destruct Hsame as [Hson _].
  destruct (Hres p v1 q Hp1) as [w Hw]; [congruence|].
  pose proof (erase_same_vertex g1 g2 q H) as Hq'. rewrite Hw in Hq'.
  destruct (getVertex g2 q); [eauto|done].
Qed.

Lemma vertexVisitOrder_erase count : ∀ g1 g2,
  eraseVertexLeafIndex g1 = eraseVertexLeafIndex g2 →
  vertexVisitOrder count g1 = vertexVisitOrder count g2.
Proof.
  induction count as [|i IH]; intros g1 g2 H; [done|].
  simpl. rewrite (IH g1 g2 H). f_equal.
  pose proof (erase_lookup_level g1 g2 i H) as Hl.
  destruct (g1 !! i), (g2 !! i); try done. by destruct Hl as [-> _].
Qed.

Lemma filter_isLeafVertex_erase g1 g2 (l : list Ptr) :
  eraseVertexLeafIndex g1 = eraseVertexLeafIndex g2 →
  filter (λ p, isLeafVertex g1 p = true) l
  = filter (λ p, isLeafVertex g2 p = true) l.
Proof.
  intros H. apply list_filter_iff. intros p.
  by rewrite (isLeafVertex_erase g1 g2 p H).
Qed.

(** The vertices of one level, from position [j] on: a leaf takes the next
    index, another vertex the index its successor has. *)
Lemma leafNumberVertices_spec i todo : ∀ g j n,
  vertexSonsDeeper g → vertexSonsResolve g →
  (∀ k, j ≤ k < j + todo → is_Some (getVertex g (i, k))) →
  ∃ g', leafNumberVertices g i todo j n
        = Done (g', n + length (filter (λ p, isLeafVertex g p = true)
                                  (levelPositions i j todo)))
    ∧ eraseVertexLeafIndex g' = eraseVertexLeafIndex g
    ∧ (∀ p, p.1 ≠ i ∨ p.2 < j ∨ j + todo ≤ p.2 →
         getVertex g' p = getVertex g p)
    ∧ (∀ k p, filter (λ p, isLeafVertex g p = true)
                (levelPositions i j todo) !! k = Some p →
         v_leafIndex_ <$> getVertex g' p = Some (Some (n + k)))
    ∧ (∀ k v q, j ≤ k < j + todo →
         getVertex g (i, k) = Some v → v_son_ v = Some q →
         v_leafIndex_ <$> getVertex g' (i, k) = v_leafIndex_ <$> getVertex g q).
Proof.
  induction todo as [|todo IH]; intros g j n Hdeep Hres Hex.
  - exists g. simpl. split; [by rewrite Nat.add_0_r|]. split; [done|].
    split; [done|]. split; [intros k p H; by simpl in H|].
    intros k v q Hk. lia.
  - destruct (Hex j) as [v Hv]; [lia|].
    cbn [leafNumberVertices]. rewrite Hv. cbn [deref mbind outcome_bind].
    assert (Hstep : ∀ x,
      (vertex_isLeaf v = true → x = Some n) →
      (∀ q, v_son_ v = Some q →
         ∃ son, getVertex g q = Some son ∧ x = v_leafIndex_ son) →
      ∀ n1, n1 = (if vertex_isLeaf v then S n else n) →
      ∃ g', leafNumberVertices (updVertex (vertex_setLeafIndex x) (i, j) g)
              i todo (S j) n1
            = Done (g', n + length (filter (λ p, isLeafVertex g p = true)
                                      (levelPositions i j (S todo))))
        ∧ eraseVertexLeafIndex g' = eraseVertexLeafIndex g
        ∧ (∀ p, p.1 ≠ i ∨ p.2 < j ∨ j + S todo ≤ p.2 →
             getVertex g' p = getVertex g p)
        ∧ (∀ k p, filter (λ p, isLeafVertex g p = true)
                    (levelPositions i j (S todo)) !! k = Some p →
             v_leafIndex_ <$> getVertex g' p = Some (Some (n + k)))
        ∧ (∀ k v q, j ≤ k < j + S todo →
             getVertex g (i, k) = Some v → v_son_ v = Some q →
             v_leafIndex_ <$> getVertex g' (i, k)
             = v_leafIndex_ <$> getVertex g q)).
    { intros x Hxleaf Hxson n1 Hn1.
      set (g1 := updVertex (vertex_setLeafIndex x) (i, j) g).
      assert (eraseVertexLeafIndex g1 = eraseVertexLeafIndex g) as Her
        by apply erase_updVertex.
      assert (Hother : ∀ p, p ≠ (i, j) → getVertex g1 p = getVertex g p).
      { intros p Hp. unfold g1. rewrite getVertex_updVertex.
        by rewrite decide_False. }
      assert (Hself : getVertex g1 (i, j) = Some (vertex_setLeafIndex x v)).
      { unfold g1. rewrite getVertex_updVertex, decide_True by done.
        by rewrite Hv. }
      destruct (IH g1 (S j) n1) as (g' & Hrun & Her' & Hframe & Hrank & Hson).
      { by apply vertexSonsDeeper_updVertex. }
      { by apply (vertexSonsResolve_erase g). }
      { intros k Hk. rewrite Hother; [apply Hex; lia|]. intros [=]. lia. }
      exists g'.
      assert (Hfilter :
        filter (λ p, isLeafVertex g p = true) (levelPositions i j (S todo))
        = (if vertex_isLeaf v then [(i, j)] else [])
          ++ filter (λ p, isLeafVertex g1 p = true)
               (levelPositions i (S j) todo)).
      { rewrite (filter_isLeafVertex_erase g1 g _ Her).
        unfold levelPositions. cbn [seq map].
        destruct (vertex_isLeaf v) eqn:Hleaf.
        - rewrite filter_cons_True; [done|].
          unfold isLeafVertex. by rewrite Hv.
        - rewrite filter_cons_False; [done|].
          unfold isLeafVertex. rewrite Hv, Hleaf. done. }
      rewrite Hfilter. split; [|split; [|split; [|split]]].
      - rewrite Hrun. do 2 f_equal. rewrite length_app, Hn1.
        destruct (vertex_isLeaf v); simpl; lia.
      - congruence.
      - intros p Hp. rewrite Hframe by (destruct Hp as [?|[?|?]]; auto; lia).
        apply Hother. intros ->. simpl in Hp. lia.
      - intros k p Hk. destruct (vertex_isLeaf v) eqn:Hleaf.
        + destruct k as [|k]; simpl in Hk.
          * injection Hk as <-. rewrite Hframe by (simpl; lia).
            rewrite Hself. simpl. rewrite Hxleaf by done.
            by rewrite Nat.add_0_r.
          * rewrite (Hrank k p Hk). rewrite Hn1. do 2 f_equal. lia.
        + simpl in Hk. rewrite (Hrank k p Hk). by rewrite Hn1.
      - intros k w q Hk Hw Hq. destruct (decide (k = j)) as [->|Hne].
        + rewrite Hv in Hw. injection Hw as <-.
          rewrite Hframe by (simpl; lia). rewrite Hself. simpl.
          destruct (Hxson q Hq) as (son & -> & ->). done.
        + assert (getVertex g1 (i, k) = Some w) as Hw1.
          { rewrite Hother; [done|]. intros [=]. done. }
          rewrite (Hson k w q ltac:(lia) Hw1 Hq).
          rewrite Hother; [done|]. intros ->.
          specialize (Hdeep (i, k) w (i, j) Hw Hq). simpl in Hdeep. lia. }
    destruct (vertex_isLeaf v) eqn:Hleaf.
    + apply (Hstep (Some n)); [done| |done].
      intros q Hq. unfold vertex_isLeaf in Hleaf. by rewrite Hq in Hleaf.
    + destruct (v_son_ v) as [q0|] eqn:Hq0.
      2:{ unfold vertex_isLeaf in Hleaf. by rewrite Hq0 in Hleaf. }
      destruct (Hres (i, j) v q0 Hv Hq0) as [son Hson].
      cbn [deref mbind outcome_bind]. rewrite Hson.
      cbn [deref mbind outcome_bind].
      apply (Hstep (v_leafIndex_ son)); [done| |done].
      intros q [= <-]. eauto.
Qed.

Lemma elem_of_vertexVisitOrder count : ∀ g p,
  p ∈ vertexVisitOrder count g → p.1 < count.
Proof.
  induction count as [|i IH]; intros g p Hp; simpl in Hp.
  - by apply elem_of_nil in Hp.
  - apply elem_of_app in Hp as [Hp|Hp]; [|apply IH in Hp; lia].
    destruct (g !! i); [|by apply elem_of_nil in Hp].
    apply list_elem_of_fmap in Hp as (j & -> & _). simpl. lia.
Qed.

(** The whole pass over the vertices. *)
Lemma leafNumberVertexLevels_spec count : ∀ g n,
  count ≤ length g →
  vertexSonsDeeper g → vertexSonsResolve g →
  ∃ g', leafNumberVertexLevels count g n
        = Done (g', n + length (filter (λ p, isLeafVertex g p = true)
                                  (vertexVisitOrder count g)))
    ∧ eraseVertexLeafIndex g' = eraseVertexLeafIndex g
    ∧ (∀ p, count ≤ p.1 → getVertex g' p = getVertex g p)
    ∧ (∀ k p, filter (λ p, isLeafVertex g p = true)
                (vertexVisitOrder count g) !! k = Some p →
         v_leafIndex_ <$> getVertex g' p = Some (Some (n + k)))
    ∧ (∀ p v q, p.1 < count → getVertex g p = Some v → v_son_ v = Some q →
         v_leafIndex_ <$> getVertex g' p = v_leafIndex_ <$> getVertex g' q).
Proof.
  induction count as [|i IH]; intros g n Hcount Hdeep Hres.
  - exists g. simpl. split; [by rewrite Nat.add_0_r|]. split; [done|].
    split; [done|]. split; [intros k p H; by simpl in H|].
    intros p v q Hp. lia.
  - destruct (lookup_lt_is_Some_2 g i) as [lev Hlev]; [lia|].
    cbn [leafNumberVertexLevels vertexVisitOrder]. rewrite Hlev.
    cbn [deref mbind outcome_bind].
    destruct (leafNumberVertices_spec i (length (vertices lev)) g 0 n Hdeep Hres)
      as (g1 & Hrun1 & Her1 & Hframe1 & Hrank1 & Hson1).
    { intros k Hk. unfold getVertex. simpl. rewrite Hlev. simpl.
      apply lookup_lt_is_Some. lia. }
    rewrite Hrun1. cbn [mbind outcome_bind].
    set (n1 := n + length (filter (λ p, isLeafVertex g p = true)
                             (levelPositions i 0 (length (vertices lev))))).
    destruct (IH g1 n1) as (g' & Hrun & Her & Hframe & Hrank & Hson).
    { apply (f_equal length) in Her1.
      unfold eraseVertexLeafIndex in Her1. rewrite !length_map in Her1. lia. }
    { by apply (vertexSonsDeeper_erase g). }
    { by apply (vertexSonsResolve_erase g). }
    exists g'. rewrite filter_app, length_app.
    rewrite (vertexVisitOrder_erase i g1 g Her1) in Hrun, Hrank.
    rewrite (filter_isLeafVertex_erase g1 g _ Her1) in Hrun, Hrank.
    split; [|split; [|split; [|split]]].
    + rewrite Hrun. do 2 f_equal. unfold n1. lia.
    + congruence.
    + intros p Hp. rewrite Hframe by lia. apply Hframe1. left. lia.
    + intros k p Hk.
      destruct (decide (k < length (filter (λ p, isLeafVertex g p = true)
                   (levelPositions i 0 (length (vertices lev))))))
        as [Hlt|Hge].
      * rewrite lookup_app_l in Hk by done.
        assert (p.1 = i) as Hp1.
        { apply list_elem_of_lookup_2, list_elem_of_filter in Hk as [_ Hk].
          apply list_elem_of_fmap in Hk as (j & -> & _). done. }
        rewrite Hframe by lia. by apply Hrank1.
      * rewrite lookup_app_r in Hk by lia.
        rewrite (Hrank _ p Hk). do 2 f_equal. unfold n1. lia.
    + intros p v q Hp Hv Hq.
      pose proof (Hdeep p v q Hv Hq) as Hdeeper.
      destruct (decide (p.1 = i)) as [Hpi|Hne].
      * destruct p as [l k]. simpl in Hpi, Hdeeper. subst l.
        rewrite !Hframe by (simpl; lia).
        rewrite (Hson1 k v q); [|..|done|done].
        -- rewrite Hframe1; [done|]. left. lia.
        -- split; [lia|]. simpl. unfold getVertex in Hv. simpl in Hv.
           rewrite Hlev in Hv. simpl in Hv. by apply lookup_lt_Some in Hv.
      * pose proof (erase_same_vertex g1 g p Her1) as Hsame.
        rewrite Hv in Hsame.
        destruct (getVertex g1 p) as [v1|] eqn:Hv1; [|done].
        destruct Hsame as [Hs _].
        apply (Hson p v1 q); [lia|done|congruence].
Qed.







Lemma leafNumberElements_erase els : ∀ n,
  map (element_setLeafIndex None) (leafNumberElements els n).1
  = map (element_setLeafIndex None) els.
Proof.
  induction els as [|e els IH]; intros n; simpl; [done|].
  destruct (element_isLeaf e).
  - specialize (IH (S n)). destruct (leafNumberElements els (S n)) as [r n'].
    simpl in *. by rewrite IH.
  - specialize (IH n). destruct (leafNumberElements els n) as [r n'].
    simpl in *. by rewrite IH.
Qed.

Lemma leafNumberElementLevels_erase g : ∀ n p,
  element_setLeafIndex None <$> getElement (leafNumberElementLevels g n).1 p
  = element_setLeafIndex None <$> getElement g p.
Proof.
  induction g as [|lev g IH]; intros n [l k]; simpl; [done|].
  pose proof (leafNumberElements_erase (elements lev) n) as Hels.
  destruct (leafNumberElements (elements lev) n) as [els n1]. simpl in Hels.
  specialize (IH n1).
  destruct (leafNumberElementLevels g n1) as [rest n2]. simpl in *.
  destruct l as [|l].
  - unfold getElement. simpl.
    assert (map (element_setLeafIndex None) els !! k
            = map (element_setLeafIndex None) (elements lev) !! k) as Hk
      by by rewrite Hels.
    change (map ?f ?l) with (f <$> l) in Hk.
    by rewrite !list_lookup_fmap in Hk.
  - apply (IH (l, k)).
Qed.

(** X12. [FoamGridLeafIndexSet::update] changes nothing but leaf indices:
    the grid it leaves has the levels it found, and every vertex, edge and
    element in it is the one it was, up to its [leafIndex_]. *)
Theorem leaf_update_changes_leaf_indices_only (ndebug : bool)
    (self self' : FoamGridLeafIndexSet) (grid grid' : EntityImps) :
  FoamGridLeafIndexSet_update ndebug self grid = Done (grid', self') →
  length grid' = length grid
  ∧ (∀ p, vertex_setLeafIndex None <$> getVertex grid' p
          = vertex_setLeafIndex None <$> getVertex grid p)
  ∧ (∀ p, edge_setLeafIndex None <$> getEdge grid' p
          = edge_setLeafIndex None <$> getEdge grid p)
  ∧ (∀ p, element_setLeafIndex None <$> getElement grid' p
          = element_setLeafIndex None <$> getElement grid p).
Proof.
  unfold FoamGridLeafIndexSet_update. intros H.
  pose proof (leafNumberElementLevels_frame grid 0) as [Hv1 He1].
  pose proof (leafNumberElementLevels_erase grid 0) as Hel1.
  destruct (leafNumberElementLevels grid 0) as [g1 nEl]. simpl in *.
  apply bind_Done_pair in H as (g2 & nEd & H2 & H).
  apply bind_Done_pair in H as (g3 & nV & H3 & H).
  injection H as <- _.
  destruct (leafNumberEdgeLevels_frame _ _ _ _ _ _ H2)
    as (Hv2 & Hel2 & Hlen2 & _).
  pose proof (leafNumberVertexLevels_frame _ _ _ _ _ H3) as Herase.
  destruct (erase_frame _ _ Herase) as (Hed3 & Hel3 & Hlen3).
  split; [|split; [|split]].
  - rewrite Hlen3, Hlen2. apply (f_equal length) in Hv1.
    by rewrite !length_map in Hv1.
  - intros p. rewrite <- !getVertex_erase, Herase.
    rewrite !getVertex_erase.
    rewrite (getVertex_vertices g2 g1 p Hv2).
    by rewrite (getVertex_vertices g1 grid p Hv1).
  - intros p. rewrite (getEdge_edges g3 g2 p Hed3).
    rewrite (leafNumberEdgeLevels_edges (edge_setLeafIndex None) _ _
               (λ x e, eq_refl) _ _ _ _ H2).
    by rewrite (getEdge_edges g1 grid p He1).
  - intros p. rewrite (getElement_elements g3 g2 p Hel3).
    rewrite (getElement_elements g2 g1 p Hel2). apply Hel1.
Qed.

Lemma leaf_update_changes_leaf_indices_only_witness :
  ∃ grid' self',
    FoamGridLeafIndexSet_update false
      (mkLeafIndexSet [0; 0; 0]%Z [[]; []; []]) squareWithRefinedVertex
    = Done (grid', self')
    ∧ length grid' = length squareWithRefinedVertex
    ∧ (∀ p, vertex_setLeafIndex None <$> getVertex grid' p
            = vertex_setLeafIndex None <$> getVertex squareWithRefinedVertex p)
    ∧ (∀ p, edge_setLeafIndex None <$> getEdge grid' p
            = edge_setLeafIndex None <$> getEdge squareWithRefinedVertex p)
    ∧ (∀ p, element_setLeafIndex None <$> getElement grid' p
            = element_setLeafIndex None
                <$> getElement squareWithRefinedVertex p).
Proof.
  eexists _, _. split; [reflexivity|].
  eapply (leaf_update_changes_leaf_indices_only false
           (mkLeafIndexSet [0; 0; 0]%Z [[]; []; []]) _
           squareWithRefinedVertex _).
  reflexivity.
Defined.

(** X13. After [FoamGridLeafIndexSet::update], [geomTypes] and [size] agree
    for the codimensions 0, 1 and 2: [geomTypes(codim)] is the single
    simplex type of dimension [2 - codim] when [size(codim)] is positive,
    and empty when it is 0; and [size] of that type is [size(codim)].
    Outside this range the two differ: [size(codim)] returns 0, while
    [geomTypes(codim)] indexes [myTypes_] unchecked. *)
Theorem leaf_geomTypes_agree_with_size (ndebug : bool)
    (self self' : FoamGridLeafIndexSet) (grid grid' : EntityImps) (codim : Z) :
  FoamGridLeafIndexSet_update ndebug self grid = Done (grid', self') →
  ((0 ≤ codim ≤ 2)%Z →
   FoamGridLeafIndexSet_geomTypes self' codim
   = Done (if decide (0 < FoamGridLeafIndexSet_size self' codim)%Z
           then [mkGeometryType simplex (2 - codim)] else [])
   ∧ FoamGridLeafIndexSet_size_type self' (mkGeometryType simplex (2 - codim))
     = FoamGridLeafIndexSet_size self' codim)
  ∧ ((codim < 0 ∨ 2 < codim)%Z →
     FoamGridLeafIndexSet_size self' codim = 0%Z
     ∧ FoamGridLeafIndexSet_geomTypes self' codim = Undefined).
Proof.
  unfold FoamGridLeafIndexSet_update. intros H.
  destruct (leafNumberElementLevels grid 0) as [g1 nEl].
  apply bind_Done_pair in H as (g2 & nEd & H2 & H).
  apply bind_Done_pair in H as (g3 & nV & H3 & H).
  injection H as _ <-.
  unfold FoamGridLeafIndexSet_geomTypes, FoamGridLeafIndexSet_size,
    FoamGridLeafIndexSet_size_type, at_, dim, leafTypes.
  simpl. split.
  - intros Hc.
    assert (codim = 0 ∨ codim = 1 ∨ codim = 2)%Z as [->|[->| ->]] by lia;
      simpl; (split; [|done]); f_equal;
      repeat case_decide; try done; lia.
  - intros Hc. split.
    + rewrite decide_True; [done|lia].
    + destruct (decide (0 ≤ codim)%Z) as [Hge|Hlt]; [|done].
      rewrite lookup_ge_None_2; [done|]. simpl. lia.
Qed.

Lemma leaf_geomTypes_agree_with_size_witness :
  ∃ grid' self',
    FoamGridLeafIndexSet_update false
      (mkLeafIndexSet [0; 0; 0]%Z [[]; []; []]) square
    = Done (grid', self')
    ∧ ((0 ≤ 1 ≤ 2)%Z →
       FoamGridLeafIndexSet_geomTypes self' 1
       = Done (if decide (0 < FoamGridLeafIndexSet_size self' 1)%Z
               then [mkGeometryType simplex (2 - 1)] else [])
       ∧ FoamGridLeafIndexSet_size_type self' (mkGeometryType simplex (2 - 1))
         = FoamGridLeafIndexSet_size self' 1)
    ∧ ((1 < 0 ∨ 2 < 1)%Z →
       FoamGridLeafIndexSet_size self' 1 = 0%Z
       ∧ FoamGridLeafIndexSet_geomTypes self' 1 = Undefined).
Proof.
  eexists _, _. split; [reflexivity|].
  eapply (leaf_geomTypes_agree_with_size false
           (mkLeafIndexSet [0; 0; 0]%Z [[]; []; []]) _ square _ 1).
  reflexivity.
Defined.


(** ** The links that the edge loop of [createGrid] sets *)

Lemma handled_S ei i a b :
  i < 3 →
  handled ei (S i) a b ↔ handled ei i a b ∨ (a = ei ∧ b = i).
Proof. unfold handled. lia. Qed.

Lemma handled_next ei a b : handled ei 3 a b ↔ handled (S ei) 0 a b.
Proof. unfold handled. lia. Qed.

(** The links after one pass of the loop body, which puts the edge at
    position [pe] of [base] into slot [i] of the element at [ei], and the
    element into the incidence list of the edge.  [base] is the list of
    edges with the edge of the pass, which is new or was there. *)
Lemma links_after_step (lev0 lev : LevelEntities) (ei i pe : nat)
    (base : list FoamGridEdge) (ed0 : FoamGridEdge) (el : FoamGridElement)
    (v0 v1 : Ptr) :
  i < 3 →
  elements lev !! ei = Some el →
  vertex_ el !! subEntity_edge i 0 = Some v0 →
  vertex_ el !! subEntity_edge i 1 = Some v1 →
  base !! pe = Some ed0 →
  samePair (v0, v1) (e_vertex_ ed0) →
  (∀ k ed, edges lev !! k = Some ed → base !! k = Some ed) →
  (∀ k ed, base !! k = Some ed →
     edges lev !! k = Some ed
     ∨ (k = pe ∧ e_elements_ ed = [] ∧ freshEdge k ed)) →
  (∀ a, (λ e, (level_ e, id_ e, levelIndex_ e, leafIndex_ e, vertex_ e,
               sons_ e, father_ e, length (edges_ e)))
          <$> elements lev !! a
        = (λ e, (level_ e, id_ e, levelIndex_ e, leafIndex_ e, vertex_ e,
                 sons_ e, father_ e, 3)) <$> elements lev0 !! a) →
  (∀ a b, handled ei i a b →
     ∃ el, elements lev !! a = Some el ∧ slotLinked (edges lev) a el b) →
  (∀ pe ed x, edges lev !! pe = Some ed → x ∈ e_elements_ ed →
     ∃ a b el, x = (0, a) ∧ handled ei i a b
               ∧ elements lev !! a = Some el
               ∧ edges_ el !! b = Some (Some (0, pe))) →
  (∀ k ed, edges lev !! k = Some ed → freshEdge k ed) →
  let els' := alter (element_setEdge i (0, pe)) ei (elements lev) in
  let es' := alter (edge_pushElement (0, ei)) pe base in
  (∀ a, (λ e, (level_ e, id_ e, levelIndex_ e, leafIndex_ e, vertex_ e,
               sons_ e, father_ e, length (edges_ e))) <$> els' !! a
        = (λ e, (level_ e, id_ e, levelIndex_ e, leafIndex_ e, vertex_ e,
                 sons_ e, father_ e, 3)) <$> elements lev0 !! a)
  ∧ (∀ a b, handled ei (S i) a b →
       ∃ el, els' !! a = Some el ∧ slotLinked es' a el b)
  ∧ (∀ pe ed x, es' !! pe = Some ed → x ∈ e_elements_ ed →
       ∃ a b el, x = (0, a) ∧ handled ei (S i) a b
                 ∧ els' !! a = Some el
                 ∧ edges_ el !! b = Some (Some (0, pe)))
  ∧ (∀ k ed, es' !! k = Some ed → freshEdge k ed).
Proof.
  intros Hi Hel Hv0 Hv1 Hpe Hpair Hold Hnew H1 H2 H3 H4 els' es'.
  assert (Hlen3 : length (edges_ el) = 3).
  { specialize (H1 ei). rewrite Hel in H1. simpl in H1.
    destruct (elements lev0 !! ei); [|done]. simpl in H1. by injection H1. }
  (* the elements after the pass *)
  assert (Hels' : ∀ a e, elements lev !! a = Some e →
            ∃ e', els' !! a = Some e'
              ∧ vertex_ e' = vertex_ e
              ∧ (∀ b, a ≠ ei ∨ b ≠ i → edges_ e' !! b = edges_ e !! b)
              ∧ (a = ei → edges_ e' !! i = Some (Some (0, pe)))).
  { intros a e Ha. unfold els'. destruct (decide (a = ei)) as [->|Hne].
    - rewrite list_lookup_alter_eq, Ha. simpl. eexists. split; [done|].
      split; [done|]. rewrite Hel in Ha. injection Ha as <-. split.
      + intros b [?|Hb]; [done|]. simpl. by rewrite list_lookup_insert_ne.
      + intros _. simpl. apply list_lookup_insert_eq. lia.
    - rewrite list_lookup_alter_ne by done. exists e. split; [done|].
      split; [done|]. split; [done|]. done. }
  (* the edges after the pass *)
  assert (Hes' : ∀ k ed, base !! k = Some ed →
            ∃ ed', es' !! k = Some ed'
              ∧ e_vertex_ ed' = e_vertex_ ed
              ∧ (∀ j, freshEdge j ed → freshEdge j ed')
              ∧ e_elements_ ed'
                = e_elements_ ed ++ (if decide (k = pe) then [(0, ei)] else [])).
  { intros k ed Hk. unfold es'. destruct (decide (k = pe)) as [->|Hne].
    - rewrite list_lookup_alter_eq, Hk. simpl. eexists. split; [done|].
      split; [done|]. split; [done|]. done.
    - rewrite list_lookup_alter_ne by done. exists ed. split; [done|].
      split; [done|]. split; [done|]. by rewrite app_nil_r. }
  assert (Hes'_inv : ∀ k ed', es' !! k = Some ed' →
            ∃ ed, base !! k = Some ed
              ∧ (∀ j, freshEdge j ed → freshEdge j ed')
              ∧ e_elements_ ed'
                = e_elements_ ed ++ (if decide (k = pe) then [(0, ei)] else [])).
  { intros k ed' Hk.
    assert (is_Some (base !! k)) as [ed Hed].
    { apply lookup_lt_is_Some. apply lookup_lt_Some in Hk.
      unfold es' in Hk. by rewrite length_alter in Hk. }
    destruct (Hes' k ed Hed) as (ed'' & Hk' & _ & Hf & He).
    rewrite Hk in Hk'. injection Hk' as <-. eauto. }
  split; [|split; [|split]].
  - intros a. rewrite <- H1. unfold els'.
    destruct (decide (a = ei)) as [->|Hne].
    + rewrite list_lookup_alter_eq, Hel. simpl.
      by rewrite length_insert.
    + by rewrite list_lookup_alter_ne.
  - intros a b Hab. apply handled_S in Hab; [|done].
    destruct Hab as [Hab|[-> ->]].
    + destruct (H2 a b Hab) as (e & He & pe' & ed' & w0 & w1 & Hslot & Hed'
                                & Hin & Hw0 & Hw1 & Hsame).
      destruct (Hels' a e He) as (e' & He' & Hve' & Hslots' & _).
      exists e'. split; [done|].
      destruct (Hes' pe' ed' (Hold _ _ Hed')) as (ed'' & Hed'' & Hvd & _ & Hels).
      exists pe', ed'', w0, w1. rewrite Hve', Hvd.
      split; [|split; [done|split; [|done]]].
      * rewrite Hslots'; [done|]. unfold handled in Hab. lia.
      * rewrite Hels. set_solver.
    + destruct (Hels' ei el Hel) as (e' & He' & Hve' & _ & Hslot').
      exists e'. split; [done|].
      destruct (Hes' pe ed0 Hpe) as (ed'' & Hed'' & Hvd & _ & Hels).
      exists pe, ed'', v0, v1. rewrite Hve', Hvd.
      split; [by apply Hslot'|]. split; [done|]. split; [|done].
      rewrite Hels, decide_True by done. set_solver.
  - intros pe' ed' x Hed' Hx.
    destruct (Hes'_inv pe' ed' Hed') as (ed & Hed & _ & Hels).
    rewrite Hels in Hx. apply elem_of_app in Hx as [Hx|Hx].
    + destruct (Hnew pe' ed Hed) as [Hlev|(_ & Hempty & _)].
      2:{ rewrite Hempty in Hx. by apply elem_of_nil in Hx. }
      destruct (H3 pe' ed x Hlev Hx) as (a & b & e & -> & Hab & He & Hslot).
      destruct (Hels' a e He) as (e' & He' & _ & Hslots' & _).
      exists a, b, e'. split; [done|].
      split; [apply handled_S; [done|by left]|]. split; [done|].
      rewrite Hslots'; [done|]. unfold handled in Hab. lia.
    + destruct (decide (pe' = pe)) as [->|Hne]; [|by apply elem_of_nil in Hx].
      apply list_elem_of_singleton in Hx as ->.
      destruct (Hels' ei el Hel) as (e' & He' & _ & _ & Hslot').
      exists ei, i, e'. split; [done|].
      split; [apply handled_S; [done|by right]|]. split; [done|].
      by apply Hslot'.
  - intros k ed' Hed'.
    destruct (Hes'_inv k ed' Hed') as (ed & Hed & Hfresh & _).
    apply Hfresh. destruct (Hnew k ed Hed) as [Hlev|(_ & _ & ?)]; [|done].
    by apply H4.
Qed.


(** One pass of the loop body keeps the links. *)
Lemma createEdge_links lev0 counters0 occ st ei i el0 v0 v1 :
  EdgeInv lev0 occ st →
  LinkInv lev0 counters0 ei i st →
  1 < length counters0 →
  i < 3 →
  elements lev0 !! ei = Some el0 →
  vertex_ el0 !! subEntity_edge i 0 = Some v0 →
  vertex_ el0 !! subEntity_edge i 1 = Some v1 →
  ∃ st', createEdge ei i st = Done st'
         ∧ LinkInv lev0 counters0 ei (S i) st'.
Proof.
  intros (lev & Himps & Hvs & Hels & Hsound & Hcompl & Hdist & Hsize & Hocc)
    (lev' & Himps' & H1 & H2 & H3 & H4 & Hcnt & Hnum) Hc0 Hi Hel0 Hv0 Hv1.
  rewrite Himps in Himps'. injection Himps' as <-.
  assert (∃ el, elements lev !! ei = Some el ∧ vertex_ el = vertex_ el0)
    as (el & Hel & Hvel).
  { specialize (H1 ei). rewrite Hel0 in H1.
    destruct (elements lev !! ei) as [el|]; [|done].
    simpl in H1. injection H1 as _ _ _ _ ? _ _ _. eauto. }
  rewrite <- Hvel in Hv0, Hv1.
  unfold createEdge. rewrite Himps. unfold getElement. simpl.
  rewrite Hel. simpl. rewrite Hv0, Hv1. simpl.
  set (found := match edgeMap st !! (v0, v1) with
                | Some e => Some e
                | None => edgeMap st !! (v1, v0)
                end).
  destruct found as [p|] eqn:Hfound.
  - (* the edge exists *)
    assert (∃ k ed, p = (0, k) ∧ edges lev !! k = Some ed
                    ∧ samePair (v0, v1) (e_vertex_ ed)) as (k & ed & -> & Hk & Hsame).
    { subst found. destruct (edgeMap st !! (v0, v1)) as [p'|] eqn:Hm.
      - injection Hfound as ->.
        destruct (Hsound _ _ Hm) as (k & ed & -> & Hk & Hv).
        exists k, ed. repeat split; [done|]. rewrite Hv. apply samePair_refl.
      - destruct (Hsound _ _ Hfound) as (k & ed & -> & Hk & Hv).
        exists k, ed. repeat split; [done|]. rewrite Hv. by right. }
    simpl. rewrite Himps. unfold updElement, getEdge. simpl. rewrite Hk. simpl.
    eexists. split; [reflexivity|].
    destruct (links_after_step lev0 lev ei i k (edges lev) ed el v0 v1)
      as (H1' & H2' & H3' & H4'); try done; [by left|].
    eexists. split; [reflexivity|]. simpl.
    split; [done|]. split; [done|]. split; [done|]. split; [done|].
    rewrite length_alter. split; [done|lia].
  - (* the edge is new *)
    simpl. unfold updElement, getEdge. simpl.
    rewrite lookup_app_r by done. rewrite Nat.sub_diag. simpl.
    eexists. split; [reflexivity|].
    set (newEdge := mkEdge 0 (eb_counters st !!! 1) None None (v0, v1) []
                      (None, None) 0 None None).
    assert (eb_counters st !!! 1 = wrapUnsigned (length (edges lev))) as Hid.
    { rewrite Hcnt. by apply list_lookup_total_insert_eq. }
    destruct (links_after_step lev0 lev ei i (length (edges lev))
                (edges lev ++ [newEdge]) newEdge el v0 v1)
      as (H1' & H2' & H3' & H4'); try done.
    { by apply list_lookup_middle. }
    { apply samePair_refl. }
    { intros k ed Hk. by apply lookup_app_l_Some. }
    { intros k ed Hk. apply lookup_snoc_Some in Hk as [[_ Hk]|[-> <-]];
        [by left|right].
      split; [done|]. split; [done|]. unfold freshEdge, newEdge. simpl.
      by rewrite Hid. }
    eexists. split; [reflexivity|]. simpl.
    split; [done|]. split; [done|]. split; [done|]. split; [done|].
    rewrite length_alter, length_app, Hid, Hcnt. simpl. split; [|lia].
    rewrite list_insert_insert_eq, wrapUnsigned_S. do 2 f_equal. lia.
Qed.

(** The three passes for one element *)
Lemma createEdge_element_links lev0 counters0 occ st ei el0 x0 x1 x2 :
  EdgeInv lev0 occ st →
  LinkInv lev0 counters0 ei 0 st →
  1 < length counters0 →
  elements lev0 !! ei = Some el0 →
  vertex_ el0 = [x0; x1; x2] →
  ∃ st', forRange (createEdge ei) 0 3 st = Done st'
         ∧ EdgeInv lev0 (occ ++ edgePairs (vertex_ el0)) st'
         ∧ LinkInv lev0 counters0 (S ei) 0 st'.
Proof.
  intros Hinv Hlink Hc0 Hel Hxs.
  destruct (createEdge_element lev0 occ st ei el0 x0 x1 x2 Hinv Hel Hxs)
    as (st' & Hrun & Hinv').
  exists st'. split; [done|]. split; [done|].
  simpl in Hrun.
  destruct (createEdge_step lev0 occ st ei 0 el0 x0 x1 Hinv Hel)
    as (st1 & Hs1 & Hinv1); [by rewrite Hxs..|].
  destruct (createEdge_links lev0 counters0 occ st ei 0 el0 x0 x1 Hinv Hlink)
    as (st1' & Hs1' & Hlink1); [done|lia|done|by rewrite Hxs..|].
  rewrite Hs1 in Hs1'. injection Hs1' as <-.
  rewrite Hs1 in Hrun. simpl in Hrun.
  destruct (createEdge_step lev0 _ st1 ei 1 el0 x0 x2 Hinv1 Hel)
    as (st2 & Hs2 & Hinv2); [by rewrite Hxs..|].
  destruct (createEdge_links lev0 counters0 _ st1 ei 1 el0 x0 x2 Hinv1 Hlink1)
    as (st2' & Hs2' & Hlink2); [done|lia|done|by rewrite Hxs..|].
  rewrite Hs2 in Hs2'. injection Hs2' as <-.
  rewrite Hs2 in Hrun. simpl in Hrun.
  destruct (createEdge_links lev0 counters0 _ st2 ei 2 el0 x1 x2 Hinv2 Hlink2)
    as (st3' & Hs3' & Hlink3); [done|lia|done|by rewrite Hxs..|].
  rewrite Hs3' in Hrun. simpl in Hrun. injection Hrun as <-.
  destruct Hlink3 as (lev & Himps & H1 & H2 & H3 & H4 & Hcnt & Hnum).
  exists lev. split; [done|]. split; [done|].
  split; [intros a b Hab; apply H2; by apply handled_next|].
  split; [|split; [done|split; [done|lia]]].
  intros pe ed x Hpe Hx.
  destruct (H3 pe ed x Hpe Hx) as (a & b & e & -> & Hab & He).
  exists a, b, e. split; [done|]. split; [by apply handled_next|done].
Qed.

(** The edge loop on a level without edges: both invariants at its end. *)
Lemma createEdges_links lev0 counters0 :
  edges lev0 = [] →
  threeCorners (elements lev0) →
  Forall (λ e, length (edges_ e) = 3) (elements lev0) →
  1 < length counters0 → counters0 !! 1 = Some 0 →
  ∃ st, createEdges (mkEdgeBuild [lev0] counters0 ∅) = Done st
        ∧ EdgeInv lev0 (allEdgePairs (elements lev0)) st
        ∧ LinkInv lev0 counters0 (length (elements lev0)) 0 st.
Proof.
  intros Hedges Hthree Hslots Hc0 Hc1. unfold createEdges. simpl.
  destruct (forRange_invariant
              (λ ei st, EdgeInv lev0 (allEdgePairs (take ei (elements lev0))) st
                        ∧ LinkInv lev0 counters0 ei 0 st)
              (λ ei, forRange (createEdge ei) 0 3)
              (length (elements lev0)) 0 (mkEdgeBuild [lev0] counters0 ∅))
    as (st & Hst & Hinv & Hlink).
  - split.
    + exists lev0. rewrite Hedges. simpl.
      split; [done|]. split; [done|]. split; [done|].
      split; [intros key p H; by rewrite lookup_empty in H|].
      split; [intros k ed H; by rewrite lookup_nil in H|].
      split; [intros k k' ed ed' _ H; by rewrite lookup_nil in H|].
      split; [intros k ed H; by rewrite lookup_nil in H|].
      intros o Ho. by apply elem_of_nil in Ho.
    + exists lev0. simpl. split; [done|]. split.
      { intros a. destruct (elements lev0 !! a) as [e|] eqn:Ha; [|done].
        simpl. do 2 f_equal.
        rewrite Forall_lookup in Hslots. by apply (Hslots a). }
      split; [intros a b Hab; unfold handled in Hab; lia|].
      split; [intros pe ed x H; by rewrite Hedges, lookup_nil in H|].
      split; [intros k ed H; by rewrite Hedges, lookup_nil in H|].
      rewrite Hedges. simpl. split; [|lia]. symmetry. by apply list_insert_id.
  - intros ei st [_ Hei] [Hinv Hlink]. simpl in Hei.
    destruct (lookup_lt_is_Some_2 _ _ Hei) as [el Hel].
    destruct (Hthree el) as (x0 & x1 & x2 & Hxs).
    { eapply list_elem_of_lookup_2, Hel. }
    destruct (createEdge_element_links lev0 counters0 _ st ei el x0 x1 x2
                Hinv Hlink Hc0 Hel Hxs) as (st' & Hst' & Hinv' & Hlink').
    exists st'. split; [done|]. split; [|done].
    rewrite (take_S_r _ _ _ Hel). unfold allEdgePairs in *.
    rewrite map_app, concat_app. simpl. by rewrite app_nil_r.
  - exists st. split; [done|]. simpl in Hinv, Hlink.
    rewrite firstn_all in Hinv. done.
Qed.


(** ** The index passes on a coarse mesh *)

Lemma filter_all {A} (P : A → Prop) `{∀ x, Decision (P x)} (l : list A) :
  (∀ x, x ∈ l → P x) → filter P l = l.
Proof.
  induction l as [|x l IH]; intros Hall; [done|].
  rewrite filter_cons_True by (apply Hall; set_solver).
  f_equal. apply IH. intros y Hy. apply Hall. set_solver.
Qed.

Lemma leafNumberElements_leaves els : ∀ n,
  Forall (λ e, element_isLeaf e = true) els →
  (leafNumberElements els n).2 = n + length els
  ∧ ∀ j, (leafNumberElements els n).1 !! j
         = element_setLeafIndex (Some (n + j)) <$> els !! j.
Proof.
  induction els as [|e els IH]; intros n Hall; simpl; [split; [lia|done]|].
  apply Forall_cons in Hall as [He Hall]. rewrite He.
  destruct (IH (S n) Hall) as [Hn Hj].
  destruct (leafNumberElements els (S n)) as [r n']. simpl in *.
  split; [lia|]. intros [|j]; simpl; [by rewrite Nat.add_0_r|].
  rewrite Hj. by rewrite Nat.add_succ_r.
Qed.

Lemma leafNumberElementLevels_single l n :
  leafNumberElementLevels [l] n
  = ([setElements (leafNumberElements (elements l) n).1 l],
     (leafNumberElements (elements l) n).2).
Proof. simpl. by destruct (leafNumberElements (elements l) n). Qed.

Lemma vertex_eta (v : FoamGridVertex) :
  vertex_setLeafIndex (v_leafIndex_ v) v = v.
Proof. by destruct v. Qed.

(** [setIndices] on a grid of one level whose entities are all leaves:
    every entity takes its position as level index (edges excepted) and as
    leaf index. *)
Lemma setIndices_single_level ndebug lev counters sets leafSet :
  Forall (λ v, vertex_isLeaf v = true) (vertices lev) →
  Forall (λ e, edge_isLeaf e = true) (edges lev) →
  Forall (λ e, element_isLeaf e = true) (elements lev) →
  ∃ grid1 lev1,
    setIndices ndebug (mkFoamGrid [lev] counters sets leafSet) = Done grid1
    ∧ entityImps_ grid1 = [lev1]
    ∧ freeIdCounter_ grid1 = counters
    ∧ (∀ k, vertices lev1 !! k
            = (λ v, vertex_setLeafIndex (Some k)
                      (vertex_setLevelIndex (Some k) v)) <$> vertices lev !! k)
    ∧ (∀ k, edges lev1 !! k = edge_setLeafIndex (Some k) <$> edges lev !! k)
    ∧ (∀ k, elements lev1 !! k
            = (λ e, element_setLeafIndex (Some k)
                      (element_setLevelIndex (Some k) e))
                <$> elements lev !! k)
    ∧ size_ (leafIndexSet_ grid1)
      = [Z.of_nat (length (vertices lev)); Z.of_nat (length (edges lev));
         Z.of_nat (length (elements lev))].
Proof.
  intros Hvs Hes Hels. unfold setIndices.
  set (lev' := mkLevel (numberVertices (vertices lev) 0).1 (edges lev)
                 (numberElements (elements lev) 0).1).
  assert (∃ set1, updateLevelIndexSets [lev] sets 0 1 = Done ([lev'], [set1]))
    as (set1 & Hlevel).
  { simpl.
    rewrite (FoamGridLevelIndexSet_update_Done _ [lev] 0 lev eq_refl).
    simpl. eauto. }
  cbn [entityImps_ levelIndexSets_ leafIndexSet_ freeIdCounter_ length].
  rewrite Hlevel. cbn [mbind outcome_bind].
  unfold FoamGridLeafIndexSet_update.
  rewrite leafNumberElementLevels_single. lazy beta iota.
  (* the elements *)
  assert (Hels' : Forall (λ e, element_isLeaf e = true) (elements lev')).
  { apply Forall_lookup. intros k e Hk. simpl in Hk.
    rewrite numberElements_lookup in Hk.
    destruct (elements lev !! k) as [e0|] eqn:H0; [|done].
    injection Hk as <-. rewrite Forall_lookup in Hels.
    apply (Hels k e0 H0). }
  destruct (leafNumberElements_leaves (elements lev') 0 Hels') as [HnEl HjEl].
  set (els1 := (leafNumberElements (elements lev') 0).1) in *.
  set (nEl := (leafNumberElements (elements lev') 0).2) in *.
  set (g1 := [setElements els1 lev']).
  (* the edges *)
  destruct (leafNumberEdgeLevels_spec ndebug (length g1) g1 0)
    as (g2 & H2 & Hed2 & _); [simpl; lia| |].
  { right. intros l l' Hl Hl'. destruct l as [|l]; [|simpl in Hl; lia].
    injection Hl' as <-. done. }
  rewrite H2. cbn [mbind outcome_bind].
  destruct (leafNumberEdgeLevels_frame _ _ _ _ _ _ H2)
    as (Hv2 & Hel2 & Hlen2 & _).
  (* the vertices *)
  assert (Hleaf2 : ∀ p v, getVertex g2 p = Some v → vertex_isLeaf v = true).
  { intros p v Hp. rewrite (getVertex_vertices g2 g1 p Hv2) in Hp.
    destruct p as [[|l] k]; [|done]. unfold getVertex in Hp. simpl in Hp.
    rewrite numberVertices_lookup in Hp.
    destruct (vertices lev !! k) as [v0|] eqn:H0; [|done].
    injection Hp as <-. rewrite Forall_lookup in Hvs.
    apply (Hvs k v0 H0). }
  destruct (leafNumberVertexLevels_spec (length g2) g2 0)
    as (g3 & H3 & Her3 & _ & Hrank3 & _); [lia| | |].
  { intros p v q Hp Hq. apply Hleaf2 in Hp. unfold vertex_isLeaf in Hp.
    by rewrite Hq in Hp. }
  { intros p v q Hp Hq. apply Hleaf2 in Hp. unfold vertex_isLeaf in Hp.
    by rewrite Hq in Hp. }
  rewrite H3. cbn [mbind outcome_bind].
  destruct (erase_frame _ _ Her3) as (Hed3 & Hel3 & Hlen3).
  assert (∃ lev2, g2 = [lev2]) as (lev2 & ->).
  { destruct g2 as [|lev2 [|? ?]]; simpl in Hlen2; try done. eauto. }
  assert (∃ lev3, g3 = [lev3]) as (lev3 & ->).
  { destruct g3 as [|lev3 [|? ?]]; simpl in Hlen3; try done. eauto. }
  simpl in Hv2, Hel2, Hed3, Hel3.
  injection Hv2 as Hv2. injection Hel2 as Hel2.
  injection Hed3 as Hed3. injection Hel3 as Hel3.
  assert (Hfilter : filter (λ p, isLeafVertex [lev2] p = true)
                      (vertexVisitOrder 1 [lev2])
                    = levelPositions 0 0 (length (vertices lev))).
  { simpl. rewrite app_nil_r, Hv2, (proj1 (numberVertices_length _ _)).
    apply filter_all. intros p Hp.
    apply list_elem_of_fmap in Hp as (k & -> & Hk).
    apply elem_of_seq in Hk. unfold isLeafVertex.
    destruct (lookup_lt_is_Some_2 (vertices lev2) k) as [v Hv].
    { rewrite Hv2, (proj1 (numberVertices_length _ _)). lia. }
    unfold getVertex. simpl. rewrite Hv. apply (Hleaf2 (0, k)).
    unfold getVertex. simpl. done. }
  change (length [lev2]) with 1 in H3, Hrank3.
  rewrite Hfilter in H3, Hrank3.
  eexists _, lev3. split; [reflexivity|]. simpl.
  split; [done|]. split; [done|]. split; [|split; [|split]].
  - intros k.
    destruct (vertices lev !! k) as [v0|] eqn:H0; simpl.
    + assert (vertices lev2 !! k = Some (vertex_setLevelIndex (Some k) v0))
        as Hk2.
      { rewrite Hv2. simpl. by rewrite numberVertices_lookup, H0. }
      assert (levelPositions 0 0 (length (vertices lev)) !! k = Some (0, k))
        as Hpos.
      { unfold levelPositions. change (map ?f ?l) with (f <$> l).
        rewrite list_lookup_fmap, lookup_seq_lt; [done|].
        by apply lookup_lt_Some in H0. }
      specialize (Hrank3 k (0, k) Hpos).
      pose proof (erase_same_vertex [lev3] [lev2] (0, k) Her3) as Hsame.
      unfold getVertex in Hrank3, Hsame. simpl in Hrank3, Hsame.
      rewrite Hk2 in Hsame.
      destruct (vertices lev3 !! k) as [v3|]; [|done].
      simpl in Hrank3. injection Hrank3 as Hidx.
      destruct Hsame as [_ Hset]. f_equal.
      rewrite <- (vertex_eta v3), Hidx. apply Hset.
    + apply lookup_ge_None. apply lookup_ge_None in H0.
      apply (f_equal (λ g, length <$> (vertices <$> g !! 0))) in Her3.
      unfold eraseVertexLeafIndex in Her3. simpl in Her3.
      injection Her3 as Her3. rewrite !length_map in Her3.
      rewrite Her3, Hv2. simpl.
      by rewrite (proj1 (numberVertices_length _ _)).
  - intros k. rewrite Hed3.
    destruct (decide (k < length (edges lev))) as [Hlt|Hge].
    + specialize (Hed2 k (0, k)). unfold getEdge in Hed2. simpl in Hed2.
      rewrite Hed2; [done|]. rewrite app_nil_r.
      change (map ?f ?l) with (f <$> l).
      by rewrite list_lookup_fmap, lookup_seq_lt.
    + rewrite (lookup_ge_None_2 (edges lev)) by lia. simpl.
      apply lookup_ge_None.
      pose proof (leafNumberEdgeLevels_edges e_level_ ndebug _
                    (λ x e, eq_refl) _ _ _ _ H2) as Hlv.
      destruct (edges lev2 !! k) as [e2|] eqn:He2; [|by apply lookup_ge_None].
      specialize (Hlv (0, k)). unfold getEdge in Hlv. simpl in Hlv.
      rewrite He2 in Hlv. simpl in Hlv.
      rewrite (lookup_ge_None_2 (edges lev)) in Hlv by lia. done.
  - intros k. rewrite Hel3, Hel2. simpl. rewrite HjEl. simpl.
    rewrite numberElements_lookup. by destruct (elements lev !! k).
  - f_equal; [|f_equal; [|f_equal]].
    + f_equal.
      change (levelPositions 0 0 (length (vertices lev2)) ++ [])
        with (vertexVisitOrder 1 [lev2]).
      rewrite Hfilter. unfold levelPositions.
      by rewrite length_map, length_seq.
    + f_equal. by rewrite app_nil_r, length_map, length_seq.
    + f_equal. rewrite HnEl. simpl.
      by rewrite (proj1 (numberElements_length _ _)).
Qed.


(** ** [createGrid] on a coarse mesh: the grid handed over *)

(** The grid [createGrid] hands over, in terms of the state [st] the edge
    loop ends in: every entity has taken its position as leaf index, the
    vertices and elements also as level index, the edges also as boundary
    id. *)
Lemma createGrid_coarse_links ndebug nv (tris : list (list nat)) :
  Forall (λ t, length t = 3) tris →
  ∃ grid f' lev st levE,
    createGrid ndebug (coarseFactory nv tris) = Done (Some grid, f')
    ∧ entityImps_ grid = [lev]
    ∧ EdgeInv (mkLevel (map coarseVertex (seq 0 nv)) []
                 (imap coarseElement tris))
        (allEdgePairs (imap coarseElement tris)) st
    ∧ LinkInv (mkLevel (map coarseVertex (seq 0 nv)) []
                 (imap coarseElement tris))
        [wrapUnsigned nv; 0; wrapUnsigned (length tris)] (length tris) 0 st
    ∧ eb_imps st = [levE]
    ∧ freeIdCounter_ grid
      = [wrapUnsigned nv; wrapUnsigned (length (edges levE));
         wrapUnsigned (length tris)]
    ∧ (∀ k, vertices lev !! k
            = (λ v, vertex_setLeafIndex (Some k)
                      (vertex_setLevelIndex (Some k) v))
                <$> vertices levE !! k)
    ∧ (∀ k, edges lev !! k
            = (λ e, edge_setBoundaryId (Some (wrapUnsigned k))
                      (edge_setLeafIndex (Some k) e)) <$> edges levE !! k)
    ∧ (∀ k, elements lev !! k
            = (λ e, element_setLeafIndex (Some k)
                      (element_setLevelIndex (Some k) e))
                <$> elements levE !! k)
    ∧ size_ (leafIndexSet_ grid)
      = [Z.of_nat nv; Z.of_nat (length (edges levE));
         Z.of_nat (length tris)].
Proof.
  intros Hlen. unfold createGrid, coarseFactory.
  cbn [grid_ entityImps_ freeIdCounter_ levelIndexSets_ leafIndexSet_
       factoryOwnsGrid_ vertexIndex_ vertexArray_].
  set (lev0 := mkLevel (map coarseVertex (seq 0 nv)) []
                 (imap coarseElement tris)).
  destruct (createEdges_links lev0
              [wrapUnsigned nv; 0; wrapUnsigned (length tris)])
    as (st & Hst & Hinv & Hlink); [done| | |simpl; lia|done|].
  { apply (coarse_threeCorners tris Hlen). }
  { apply Forall_lookup. intros k e Hk. simpl in Hk.
    rewrite list_lookup_imap in Hk.
    destruct (tris !! k); [|done]. by injection Hk as <-. }
  rewrite Hst. cbn [mbind outcome_bind].
  replace (length (elements lev0)) with (length tris) in Hlink
    by (simpl; by rewrite length_imap).
  pose proof Hinv as (levE & HlevE & Hverts & _ & _ & _ & _ & Hsize & _).
  pose proof Hlink as (levE' & HlevE' & H1 & _ & _ & _ & Hcnt & _).
  rewrite HlevE in HlevE'. injection HlevE' as <-.
  rewrite HlevE.
  destruct (setIndices_single_level ndebug levE (eb_counters st) []
              (mkLeafIndexSet [0; 0; 0]%Z [[]; []; []]))
    as (grid1 & lev1 & Hset & Hg1 & Hc1 & Hv1 & He1 & Hel1 & Hsz1).
  { rewrite Hverts. apply Forall_lookup. intros k v Hk. simpl in Hk.
    change (map ?f ?l) with (f <$> l) in Hk. rewrite list_lookup_fmap in Hk.
    destruct (seq 0 nv !! k); [|done]. by injection Hk as <-. }
  { apply Forall_lookup. intros k ed Hk.
    by destruct (Hsize k ed Hk) as (_ & _ & ?). }
  { apply Forall_lookup. intros k e Hk. specialize (H1 k).
    rewrite Hk in H1. simpl in H1. rewrite list_lookup_imap in H1.
    destruct (tris !! k) as [t|]; [|done]. simpl in H1.
    injection H1 as _ _ _ _ _ Hsons _ _.
    unfold element_isLeaf. by rewrite Hsons. }
  rewrite Hset. cbn [mbind outcome_bind]. rewrite Hg1.
  cbn [lookup list_lookup deref mbind outcome_bind].
  eexists _, _, _, st, levE. split; [reflexivity|].
  cbn [entityImps_ freeIdCounter_ leafIndexSet_ vertices edges elements
       setEdges].
  assert (length (vertices levE) = nv) as Hnv.
  { rewrite Hverts. simpl. by rewrite length_map, length_seq. }
  assert (length (elements levE) = length tris) as Hnel.
  { apply Nat.le_antisymm.
    - destruct (decide (length (elements levE) ≤ length tris)); [done|].
      destruct (lookup_lt_is_Some_2 (elements levE) (length tris)) as [e He];
        [lia|].
      specialize (H1 (length tris)). rewrite He in H1. simpl in H1.
      rewrite list_lookup_imap, (lookup_ge_None_2 tris) in H1 by lia. done.
    - destruct (decide (length tris ≤ length (elements levE))); [done|].
      destruct (lookup_lt_is_Some_2 tris (length (elements levE))) as [t Ht];
        [lia|].
      specialize (H1 (length (elements levE))). simpl in H1.
      rewrite list_lookup_imap, Ht in H1.
      rewrite (lookup_ge_None_2 (elements levE)) in H1 by lia. done. }
  split; [reflexivity|]. split; [done|]. split; [done|]. split; [done|].
  split; [by rewrite Hc1, Hcnt|]. split; [done|]. split.
  { intros k. simpl. rewrite setBoundaryIds_lookup, He1. simpl.
    by destruct (edges levE !! k). }
  split; [done|]. by rewrite Hsz1, Hnv, Hnel.
Qed.


(** X14. [createGrid] links the elements and the edges of a coarse mesh
    both ways: every edge slot of every element holds an edge of the grid
    that joins the two corners of that slot (in either order) and lists the
    element among its incident elements; and every entry of the incidence
    list of an edge is an element of the grid that holds the edge in one of
    its slots.  In particular every element of the grid handed over meets
    the assumption the level intersection iterator makes about its center. *)
Theorem createGrid_links_elements_and_edges (ndebug : bool)
    (cs : list FactoryCall) :
  callsWellFormed 0 cs →
  ∃ f grid f' lev,
    runCalls ndebug cs GridFactory_new = Done f
    ∧ createGrid ndebug f = Done (Some grid, f')
    ∧ entityImps_ grid = [lev]
    ∧ length (elements lev) = length (trianglesOf cs)
    ∧ (∀ k el i, elements lev !! k = Some el → i < 3 →
         slotLinked (edges lev) k el i)
    ∧ (∀ pe ed x, edges lev !! pe = Some ed → x ∈ e_elements_ ed →
         ∃ k i el, x = (0, k) ∧ i < 3 ∧ elements lev !! k = Some el
                   ∧ edges_ el !! i = Some (Some (0, pe)))
    ∧ (∀ k, k < length (elements lev) →
         slotsResolve (entityImps_ grid) (0, k) 0).
Proof.
  intros Hwf.
  pose proof (runCalls_coarse ndebug cs 0 [] Hwf) as Hrun. simpl in Hrun.
  pose proof (callsWellFormed_triangles cs 0 Hwf) as Hlen.
  destruct (createGrid_coarse_links ndebug (countVertices cs) (trianglesOf cs)
              Hlen)
    as (grid & f' & lev & st & levE & Hcreate & Hgrid & _ & Hlink & HlevE
        & _ & _ & Hedges & Hels & _).
  destruct Hlink as (levE' & HlevE' & H1 & H2 & H3 & _).
  rewrite HlevE in HlevE'. injection HlevE' as <-.
  assert (Hel : ∀ k el, elements lev !! k = Some el →
            ∃ eE, elements levE !! k = Some eE
              ∧ edges_ el = edges_ eE ∧ vertex_ el = vertex_ eE
              ∧ k < length (trianglesOf cs)).
  { intros k el Hk. rewrite Hels in Hk.
    destruct (elements levE !! k) as [eE|] eqn:HeE; [|done].
    injection Hk as <-. exists eE. split; [done|]. split; [done|].
    split; [done|]. specialize (H1 k). rewrite HeE in H1. simpl in H1.
    rewrite list_lookup_imap in H1.
    destruct (trianglesOf cs !! k) eqn:Ht; [|done].
    by apply lookup_lt_Some in Ht. }
  assert (Hed : ∀ pe eE, edges levE !! pe = Some eE →
            ∃ ed, edges lev !! pe = Some ed
              ∧ e_elements_ ed = e_elements_ eE
              ∧ e_vertex_ ed = e_vertex_ eE).
  { intros pe eE Hpe. rewrite Hedges, Hpe. simpl. eauto. }
  assert (Hlinked : ∀ k el i, elements lev !! k = Some el → i < 3 →
            slotLinked (edges lev) k el i).
  { intros k el i Hk Hi.
    destruct (Hel k el Hk) as (eE & HeE & Hslots & Hverts & Hlt).
    destruct (H2 k i) as (eE' & HeE' & pe & edE & v0 & v1 & Hslot & HedE & Hin
                          & Hv0 & Hv1 & Hsame).
    { unfold handled. lia. }
    rewrite HeE in HeE'. injection HeE' as <-.
    destruct (Hed pe edE HedE) as (ed & Hpe & Hinc & Hvert).
    exists pe, ed, v0, v1. rewrite Hslots, Hverts, Hinc, Hvert. done. }
  assert (Hback : ∀ pe ed x, edges lev !! pe = Some ed → x ∈ e_elements_ ed →
            ∃ k i el, x = (0, k) ∧ i < 3 ∧ elements lev !! k = Some el
                      ∧ edges_ el !! i = Some (Some (0, pe))).
  { intros pe ed x Hpe Hx. rewrite Hedges in Hpe.
    destruct (edges levE !! pe) as [edE|] eqn:HedE; [|done].
    injection Hpe as <-. simpl in Hx.
    destruct (H3 pe edE x HedE Hx) as (a & b & eE & -> & Hab & HeE & Hslot).
    exists a, b. eexists. split; [done|]. split; [by destruct Hab|].
    rewrite Hels, HeE. simpl. split; [done|]. done. }
  eexists _, grid, f', lev. split; [exact Hrun|]. split; [done|].
  split; [done|]. split; [|split; [done|split; [done|]]].
  - apply Nat.le_antisymm.
    + destruct (decide (length (elements lev) ≤ length (trianglesOf cs)));
        [done|].
      destruct (lookup_lt_is_Some_2 (elements lev) (length (trianglesOf cs)))
        as [el Hk]; [lia|].
      destruct (Hel _ el Hk) as (_ & _ & _ & _ & ?). lia.
    + destruct (decide (length (trianglesOf cs) ≤ length (elements lev)));
        [done|].
      destruct (H2 (length (elements lev)) 0) as (eE & HeE & _).
      { unfold handled. lia. }
      assert (is_Some (elements lev !! length (elements lev))) as Hsome.
      { rewrite Hels, HeE. by eexists. }
      apply lookup_lt_is_Some in Hsome. lia.
  - intros k Hk e [_ He]. rewrite Hgrid.
    destruct (lookup_lt_is_Some_2 _ _ Hk) as [el Hkel].
    destruct (Hlinked k el e Hkel He)
      as (pe & ed & v0 & v1 & Hslot & Hpe & Hin & _).
    exists (e_elements_ ed). split; [|split; [done|]].
    + unfold edgeElements, getElement, getEdge. simpl.
      rewrite Hkel. simpl. rewrite Hslot. simpl. by rewrite Hpe.
    + intros n Hn.
      destruct (Hback pe ed n Hpe Hn) as (a & b & ea & -> & _ & Ha & _).
      unfold getElement. simpl. rewrite Ha. by eexists.
Qed.

Lemma createGrid_links_elements_and_edges_witness :
  ∃ f grid f' lev,
    runCalls false squareCalls GridFactory_new = Done f
    ∧ createGrid false f = Done (Some grid, f')
    ∧ entityImps_ grid = [lev]
    ∧ length (elements lev) = 2
    ∧ (∀ k el i, elements lev !! k = Some el → i < 3 →
         slotLinked (edges lev) k el i)
    ∧ (∀ pe ed x, edges lev !! pe = Some ed → x ∈ e_elements_ ed →
         ∃ k i el, x = (0, k) ∧ i < 3 ∧ elements lev !! k = Some el
                   ∧ edges_ el !! i = Some (Some (0, pe)))
    ∧ (∀ k, k < length (elements lev) →
         slotsResolve (entityImps_ grid) (0, k) 0).
Proof.
  exact (createGrid_links_elements_and_edges false squareCalls
           squareCalls_wellFormed).
Defined.

(** ** The edges of a coarse mesh and its triangles *)

Lemma countPair_triangle_eq (a b c x y : nat) :
  NoDup [a; b; c] → x ≠ y →
  countPair (edgePairs (map (λ i, (0, i)) [a; b; c])) ((0, x), (0, y))
  = if decide (x ∈ [a; b; c] ∧ y ∈ [a; b; c]) then 1 else 0.
Proof.
  intros Hnd Hxy. apply NoDup_cons in Hnd as [Ha Hnd].
  apply NoDup_cons in Hnd as [Hb _].
  apply not_elem_of_cons in Ha as [Hab Ha].
  apply not_elem_of_cons in Ha as [Hac _].
  apply not_elem_of_cons in Hb as [Hbc _].
  simpl. rewrite edgePairs_three. unfold countPair.
  rewrite !filter_cons, filter_nil. unfold samePair. simpl.
  destruct (decide (x ∈ [a; b; c] ∧ y ∈ [a; b; c])) as [[Hx Hy]|Hno].
  - assert (∀ z, z ∈ [a; b; c] → z = a ∨ z = b ∨ z = c) as Hthree.
    { intros z Hz. apply elem_of_cons in Hz as [?|Hz]; [by left|].
      apply elem_of_cons in Hz as [?|Hz]; [by right; left|].
      apply list_elem_of_singleton in Hz. by right; right. }
    apply Hthree in Hx as Hx'. apply Hthree in Hy as Hy'. clear Hx Hy Hthree.
    destruct Hx' as [Hx|[Hx|Hx]], Hy' as [Hy|[Hy|Hy]]; subst x y; try done;
      repeat case_decide; simpl; try lia;
      repeat match goal with
             | H : _ ∨ _ |- _ => destruct H
             | H : (_, _) = (_, _) |- _ => injection H as ? ?
             | H : ¬ (_ ∨ _) |- _ => apply Decidable.not_or in H as [? ?]
             end; congruence.
  - repeat case_decide; simpl; try lia;
      repeat match goal with
             | H : _ ∨ _ |- _ => destruct H
             | H : (_, _) = (_, _) |- _ => injection H as ? ?
             end; subst; exfalso; apply Hno; set_solver.
Qed.

Lemma countPair_triangles_eq (tris : list (list nat)) (x y : nat) :
  Forall (λ t, length t = 3) tris →
  Forall NoDup tris →
  x ≠ y →
  countPair (allEdgePairs (imap coarseElement tris)) ((0, x), (0, y))
  = trianglesSharing tris x y.
Proof.
  intros Hlen Hnd Hxy. rewrite allEdgePairs_coarse.
  induction tris as [|t ts IH]; [done|].
  apply Forall_cons in Hlen as [Ht Hl]. apply Forall_cons in Hnd as [Hnt Hn].
  destruct t as [|a [|b [|c [|]]]]; try done.
  pose proof (countPair_triangle_eq a b c x y Hnt Hxy) as Htri.
  specialize (IH Hl Hn).
  cbn [map concat] in *. rewrite countPair_app, IH, Htri.
  unfold trianglesSharing. rewrite filter_cons. cbv beta.
  by destruct (decide (x ∈ [a; b; c] ∧ y ∈ [a; b; c])).
Qed.

Lemma countPair_pos occ key :
  0 < countPair occ key → ∃ o, o ∈ occ ∧ samePair o key.
Proof.
  unfold countPair. intros Hpos.
  destruct (filter (λ o, samePair o key) occ) as [|o l] eqn:Hf;
    [simpl in Hpos; lia|].
  assert (o ∈ filter (λ o, samePair o key) occ) as Ho
    by (rewrite Hf; set_solver).
  apply list_elem_of_filter in Ho as [? ?]. eauto.
Qed.

Lemma allEdgePairs_coarse_elem (tris : list (list nat)) o :
  Forall (λ t, length t = 3) tris → Forall NoDup tris →
  o ∈ allEdgePairs (imap coarseElement tris) →
  ∃ x y, o = ((0, x), (0, y)) ∧ x ≠ y.
Proof.
  intros Hlen Hnd. rewrite allEdgePairs_coarse.
  induction tris as [|t ts IH]; intros Ho; [by apply elem_of_nil in Ho|].
  apply Forall_cons in Hlen as [Ht Hl]. apply Forall_cons in Hnd as [Hnt Hn].
  cbn [map concat] in Ho. apply elem_of_app in Ho as [Ho|Ho]; [|by apply IH].
  destruct t as [|a [|b [|c [|]]]]; try done.
  apply NoDup_cons in Hnt as [Ha Hnt]. apply NoDup_cons in Hnt as [Hb _].
  apply not_elem_of_cons in Ha as [Hab Ha].
  apply not_elem_of_cons in Ha as [Hac _].
  apply not_elem_of_cons in Hb as [Hbc _].
  simpl in Ho. rewrite edgePairs_three in Ho.
  apply elem_of_cons in Ho as [Ho|Ho]; [eauto|].
  apply elem_of_cons in Ho as [Ho|Ho]; [eauto|].
  apply list_elem_of_singleton in Ho. eauto.
Qed.

(** X15. In the grid [createGrid] hands over for a coarse mesh of triangles
    with three different corners each, the edges are the pairs of vertices
    that some triangle has both of: every edge joins two different vertices,
    no two edges join the same two vertices, every two vertices of a triangle
    are joined by an edge, and the number of elements incident to an edge is
    the number of triangles inserted that have both its vertices, whatever
    that number is. *)
Theorem createGrid_edges_are_the_vertex_pairs (ndebug : bool)
    (cs : list FactoryCall) :
  callsWellFormed 0 cs →
  Forall NoDup (trianglesOf cs) →
  ∃ f grid f' lev,
    runCalls ndebug cs GridFactory_new = Done f
    ∧ createGrid ndebug f = Done (Some grid, f')
    ∧ entityImps_ grid = [lev]
    ∧ (∀ pe ed, edges lev !! pe = Some ed →
         ∃ x y, e_vertex_ ed = ((0, x), (0, y)) ∧ x ≠ y
                ∧ length (e_elements_ ed)
                  = trianglesSharing (trianglesOf cs) x y)
    ∧ (∀ pe pe' ed ed', pe ≠ pe' →
         edges lev !! pe = Some ed → edges lev !! pe' = Some ed' →
         ¬ samePair (e_vertex_ ed) (e_vertex_ ed'))
    ∧ (∀ x y, x ≠ y → 0 < trianglesSharing (trianglesOf cs) x y →
         ∃ pe ed, edges lev !! pe = Some ed
                  ∧ samePair ((0, x), (0, y)) (e_vertex_ ed)).
Proof.
  intros Hwf Hnd.
  pose proof (runCalls_coarse ndebug cs 0 [] Hwf) as Hrun. simpl in Hrun.
  pose proof (callsWellFormed_triangles cs 0 Hwf) as Hlen.
  destruct (createGrid_coarse_links ndebug (countVertices cs) (trianglesOf cs)
              Hlen)
    as (grid & f' & lev & st & levE & Hcreate & Hgrid & Hinv & _ & HlevE
        & _ & _ & Hedges & _).
  destruct Hinv as (levE' & HlevE' & _ & _ & _ & _ & Hdist & Hsize & Hocc).
  rewrite HlevE in HlevE'. injection HlevE' as <-.
  assert (Hed : ∀ pe ed, edges lev !! pe = Some ed →
            ∃ eE, edges levE !! pe = Some eE
              ∧ e_elements_ ed = e_elements_ eE
              ∧ e_vertex_ ed = e_vertex_ eE).
  { intros pe ed Hpe. rewrite Hedges in Hpe.
    destruct (edges levE !! pe) as [eE|]; [|done].
    injection Hpe as <-. eauto. }
  eexists _, grid, f', lev. split; [exact Hrun|]. split; [done|].
  split; [done|]. split; [|split].
  - intros pe ed Hpe. destruct (Hed pe ed Hpe) as (eE & HeE & -> & ->).
    destruct (Hsize pe eE HeE) as (Hge & Hcount & _).
    destruct (countPair_pos (allEdgePairs (imap coarseElement (trianglesOf cs)))
                (e_vertex_ eE)) as (o & Ho & Hsame); [simpl in Hcount; lia|].
    destruct (allEdgePairs_coarse_elem _ o Hlen Hnd Ho) as (x & y & -> & Hxy).
    destruct Hsame as [Hsame|Hsame].
    + exists x, y. split; [done|]. split; [done|].
      rewrite Hcount, <- Hsame. by apply countPair_triangles_eq.
    + destruct (e_vertex_ eE) as [p q] eqn:Hv. simpl in Hsame.
      injection Hsame as <- <-. exists y, x. split; [done|].
      split; [done|]. rewrite Hcount. by apply countPair_triangles_eq.
  - intros pe pe' ed ed' Hne Hpe Hpe'.
    destruct (Hed pe ed Hpe) as (eE & HeE & _ & ->).
    destruct (Hed pe' ed' Hpe') as (eE' & HeE' & _ & ->).
    by apply (Hdist pe pe').
  - intros x y Hxy Hshare.
    rewrite <- (countPair_triangles_eq _ x y Hlen Hnd Hxy) in Hshare.
    destruct (countPair_pos _ _ Hshare) as (o & Ho & Hsame).
    destruct (Hocc o Ho) as (pe & eE & HeE & Hs).
    exists pe. eexists. rewrite Hedges, HeE. simpl. split; [done|]. simpl.
    eapply samePair_trans; [|exact Hs]. by apply samePair_sym.
Qed.


Lemma squareCalls_distinct : Forall NoDup (trianglesOf squareCalls).
Proof. apply (bool_decide_unpack _). vm_compute. exact I. Qed.

Lemma createGrid_edges_are_the_vertex_pairs_witness :
  ∃ f grid f' lev,
    runCalls false squareCalls GridFactory_new = Done f
    ∧ createGrid false f = Done (Some grid, f')
    ∧ entityImps_ grid = [lev]
    ∧ (∀ pe ed, edges lev !! pe = Some ed →
         ∃ x y, e_vertex_ ed = ((0, x), (0, y)) ∧ x ≠ y
                ∧ length (e_elements_ ed)
                  = trianglesSharing [[0; 1; 2]; [1; 3; 2]] x y)
    ∧ (∀ pe pe' ed ed', pe ≠ pe' →
         edges lev !! pe = Some ed → edges lev !! pe' = Some ed' →
         ¬ samePair (e_vertex_ ed) (e_vertex_ ed'))
    ∧ (∀ x y, x ≠ y → 0 < trianglesSharing [[0; 1; 2]; [1; 3; 2]] x y →
         ∃ pe ed, edges lev !! pe = Some ed
                  ∧ samePair ((0, x), (0, y)) (e_vertex_ ed)).
Proof.
  exact (createGrid_edges_are_the_vertex_pairs false squareCalls
           squareCalls_wellFormed squareCalls_distinct).
Defined.

(** ** Indices and ids of sub-entities *)

(** X16. The sub-entity switches of an element ([subLevelIndex],
    [subLeafIndex], [subId], and [subIndex] of the two index sets, which
    pass their [int codim] on as [unsigned int]) accept the codimensions 0,
    1 and 2 only: for any other [int], a negative one included, they abort
    at the assertion, and with [NDEBUG] throw [GridError].  For codimension
    0 the local number [i] is not looked at.  The switches of an edge
    accept 1 and 2 only, and treat 0 like any other codimension. *)
Theorem sub_entity_switches_reject_other_codimensions {A}
    (ofElement : FoamGridElement → option A)
    (ofEdge : FoamGridEdge → option A) (ofVertex : FoamGridVertex → option A)
    (ndebug : bool) (g : EntityImps) (target : Ptr) (i codim : Z) :
  (- 2 ^ 31 ≤ codim < 2 ^ 31)%Z →
  ((codim < 0 ∨ 2 < codim)%Z →
   Entity0_subField ofElement ofEdge ofVertex ndebug g target i
     (toUnsigned codim)
   = if ndebug then Throw GridError else AssertFail)
  ∧ ((codim < 1 ∨ 2 < codim)%Z →
     Edge_subField ofEdge ofVertex ndebug g target i (toUnsigned codim)
     = if ndebug then Throw GridError else AssertFail)
  ∧ (∀ j, Entity0_subField ofElement ofEdge ofVertex ndebug g target i 0
          = Entity0_subField ofElement ofEdge ofVertex ndebug g target j 0)
  ∧ (∀ j, Edge_subField ofEdge ofVertex ndebug g target i 1
          = Edge_subField ofEdge ofVertex ndebug g target j 1).
Proof.
  intros Hint.
  assert (Hneg : (codim < 0)%Z → (2 < toUnsigned codim)%Z).
  { intros Hneg. unfold toUnsigned.
    change (2 ^ 32)%Z with 4294967296%Z. change (2 ^ 31)%Z with 2147483648%Z in Hint.
    replace codim with ((codim + 4294967296) + (-1) * 4294967296)%Z by lia.
    rewrite Z.mod_add by lia. rewrite Z.mod_small; lia. }
  assert (Hpos : (0 ≤ codim)%Z → toUnsigned codim = codim).
  { intros Hpos. unfold toUnsigned.
    change (2 ^ 32)%Z with 4294967296%Z. change (2 ^ 31)%Z with 2147483648%Z in Hint.
    rewrite Z.mod_small; lia. }
  split; [|split; [|split]]; [| |done|done].
  - intros Hout.
    assert (2 < toUnsigned codim)%Z as Hbig.
    { destruct Hout as [?|?]; [by apply Hneg|]. rewrite Hpos; lia. }
    unfold Entity0_subField, assert, dim.
    rewrite bool_decide_eq_false_2 by lia.
    destruct ndebug; simpl; [|done].
    destruct (toUnsigned codim) as [|[[p|p|]|[p|p|]|]|p]; try done; lia.
  - intros Hout.
    assert (toUnsigned codim = 0 ∨ 2 < toUnsigned codim)%Z as Hbig.
    { destruct (decide (codim < 0)%Z) as [?|?]; [right; by apply Hneg|].
      rewrite Hpos by lia. lia. }
    unfold Edge_subField, assert.
    rewrite bool_decide_eq_false_2 by lia.
    destruct ndebug; simpl; [|done].
    destruct (toUnsigned codim) as [|[[p|p|]|[p|p|]|]|p]; try done; lia.
Qed.

Lemma sub_entity_switches_reject_other_codimensions_witness :
  ((-1 < 0 ∨ 2 < -1)%Z →
   Entity0_subField levelIndex_ e_levelIndex_ v_levelIndex_ true square T0 0
     (toUnsigned (-1))
   = Throw GridError)
  ∧ ((-1 < 1 ∨ 2 < -1)%Z →
     Edge_subField e_levelIndex_ v_levelIndex_ true square T0 0
       (toUnsigned (-1))
     = Throw GridError)
  ∧ (∀ j, Entity0_subField levelIndex_ e_levelIndex_ v_levelIndex_ true
            square T0 0 0
          = Entity0_subField levelIndex_ e_levelIndex_ v_levelIndex_ true
              square T0 j 0)
  ∧ (∀ j, Edge_subField e_levelIndex_ v_levelIndex_ true square T0 0 1
          = Edge_subField e_levelIndex_ v_levelIndex_ true square T0 j 1).
Proof.
  apply (sub_entity_switches_reject_other_codimensions levelIndex_
           e_levelIndex_ v_levelIndex_ true square T0 0 (-1)).
  lia.
Defined.


Lemma callsWellFormed_bounds cs : ∀ nv t x,
  callsWellFormed nv cs → t ∈ trianglesOf cs → x ∈ t →
  x < nv + countVertices cs.
Proof.
  induction cs as [|[|type vs] cs IH]; intros nv t x Hwf Ht Hx; simpl in *.
  - by apply elem_of_nil in Ht.
  - specialize (IH (S nv) t x Hwf Ht Hx). lia.
  - destruct Hwf as (_ & (a & b & c & Hvs & Ha & Hb & Hc) & Hwf).
    apply elem_of_cons in Ht as [->|Ht].
    + rewrite Hvs in Hx.
      apply elem_of_cons in Hx as [->|Hx]; [lia|].
      apply elem_of_cons in Hx as [->|Hx]; [lia|].
      apply list_elem_of_singleton in Hx as ->. lia.
    + by apply (IH nv t x).
Qed.

(** X17. What a client reads back of a coarse mesh after [createGrid]
    follows the insertion, as long as the mesh is small enough for the
    machine integers: fewer than 2^31 vertices, and fewer than 2^31 edge
    slots (three per triangle), so that no [unsigned int] id counter wraps
    and no [int] index leaves its range.  Of the [k]-th element inserted,
    with the vertex numbers [a, b, c] of its [insertElement] call, the id
    and the level index are [k]; the id, the level index and the leaf index
    of its [i]-th corner are the [i]-th of these vertex numbers; and the id
    and the leaf index of the edge in its [i]-th slot both are the position
    of that edge in the list of edges, which is also the edge's boundary
    id. *)
Theorem createGrid_sub_indices_follow_insertion (ndebug : bool)
    (cs : list FactoryCall) :
  callsWellFormed 0 cs →
  (Z.of_nat (countVertices cs) < 2 ^ 31)%Z →
  (3 * Z.of_nat (length (trianglesOf cs)) < 2 ^ 31)%Z →
  ∃ f grid f' lev,
    runCalls ndebug cs GridFactory_new = Done f
    ∧ createGrid ndebug f = Done (Some grid, f')
    ∧ entityImps_ grid = [lev]
    ∧ freeIdCounter_ grid
      = [countVertices cs; length (edges lev); length (trianglesOf cs)]
    ∧ ∀ k t, trianglesOf cs !! k = Some t →
        (∀ i, Entity0_subId ndebug [lev] (0, k) i 0 = Done k
              ∧ Entity0_subLevelIndex ndebug [lev] (0, k) i 0 = Done k)
        ∧ (∀ i x, t !! i = Some x →
             Entity0_subId ndebug [lev] (0, k) (Z.of_nat i) 2 = Done x
             ∧ Entity0_subLevelIndex ndebug [lev] (0, k) (Z.of_nat i) 2
               = Done x
             ∧ Entity0_subLeafIndex ndebug [lev] (0, k) (Z.of_nat i) 2
               = Done x)
        ∧ (∀ i, i < 3 →
             ∃ pe ed,
               Entity0_subId ndebug [lev] (0, k) (Z.of_nat i) 1 = Done pe
               ∧ Entity0_subLeafIndex ndebug [lev] (0, k) (Z.of_nat i) 1
                 = Done pe
               ∧ edges lev !! pe = Some ed
               ∧ e_boundaryId_ ed = Some pe).
Proof.
  intros Hwf Hnv Hntri.
  pose proof (runCalls_coarse ndebug cs 0 [] Hwf) as Hrun. simpl in Hrun.
  pose proof (callsWellFormed_triangles cs 0 Hwf) as Hlen.
  destruct (createGrid_coarse_links ndebug (countVertices cs) (trianglesOf cs)
              Hlen)
    as (grid & f' & lev & st & levE & Hcreate & Hgrid & Hinv & Hlink & HlevE
        & Hcnt & Hverts & Hedges & Hels & _).
  destruct Hinv as (levE' & HlevE' & HvE & _).
  rewrite HlevE in HlevE'. injection HlevE' as <-.
  destruct Hlink as (levE' & HlevE' & H1 & H2 & _ & H4 & _ & Hnum).
  rewrite HlevE in HlevE'. injection HlevE' as <-.
  assert (Hsmall : ∀ n, (Z.of_nat n < 2 ^ 31)%Z → wrapUnsigned n = n).
  { intros n Hn. apply wrapUnsigned_small.
    change (2 ^ 31)%Z with 2147483648%Z in Hn.
    change (2 ^ 32)%Z with 4294967296%Z. lia. }
  change (2 ^ 31)%Z with 2147483648%Z in Hnv, Hntri.
  assert (Hedge31 : (Z.of_nat (length (edges levE)) < 2147483648)%Z) by lia.
  assert (length (edges lev) = length (edges levE)) as Hned.
  { apply Nat.le_antisymm.
    - destruct (decide (length (edges lev) ≤ length (edges levE))); [done|].
      assert (is_Some (edges lev !! length (edges levE))) as [e He]
        by (apply lookup_lt_is_Some; lia).
      rewrite Hedges, (lookup_ge_None_2 (edges levE)) in He by lia. done.
    - destruct (decide (length (edges levE) ≤ length (edges lev))); [done|].
      assert (is_Some (edges levE !! length (edges lev))) as [e He]
        by (apply lookup_lt_is_Some; lia).
      assert (is_Some (edges lev !! length (edges lev))) as Hsome
        by (rewrite Hedges, He; by eexists).
      apply lookup_lt_is_Some in Hsome. lia. }
  eexists _, grid, f', lev. split; [exact Hrun|]. split; [done|].
  split; [done|]. split.
  { rewrite Hcnt, Hned, !Hsmall; [done|..];
      change (2 ^ 31)%Z with 2147483648%Z; lia. }
  intros k t Hk.
  (* the element *)
  assert (∃ eE, elements levE !! k = Some eE ∧ id_ eE = k
                ∧ vertex_ eE = map (λ i, (0, i)) t) as (eE & HeE & Hid & Hvt).
  { specialize (H1 k). simpl in H1. rewrite list_lookup_imap, Hk in H1.
    destruct (elements levE !! k) as [eE|]; [|done]. simpl in H1.
    injection H1 as _ Hid _ _ ? _ _ _. exists eE.
    split; [done|]. split; [|done]. rewrite Hid. apply Hsmall.
    apply lookup_lt_Some in Hk.
    change (2 ^ 31)%Z with 2147483648%Z. lia. }
  assert (Hel : getElement [lev] (0, k)
                = Some (element_setLeafIndex (Some k)
                          (element_setLevelIndex (Some k) eE))).
  { unfold getElement. simpl. by rewrite Hels, HeE. }
  assert (Hassert : ∀ c, (0 ≤ c ≤ 2)%Z →
            assert ndebug (bool_decide (0 ≤ c ∧ c ≤ dim)%Z) = Done ()).
  { intros c Hc. unfold assert, dim. rewrite bool_decide_eq_true_2 by lia.
    by rewrite orb_true_r. }
  split; [|split].
  - intros i.
    unfold Entity0_subId, Entity0_subLevelIndex, Entity0_subField.
    rewrite Hassert by lia. simpl. rewrite Hel. simpl. by rewrite Hid.
  - intros i x Hi.
    assert (x < countVertices cs) as Hx.
    { apply (callsWellFormed_bounds cs 0 t x Hwf).
      - by eapply list_elem_of_lookup_2.
      - by eapply list_elem_of_lookup_2. }
    assert (getVertex [lev] (0, x)
            = Some (mkVertex 0 x (Some x) (Some x) None)) as Hv.
    { unfold getVertex. simpl. rewrite Hverts, HvE. simpl.
      change (map ?f ?l) with (f <$> l).
      rewrite list_lookup_fmap, lookup_seq_lt by done. simpl.
      unfold coarseVertex. rewrite Hsmall; [done|].
      change (2 ^ 31)%Z with 2147483648%Z. lia. }
    unfold Entity0_subId, Entity0_subLevelIndex, Entity0_subLeafIndex,
      Entity0_subField.
    rewrite Hassert by lia. simpl. rewrite Hel. simpl.
    unfold at_. rewrite decide_True by lia. rewrite Nat2Z.id, Hvt.
    change (map ?f ?l) with (f <$> l). rewrite list_lookup_fmap, Hi. simpl.
    rewrite Hv. done.
  - intros i Hi.
    destruct (H2 k i) as (eE' & HeE' & pe & edE & v0 & v1 & Hslot & HedE & _).
    { unfold handled. apply lookup_lt_Some in Hk. lia. }
    rewrite HeE in HeE'. injection HeE' as <-.
    destruct (H4 pe edE HedE) as (_ & Hide & _).
    exists pe. eexists.
    unfold Entity0_subId, Entity0_subLeafIndex, Entity0_subField.
    rewrite Hassert by lia. simpl. rewrite Hel. simpl.
    unfold at_. rewrite decide_True by lia. rewrite Nat2Z.id, Hslot. simpl.
    unfold getEdge. simpl. rewrite Hedges, HedE. simpl.
    apply lookup_lt_Some in HedE as Hpe.
    rewrite Hide, Hsmall by (change (2 ^ 31)%Z with 2147483648%Z; lia).
    split; [done|]. split; [done|]. split; [done|]. done.
Qed.

Lemma createGrid_sub_indices_follow_insertion_witness :
  ∃ f grid f' lev,
    runCalls false squareCalls GridFactory_new = Done f
    ∧ createGrid false f = Done (Some grid, f')
    ∧ entityImps_ grid = [lev]
    ∧ freeIdCounter_ grid = [4; length (edges lev); 2]
    ∧ ∀ k t, [[0; 1; 2]; [1; 3; 2]] !! k = Some t →
        (∀ i, Entity0_subId false [lev] (0, k) i 0 = Done k
              ∧ Entity0_subLevelIndex false [lev] (0, k) i 0 = Done k)
        ∧ (∀ i x, t !! i = Some x →
             Entity0_subId false [lev] (0, k) (Z.of_nat i) 2 = Done x
             ∧ Entity0_subLevelIndex false [lev] (0, k) (Z.of_nat i) 2
               = Done x
             ∧ Entity0_subLeafIndex false [lev] (0, k) (Z.of_nat i) 2
               = Done x)
        ∧ (∀ i, i < 3 →
             ∃ pe ed,
               Entity0_subId false [lev] (0, k) (Z.of_nat i) 1 = Done pe
               ∧ Entity0_subLeafIndex false [lev] (0, k) (Z.of_nat i) 1
                 = Done pe
               ∧ edges lev !! pe = Some ed
               ∧ e_boundaryId_ ed = Some pe).
Proof.
  exact (createGrid_sub_indices_follow_insertion false squareCalls
           squareCalls_wellFormed eq_refl eq_refl).
Defined.

